(** * 8-puzzle solver engine: board model, move generator, A* search and
      the genetic solver, embedded from the TypeScript sources

    Sources embedded here:
    - [src/types/puzzle.ts]       ([PuzzleState], [GeneticConfig], [GOAL_STATE])
    - [src/utils/puzzleUtils.ts]  (heuristics, [isSolvable], [getValidMoves],
                                   [isGoalState])
    - [src/algorithms/astar.ts]   ([solveAStar])
    - [src/algorithms/genetic.ts] ([Individual], [selectParent],
                                   [solvePuzzleGenetic])
    - [src/components/EightPuzzleGame.tsx] ([shuffleBoard])

    Conventions of the embedding.
    - A JavaScript [number[]] board is a [list Z]; every board the program
      handles has 9 cells, so indexed reads are in range.  An indexed read is
      [nth i b 0].
    - [Math.floor (x / 3)] is [Z.div] (floor division), the JavaScript [%]
      is [Z.rem] (sign of the dividend).
    - Move names are the strings the source uses (['UP'], ['DOWN'], ...).
    - [Math.random ()] is an oracle [rnd : nat -> Q] read through a counter
      that is threaded through the genetic solver; a [TypeError] is [None]
      in that monad. *)

From Stdlib Require Import String Ascii.
From Stdlib Require Import ZArith List Bool Arith Lia.
From Stdlib Require Import Permutation QArith Qround.
From Stdlib Require Import DecimalString Sorted.
From Stdlib Require Uint63 PArray Floats.
Import ListNotations.

Local Open Scope Z_scope.
Local Open Scope list_scope.

(* ================================================================== *)
(** * Board model *)
(* ================================================================== *)

Definition Board := list Z.

(** [export const GOAL_STATE = [1, 2, 3, 4, 5, 6, 7, 8, 0]] *)
Definition GOAL_STATE : Board := [1; 2; 3; 4; 5; 6; 7; 8; 0].

(** A valid board is a permutation of 0..8 (data model of the puzzle). *)
Definition valid_board (b : Board) : Prop := Permutation b GOAL_STATE.

(** Array read [b[i]] for an index inside the array. *)
Definition get (b : Board) (i : nat) : Z := nth i b 0.

(** Array write [b[i] = v] for an index inside the array. *)
Fixpoint set_at {A} (i : nat) (v : A) (b : list A) : list A :=
  match b, i with
  | [], _ => []
  | _ :: t, O => v :: t
  | x :: t, S i' => x :: set_at i' v t
  end.

(** [manhattanDistance]: the loop [for (let i = 0; i < 9; i++)] with its
    accumulator [distance]. *)
Definition manhattan_step (b : Board) (distance : Z) (i : nat) : Z :=
  let v := get b i in
  if v =? 0 then distance
  else
    let targetRow := (v - 1) / 3 in
    let targetCol := Z.rem (v - 1) 3 in
    let currentRow := Z.of_nat i / 3 in
    let currentCol := Z.rem (Z.of_nat i) 3 in
    distance + (Z.abs (targetRow - currentRow) + Z.abs (targetCol - currentCol)).

Definition manhattanDistance (b : Board) : Z :=
  fold_left (manhattan_step b) (seq 0 9) 0.

(** [tilesOutOfPlace] *)
Definition tilesOutOfPlace (b : Board) : Z :=
  fold_left
    (fun count i =>
       if negb (get b i =? 0) && negb (get b i =? get GOAL_STATE i)
       then count + 1 else count)
    (seq 0 9) 0.

(** [Array.prototype.every] with the (value, index) callback. *)
Fixpoint every_from {A} (f : A -> nat -> bool) (idx : nat) (l : list A) : bool :=
  match l with
  | [] => true
  | x :: t => f x idx && every_from f (S idx) t
  end.

Definition every {A} (f : A -> nat -> bool) (l : list A) : bool :=
  every_from f 0%nat l.

(** [val === GOAL_STATE[idx]]: a read past the end is [undefined], which is
    not [===] to any number. *)
Definition strict_eq_at (other : Board) (val : Z) (idx : nat) : bool :=
  match nth_error other idx with
  | Some w => val =? w
  | None => false
  end.

(** [isGoalState] *)
Definition isGoalState (b : Board) : bool := every (strict_eq_at GOAL_STATE) b.

(** [boardsEqual] *)
Definition boardsEqual (b1 b2 : Board) : bool := every (strict_eq_at b2) b1.

(* ------------------------------------------------------------------ *)
(** ** Solvability parity *)
(* ------------------------------------------------------------------ *)

(** The inner loop [for (let j = i + 1; j < flatBoard.length; j++)]:
    [n] iterations starting at index [j]. *)
Fixpoint inversions_inner (flat : list Z) (i j n : nat) (inversions : nat) : nat :=
  match n with
  | O => inversions
  | S n' =>
      inversions_inner flat i (S j) n'
        (if nth i flat 0 >? nth j flat 0 then S inversions else inversions)
  end.

(** The outer loop [for (let i = 0; i < flatBoard.length - 1; i++)]:
    [n] iterations starting at index [i]. *)
Fixpoint inversions_outer (flat : list Z) (i n : nat) (inversions : nat) : nat :=
  match n with
  | O => inversions
  | S n' =>
      inversions_outer flat (S i) n'
        (inversions_inner flat i (S i) (length flat - S i) inversions)
  end.

(** [isSolvable] *)
Definition isSolvable (b : Board) : bool :=
  let flatBoard := filter (fun x => negb (x =? 0)) b in
  let inversions := inversions_outer flatBoard 0 (length flatBoard - 1) 0 in
  (Nat.modulo inversions 2 =? 0)%nat.

(** The spec's words: an inversion is a pair of tiles, the blank ignored,
    that appear in reverse order when the board is read flat. *)
Fixpoint inversion_count (l : list Z) : nat :=
  match l with
  | [] => O
  | x :: t => (length (filter (fun y => x >? y) t) + inversion_count t)%nat
  end.

Definition nonzero_cells (b : Board) : list Z :=
  filter (fun x => negb (x =? 0)) b.

(* ================================================================== *)
(** * Move generator *)
(* ================================================================== *)

(** [Array.prototype.indexOf]: the first index holding [x], or -1. *)
Fixpoint indexOf_from (l : list Z) (x : Z) (i : Z) : Z :=
  match l with
  | [] => -1
  | y :: t => if y =? x then i else indexOf_from t x (i + 1)
  end.

Definition indexOf (l : list Z) (x : Z) : Z := indexOf_from l x 0.

(** [getEmptyIndex] *)
Definition getEmptyIndex (b : Board) : Z := indexOf b 0.

(** The element type of the array [getValidMoves] returns:
    [{ board: number[], move: string }]. *)
Module Move.
Record t := mk { board : Board; move : string }.
End Move.

(** The table [directions] of [getValidMoves]: [(dr, dc, name)]. *)
Definition directions : list (Z * Z * string) :=
  [ (-1, 0, "UP"%string); (1, 0, "DOWN"%string);
    (0, -1, "LEFT"%string); (0, 1, "RIGHT"%string) ].

(** The destructuring swap
    [[nb[e], nb[s]] = [nb[s], nb[e]]]: both reads happen first, then the
    write at [e], then the write at [s]. *)
Definition swap_cells (nb : Board) (e s : nat) : Board :=
  let vs := get nb s in
  let ve := get nb e in
  set_at s ve (set_at e vs nb).

(** One call of the [directions.forEach] callback, [moves] being the array
    it pushes to. *)
Definition validMoves_step (b : Board) (emptyIndex : Z) (moves : list Move.t)
    (d : Z * Z * string) : list Move.t :=
  let '(dr, dc, name) := d in
  let row := emptyIndex / 3 in
  let col := Z.rem emptyIndex 3 in
  let newRow := row + dr in
  let newCol := col + dc in
  if (newRow >=? 0) && (newRow <? 3) && (newCol >=? 0) && (newCol <? 3) then
    let swapIndex := newRow * 3 + newCol in
    let newBoard := swap_cells b (Z.to_nat emptyIndex) (Z.to_nat swapIndex) in
    moves ++ [Move.mk newBoard name]
  else moves.

Definition validMoves_at (b : Board) (emptyIndex : Z) : list Move.t :=
  fold_left (validMoves_step b emptyIndex) directions [].

(** [getValidMoves] *)
Definition getValidMoves (b : Board) : list Move.t :=
  validMoves_at b (getEmptyIndex b).

(** The boards one legal move away from [b]. *)
Definition successors (b : Board) : list Board :=
  map Move.board (getValidMoves b).

Definition legal_move (b b' : Board) : Prop := In b' (successors b).

(** The direction that undoes a direction. *)
Definition opposite (name : string) : string :=
  if String.eqb name "UP" then "DOWN"
  else if String.eqb name "DOWN" then "UP"
  else if String.eqb name "LEFT" then "RIGHT"
  else if String.eqb name "RIGHT" then "LEFT"
  else name.

(** Grid vocabulary of the spec: corner, edge and centre cells, and
    adjacency of two cells of the 3x3 grid. *)
Definition is_corner (i : Z) : Prop := i = 0 \/ i = 2 \/ i = 6 \/ i = 8.
Definition is_edge (i : Z) : Prop := i = 1 \/ i = 3 \/ i = 5 \/ i = 7.
Definition is_center (i : Z) : Prop := i = 4.

Definition adjacent (i j : Z) : Prop :=
  0 <= i < 9 /\ 0 <= j < 9 /\
  Z.abs (i / 3 - j / 3) + Z.abs (i mod 3 - j mod 3) = 1.

(** [l1] is obtained from [l2] by deleting elements (order kept). *)
Fixpoint subsequence (l1 l2 : list string) : bool :=
  match l1, l2 with
  | [], _ => true
  | _ :: _, [] => false
  | x :: t1, y :: t2 =>
      if String.eqb x y then subsequence t1 t2 else subsequence l1 t2
  end.

(** [b'] is [b] with the contents of cells [i] and [j] exchanged and every
    other cell untouched. *)
Definition exchanged (b b' : Board) (i j : nat) : Prop :=
  length b' = length b /\
  get b' i = get b j /\ get b' j = get b i /\
  forall k, k <> i -> k <> j -> get b' k = get b k.

(* ------------------------------------------------------------------ *)
(** ** Arrays as objects in a store

    JavaScript arrays are mutable objects passed by reference.  Where a
    claim is about which arrays a function writes to, the function is also
    given over a store of arrays: an address is a position in the store,
    [alloc] is what an array literal, a spread copy [[...a]] or [slice]
    does, and [write] is an indexed assignment. *)
(* ------------------------------------------------------------------ *)

Module Heap.
Definition t (A : Type) := list (list A).

Definition alloc {A} (h : t A) (arr : list A) : t A * nat :=
  (h ++ [arr], length h).

Definition read {A} (h : t A) (a : nat) : list A := nth a h [].

Fixpoint modify {A} (h : t A) (a : nat) (f : list A -> list A) : t A :=
  match h, a with
  | [], _ => []
  | arr :: rest, O => f arr :: rest
  | arr :: rest, S a' => arr :: modify rest a' f
  end.
End Heap.

(** [nb[i] = v] on the array at address [nb]. *)
Definition write_cell (h : Heap.t Z) (nb i : nat) (v : Z) : Heap.t Z :=
  Heap.modify h nb (set_at i v).

(** The [forEach] callback of [getValidMoves] over the store: the array at
    [boardRef] is only read; [newBoard] is a fresh copy and receives the two
    writes of the swap. *)
Definition validMoves_step_heap (boardRef : nat) (emptyIndex : Z)
    (st : Heap.t Z * list (nat * string)) (d : Z * Z * string)
  : Heap.t Z * list (nat * string) :=
  let '(h, moves) := st in
  let '(dr, dc, name) := d in
  let row := emptyIndex / 3 in
  let col := Z.rem emptyIndex 3 in
  let newRow := row + dr in
  let newCol := col + dc in
  if (newRow >=? 0) && (newRow <? 3) && (newCol >=? 0) && (newCol <? 3) then
    let swapIndex := newRow * 3 + newCol in
    let '(h1, newBoard) := Heap.alloc h (Heap.read h boardRef) in
    let vs := get (Heap.read h1 newBoard) (Z.to_nat swapIndex) in
    let ve := get (Heap.read h1 newBoard) (Z.to_nat emptyIndex) in
    let h2 := write_cell h1 newBoard (Z.to_nat emptyIndex) vs in
    let h3 := write_cell h2 newBoard (Z.to_nat swapIndex) ve in
    (h3, moves ++ [(newBoard, name)])
  else (h, moves).

Definition getValidMoves_heap (h : Heap.t Z) (boardRef : nat)
  : Heap.t Z * list (nat * string) :=
  let emptyIndex := getEmptyIndex (Heap.read h boardRef) in
  fold_left (validMoves_step_heap boardRef emptyIndex) directions (h, []).

(** The value of a result array of [getValidMoves_heap], read back. *)
Definition read_moves (h : Heap.t Z) (rs : list (nat * string)) : list Move.t :=
  map (fun r => Move.mk (Heap.read h (fst r)) (snd r)) rs.

(** The moves of [getValidMoves] tabulated by the cell of the blank: for
    each cell, the cells the blank can be exchanged with and the direction
    name, in the order the loop produces them.  [validMoves_at_table]
    proves the table against the loop. *)
Definition moves_table (e : nat) : list (nat * string) :=
  match e with
  | 0 => [(3, "DOWN"); (1, "RIGHT")]
  | 1 => [(4, "DOWN"); (0, "LEFT"); (2, "RIGHT")]
  | 2 => [(5, "DOWN"); (1, "LEFT")]
  | 3 => [(0, "UP"); (6, "DOWN"); (4, "RIGHT")]
  | 4 => [(1, "UP"); (7, "DOWN"); (3, "LEFT"); (5, "RIGHT")]
  | 5 => [(2, "UP"); (8, "DOWN"); (4, "LEFT")]
  | 6 => [(3, "UP"); (7, "RIGHT")]
  | 7 => [(4, "UP"); (6, "LEFT"); (8, "RIGHT")]
  | 8 => [(5, "UP"); (7, "LEFT")]
  | _ => []
  end%nat%string.

(** The addresses and names [getValidMoves_heap] returns when it starts in
    a store of [n] arrays and produces the moves [ms]. *)
Definition fresh_refs (n : nat) (ms : list Move.t) : list (nat * string) :=
  combine (seq n (length ms)) (map Move.move ms).

(* ================================================================== *)
(** * Sorting *)
(* ================================================================== *)

(** [Array.prototype.sort (cmp)] is a stable sort: [x] goes before [y]
    when [cmp x y <= 0], and elements that compare equal keep their order.
    It is given here as the stable insertion sort. *)
Fixpoint sort_insert {A} (cmp : A -> A -> Z) (x : A) (l : list A) : list A :=
  match l with
  | [] => [x]
  | y :: t => if cmp x y <=? 0 then x :: l else y :: sort_insert cmp x t
  end.

Definition js_sort {A} (cmp : A -> A -> Z) (l : list A) : list A :=
  fold_right (sort_insert cmp) [] l.

(* ================================================================== *)
(** * Genetic solver: individuals and fitness replay *)
(* ================================================================== *)

(** [class Individual]; [finalDistance] starts as [Infinity], which is
    [None] here. *)
Module Individual.
Record t := mk {
  moves : list string;
  fitness : Z;
  path : list Board;
  reachedGoal : bool;
  finalDistance : option Z
}.
End Individual.

(** [constructor (moves)] with the chromosome given: the derived fields get
    their initial values. *)
Definition Individual_new (moves : list string) : Individual.t :=
  Individual.mk moves 0 [] false None.

(** [clone ()]: a new individual over a copy of the chromosome. *)
Definition clone (this : Individual.t) : Individual.t :=
  Individual_new (Individual.moves this).

(** The local variables of [calculateFitness] that its loop updates,
    together with the two fields of [this] it writes in the loop. *)
Module Replay.
Record t := mk {
  currentBoard : Board;
  path : list Board;
  moveCount : Z;
  minDistanceAchieved : Z;
  progressScore : Z;
  reachedGoal : bool
}.
End Replay.

(** [validMoves.find (move => move.move === moveType)] *)
Definition matchingMove (b : Board) (moveType : string) : option Move.t :=
  find (fun m => String.eqb (Move.move m) moveType) (getValidMoves b).

Definition mark_reached (st : Replay.t) : Replay.t :=
  Replay.mk (Replay.currentBoard st) (Replay.path st) (Replay.moveCount st)
            (Replay.minDistanceAchieved st) (Replay.progressScore st) true.

(** The part of the loop body under [if (matchingMove)], up to the goal
    test that follows it. *)
Definition apply_move (st : Replay.t) (m : Move.t) : Replay.t :=
  let currentBoard := Move.board m in
  let path := Replay.path st ++ [currentBoard] in
  let moveCount := Replay.moveCount st + 1 in
  let currentDistance := manhattanDistance currentBoard in
  if currentDistance <? Replay.minDistanceAchieved st then
    Replay.mk currentBoard path moveCount currentDistance
              (Replay.progressScore st + 10) (Replay.reachedGoal st)
  else
    Replay.mk currentBoard path moveCount (Replay.minDistanceAchieved st)
              (Replay.progressScore st) (Replay.reachedGoal st).

(** The loop [for (const moveType of this.moves)] with its two [break]s. *)
Fixpoint replay (genes : list string) (st : Replay.t) : Replay.t :=
  match genes with
  | [] => st
  | moveType :: rest =>
      if isGoalState (Replay.currentBoard st) then mark_reached st
      else
        match matchingMove (Replay.currentBoard st) moveType with
        | Some m =>
            let st' := apply_move st m in
            if isGoalState (Replay.currentBoard st') then mark_reached st'
            else replay rest st'
        | None => replay rest st
        end
  end.

Definition replay_start (this : Individual.t) (initialBoard : Board) : Replay.t :=
  Replay.mk initialBoard [initialBoard] 0 (manhattanDistance initialBoard) 0
            (Individual.reachedGoal this).

(** [calculateFitness (initialBoard)]: the individual after the call. *)
Definition calculateFitness (this : Individual.t) (initialBoard : Board)
  : Individual.t :=
  let st := replay (Individual.moves this) (replay_start this initialBoard) in
  let finalDistance := manhattanDistance (Replay.currentBoard st) in
  let tilesWrong := tilesOutOfPlace (Replay.currentBoard st) in
  let fitness :=
    if Replay.reachedGoal st then 10000 - Replay.moveCount st
    else 1000 - finalDistance * 10 - tilesWrong * 5 - Replay.moveCount st
         + Replay.progressScore st in
  Individual.mk (Individual.moves this) fitness (Replay.path st)
                (Replay.reachedGoal st) (Some finalDistance).

(** The spec's words for a move: the direction names the neighbour cell of
    the blank that is exchanged with the blank (the cell above it for UP,
    below it for DOWN, to its left for LEFT, to its right for RIGHT), and
    the move is valid only if that cell is inside the 3x3 grid.
    [spec_neighbour direction e] is that cell for the blank at cell [e];
    it is [None] for a blocked direction and for a string that names no
    direction. *)
Definition spec_neighbour (direction : string) (e : nat) : option nat :=
  let row := (e / 3)%nat in
  let col := (e mod 3)%nat in
  if String.eqb "UP" direction then
    if (0 <? row)%nat then Some (e - 3)%nat else None
  else if String.eqb "DOWN" direction then
    if (row <? 2)%nat then Some (e + 3)%nat else None
  else if String.eqb "LEFT" direction then
    if (0 <? col)%nat then Some (e - 1)%nat else None
  else if String.eqb "RIGHT" direction then
    if (col <? 2)%nat then Some (e + 1)%nat else None
  else None.

(** The board a direction leads to, if the direction is not blocked. *)
Definition spec_move (direction : string) (b : Board) : option Board :=
  let e := Z.to_nat (getEmptyIndex b) in
  match spec_neighbour direction e with
  | Some s => Some (swap_cells b e s)
  | None => None
  end.

(** The spec's words for the replay: starting from a board, for each gene
    of the chromosome in order, stop if the current board is the goal;
    otherwise a blocked gene is skipped with no effect, and a gene that is
    not blocked is applied and the new board appended to the path.
    [spec_replay genes b] lists the boards appended, in order. *)
Fixpoint spec_replay (genes : list string) (b : Board) : list Board :=
  match genes with
  | [] => []
  | direction :: rest =>
      if isGoalState b then []
      else
        match spec_move direction b with
        | Some b' => b' :: spec_replay rest b'
        | None => spec_replay rest b
        end
  end.

(** The spec's words for the progress score: reading the boards the replay
    visits in order and keeping the smallest Manhattan distance seen so far,
    a bonus of 10 for every board that beats it. *)
Fixpoint bonus_of_distances (minSoFar : Z) (ds : list Z) : Z :=
  match ds with
  | [] => 0
  | d :: rest =>
      if d <? minSoFar then 10 + bonus_of_distances d rest
      else bonus_of_distances minSoFar rest
  end.

Definition progress_bonus (minSoFar : Z) (visited : list Board) : Z :=
  bonus_of_distances minSoFar (map manhattanDistance visited).

Definition running_min (minSoFar : Z) (visited : list Board) : Z :=
  fold_left Z.min (map manhattanDistance visited) minSoFar.

(** A sequence of boards in which every board is one legal move away from
    the board before it. *)
Fixpoint move_chain (p : list Board) : Prop :=
  match p with
  | [] => True
  | b :: rest =>
      match rest with
      | [] => True
      | b' :: _ => legal_move b b' /\ move_chain rest
      end
  end.

(** What the loop of [calculateFitness] maintains, [b0] being the initial
    board: the path starts at [b0], ends at the current board and is a chain
    of legal moves over valid boards, and the three counters are the
    functions of the visited boards that the spec gives. *)
Definition replay_inv (b0 : Board) (st : Replay.t) : Prop :=
  exists visited,
    Replay.path st = b0 :: visited /\
    last (Replay.path st) b0 = Replay.currentBoard st /\
    Forall valid_board (Replay.path st) /\
    move_chain (Replay.path st) /\
    Replay.moveCount st = Z.of_nat (length visited) /\
    Replay.progressScore st = progress_bonus (manhattanDistance b0) visited /\
    Replay.minDistanceAchieved st = running_min (manhattanDistance b0) visited.

(* ================================================================== *)
(** * Genetic solver: random draws, operators and the generational loop *)
(* ================================================================== *)

(** [interface GeneticConfig] *)
Record GeneticConfig := mkConfig {
  populationSize : nat;
  maxGenerations : nat;
  mutationRate : Q;
  crossoverRate : Q;
  elitismCount : nat
}.

(** How a computation of the solver ends: with a value and the number of
    random draws made so far, with a [TypeError] (a property read on
    [undefined]), or by exhausting the fuel of a loop of the embedding. *)
Inductive Outcome (A : Type) : Type :=
| Ok (a : A) (next : nat)
| TypeError
| OutOfFuel.
Arguments Ok {A} a next.
Arguments TypeError {A}.
Arguments OutOfFuel {A}.

(** A computation that reads the oracle [rnd] of [Math.random ()] from
    draw number [n] on. *)
Definition Rand (A : Type) : Type := (nat -> Q) -> nat -> Outcome A.

Definition ret {A} (a : A) : Rand A := fun _ n => Ok a n.

Definition bind {A B} (c : Rand A) (k : A -> Rand B) : Rand B :=
  fun rnd n =>
    match c rnd n with
    | Ok a n' => k a rnd n'
    | TypeError => TypeError
    | OutOfFuel => OutOfFuel
    end.

Definition throw {A} : Rand A := fun _ _ => TypeError.
Definition out_of_fuel {A} : Rand A := fun _ _ => OutOfFuel.

Notation "x <- c ;; k" := (bind c (fun x => k))
  (at level 61, c at next level, right associativity).

(** [Math.random ()] *)
Definition random : Rand Q := fun rnd n => Ok (rnd n) (S n).

(** The contract of [Math.random]: every draw is in [0, 1). *)
Definition rnd_ok (rnd : nat -> Q) : Prop :=
  forall n, (0 <= rnd n)%Q /\ (rnd n < 1)%Q.

(** [Math.floor (Math.random () * len)], the product being the exact
    product of the draw and the length.  The engine rounds the product to
    binary64 before [Math.floor], which for some draws gives the next
    integer; [selectParent_by] below leaves the index computation open and
    [index_binary64] is the rounded one. *)
Definition random_index (len : nat) : Rand Z :=
  r <- random ;; ret (Qfloor (r * inject_Z (Z.of_nat len))).

(** [arr[i]] for a numeric index: [undefined] outside the array. *)
Definition read_at {A} (arr : list A) (i : Z) : option A :=
  if i <? 0 then None else nth_error arr (Z.to_nat i).

Definition Qlt_bool (x y : Q) : bool := negb (Qle_bool y x).

Definition moveTypes : list string := ["UP"; "DOWN"; "LEFT"; "RIGHT"]%string.

(** [moveTypes[i]]; an [undefined] gene is the empty string, which like
    [undefined] is the name of no move. *)
Definition gene_at (i : Z) : string :=
  match read_at moveTypes i with
  | Some g => g
  | None => EmptyString
  end.

(** The loop of [generateRandomMoves], [n] iterations to go. *)
Fixpoint generateRandomMoves_loop (n : nat) (moves : list string)
  : Rand (list string) :=
  match n with
  | O => ret moves
  | S n' =>
      i <- random_index (length moveTypes) ;;
      generateRandomMoves_loop n' (moves ++ [gene_at i])
  end.

Definition maxMoves : nat := 50.

Definition generateRandomMoves : Rand (list string) :=
  generateRandomMoves_loop maxMoves [].

(** [new Individual ()] *)
Definition Individual_random : Rand Individual.t :=
  moves <- generateRandomMoves ;; ret (Individual_new moves).

(** [arr.slice (0, end)] and [arr.slice (start)]; a negative bound counts
    from the end of the array. *)
Definition slice_bound {A} (arr : list A) (k : Z) : nat :=
  if k <? 0 then Z.to_nat (Z.max 0 (Z.of_nat (length arr) + k)) else Z.to_nat k.

Definition slice_to {A} (arr : list A) (e : Z) : list A :=
  firstn (slice_bound arr e) arr.

Definition slice_from {A} (arr : list A) (s : Z) : list A :=
  skipn (slice_bound arr s) arr.

(** The chromosome [crossover] builds for a given crossover point. *)
Definition crossover_moves (this other : Individual.t) (crossoverPoint : Z)
  : list string :=
  slice_to (Individual.moves this) crossoverPoint
  ++ slice_from (Individual.moves other) crossoverPoint.

(** [crossover (other)] *)
Definition crossover (this other : Individual.t) : Rand Individual.t :=
  crossoverPoint <-
    random_index (Nat.min (length (Individual.moves this))
                          (length (Individual.moves other))) ;;
  ret (Individual_new (crossover_moves this other crossoverPoint)).

(** [crossover] over the store of arrays, the parents being given by the
    addresses of their chromosomes: the two [slice]s and the array literal
    allocate, nothing is written to an existing array. *)
Definition crossover_heap (h : Heap.t string) (thisMoves otherMoves : nat)
  : Rand (Heap.t string * nat) :=
  crossoverPoint <-
    random_index (Nat.min (length (Heap.read h thisMoves))
                          (length (Heap.read h otherMoves))) ;;
  let '(h1, prefix) := Heap.alloc h (slice_to (Heap.read h thisMoves) crossoverPoint) in
  let '(h2, suffix) := Heap.alloc h1 (slice_from (Heap.read h1 otherMoves) crossoverPoint) in
  let '(h3, newMoves) := Heap.alloc h2 (Heap.read h2 prefix ++ Heap.read h2 suffix) in
  ret (h3, newMoves).

Definition with_moves (this : Individual.t) (moves : list string) : Individual.t :=
  Individual.mk moves (Individual.fitness this) (Individual.path this)
                (Individual.reachedGoal this) (Individual.finalDistance this).

(** The loop of [mutate]: [n] iterations to go, at index [i]. *)
Fixpoint mutate_loop (n i : nat) (moves : list string) (mutationRate : Q)
  : Rand (list string) :=
  match n with
  | O => ret moves
  | S n' =>
      r <- random ;;
      if Qlt_bool r mutationRate then
        j <- random_index (length moveTypes) ;;
        mutate_loop n' (S i) (set_at i (gene_at j) moves) mutationRate
      else mutate_loop n' (S i) moves mutationRate
  end.

(** [mutate (mutationRate)]: the individual after the call. *)
Definition mutate (this : Individual.t) (mutationRate : Q) : Rand Individual.t :=
  moves <- mutate_loop (length (Individual.moves this)) 0 (Individual.moves this)
                       mutationRate ;;
  ret (with_moves this moves).

(** The loop of [selectParent], [n] iterations to go.  [best] and the
    competitor are [undefined] when the index read is outside the
    population, and reading [.fitness] of [undefined] throws. *)
Fixpoint tournament_loop (n : nat) (population : list Individual.t)
    (best : option Individual.t) : Rand (option Individual.t) :=
  match n with
  | O => ret best
  | S n' =>
      i <- random_index (length population) ;;
      match read_at population i, best with
      | Some competitor, Some b =>
          if Individual.fitness competitor >? Individual.fitness b
          then tournament_loop n' population (Some competitor)
          else tournament_loop n' population (Some b)
      | _, _ => throw
      end
  end.

(** [selectParent (population, tournamentSize)] *)
Definition selectParent (population : list Individual.t) (tournamentSize : nat)
  : Rand (option Individual.t) :=
  i <- random_index (length population) ;;
  tournament_loop (tournamentSize - 1) population (read_at population i).

(** [selectParent] with the number
    [Math.floor (Math.random () * population.length)] given by [index] from
    the draw and the length.  [random_index] takes the product as the
    exact product of the two numbers, which is [index_exact]; the engine
    rounds the product to binary64 before [Math.floor], which is
    [index_binary64]. *)
Definition random_index_by (index : Q -> nat -> Z) (len : nat) : Rand Z :=
  r <- random ;; ret (index r len).

Fixpoint tournament_loop_by (index : Q -> nat -> Z) (n : nat)
    (population : list Individual.t) (best : option Individual.t)
  : Rand (option Individual.t) :=
  match n with
  | O => ret best
  | S n' =>
      i <- random_index_by index (length population) ;;
      match read_at population i, best with
      | Some competitor, Some b =>
          if Individual.fitness competitor >? Individual.fitness b
          then tournament_loop_by index n' population (Some competitor)
          else tournament_loop_by index n' population (Some b)
      | _, _ => throw
      end
  end.

Definition selectParent_by (index : Q -> nat -> Z)
    (population : list Individual.t) (tournamentSize : nat)
  : Rand (option Individual.t) :=
  i <- random_index_by index (length population) ;;
  tournament_loop_by index (tournamentSize - 1) population (read_at population i).

Definition index_exact (r : Q) (len : nat) : Z :=
  Qfloor (r * inject_Z (Z.of_nat len)).

(** Binary64 numbers.  [float_of_Z] is the double nearest to an integer
    and [float_of_Q] the quotient of the doubles of numerator and
    denominator: for the value of a double in [0, 1) written with a
    numerator below 2^53 over a power of two it is that double.
    [floor_of_float] is [Math.floor] on a finite double; it is -1, the
    index of no element, on [NaN] and the infinities. *)
Definition float_of_Z (z : Z) : PrimFloat.float :=
  FloatOps.SF2Prim
    (SpecFloat.binary_normalize FloatOps.prec FloatOps.emax z 0 false).

Definition float_of_Q (q : Q) : PrimFloat.float :=
  PrimFloat.div (float_of_Z (Qnum q)) (float_of_Z (Zpos (Qden q))).

Definition floor_of_float (x : PrimFloat.float) : Z :=
  match FloatOps.Prim2SF x with
  | SpecFloat.S754_zero _ => 0
  | SpecFloat.S754_finite s m e =>
      let z := if s then Zneg m else Zpos m in
      if 0 <=? e then z * 2 ^ e else z / 2 ^ (- e)
  | _ => -1
  end.

(** [Math.floor (r * len)] with the product rounded to binary64. *)
Definition index_binary64 (r : Q) (len : nat) : Z :=
  floor_of_float (PrimFloat.mul (float_of_Q r) (float_of_Z (Z.of_nat len))).

(** A population of 200 evaluated individuals of which number 22 has
    fitness 7, number 23 fitness 3 and the others fitness 0, and three
    draws: the double 0.11499999999999999, for which the product with 200
    is 23 in binary64 and below 23 exactly, then 0.5 and 0. *)
Definition tournament_sample : list Individual.t :=
  map (fun i => Individual.mk [] (if (i =? 22)%nat then 7
                                  else if (i =? 23)%nat then 3 else 0)
                              [] false (Some 0))
      (seq 0 200).

Definition tournament_draws (n : nat) : Q :=
  match n with
  | 0%nat => 8286623314361712 # 72057594037927936
  | 1%nat => 1 # 2
  | _ => 0
  end.

(** [Array.from ({ length: n }, () => new Individual ())] *)
Fixpoint initial_population (n : nat) : Rand (list Individual.t) :=
  match n with
  | O => ret []
  | S n' =>
      ind <- Individual_random ;;
      rest <- initial_population n' ;;
      ret (ind :: rest)
  end.

(** The elitism loop
    [for (let i = 0; i < config.elitismCount && i < population.length; i++)];
    it cannot run more than [elitismCount] times, which is its fuel. *)
Fixpoint elites_loop (fuel : nat) (config : GeneticConfig)
    (population newPopulation : list Individual.t) (i : nat)
  : list Individual.t :=
  match fuel with
  | O => newPopulation
  | S fuel' =>
      if (i <? elitismCount config)%nat && (i <? length population)%nat then
        match nth_error population i with
        | Some ind =>
            elites_loop fuel' config population (newPopulation ++ [clone ind]) (S i)
        | None => newPopulation
        end
      else newPopulation
  end.

Definition tournamentSize : nat := 5.

(** One offspring: two tournaments, crossover or clone, mutation. *)
Definition make_offspring (config : GeneticConfig) (population : list Individual.t)
  : Rand Individual.t :=
  parent1 <- selectParent population tournamentSize ;;
  parent2 <- selectParent population tournamentSize ;;
  match parent1, parent2 with
  | Some p1, Some p2 =>
      r <- random ;;
      offspring <- (if Qlt_bool r (crossoverRate config)
                    then crossover p1 p2 else ret (clone p1)) ;;
      mutate offspring (mutationRate config)
  | _, _ => throw
  end.

(** [while (newPopulation.length < config.populationSize)] *)
Fixpoint offspring_loop (fuel : nat) (config : GeneticConfig)
    (population newPopulation : list Individual.t) : Rand (list Individual.t) :=
  if (length newPopulation <? populationSize config)%nat then
    match fuel with
    | O => out_of_fuel
    | S fuel' =>
        offspring <- make_offspring config population ;;
        offspring_loop fuel' config population (newPopulation ++ [offspring])
    end
  else ret newPopulation.

(** How one generation ends: [return currentBest], or with the next
    population and the best individual seen so far. *)
Inductive GenOutcome : Type :=
| Finished (currentBest : Individual.t)
| NextGen (population : list Individual.t) (bestOverall : option Individual.t).

(** The comparator of [population.sort]: descending fitness. *)
Definition by_fitness_desc (a b : Individual.t) : Z :=
  Individual.fitness b - Individual.fitness a.

(** The Reproduce step: elites first, then offspring until the new
    population has [populationSize] members. *)
Definition reproduce (config : GeneticConfig) (population : list Individual.t)
  : Rand (list Individual.t) :=
  let elites := elites_loop (elitismCount config) config population [] 0 in
  offspring_loop (populationSize config - length elites) config population elites.

(** The body of the generation loop ([onProgress] not given). *)
Definition generation_body (config : GeneticConfig) (initialBoard : Board)
    (population : list Individual.t) (bestOverall : option Individual.t)
  : Rand GenOutcome :=
  let evaluated := map (fun ind => calculateFitness ind initialBoard) population in
  let sorted := js_sort by_fitness_desc evaluated in
  match sorted with
  | [] => throw
  | currentBest :: _ =>
      let bestOverall' :=
        match bestOverall with
        | None => calculateFitness (clone currentBest) initialBoard
        | Some best =>
            if Individual.fitness currentBest >? Individual.fitness best
            then calculateFitness (clone currentBest) initialBoard
            else best
        end in
      if Individual.reachedGoal currentBest then ret (Finished currentBest)
      else
        newPopulation <- reproduce config sorted ;;
        ret (NextGen newPopulation (Some bestOverall'))
  end.

(** [for (let generation = 0; generation < config.maxGenerations;
    generation++)]; the loop cannot run more than [maxGenerations] times,
    which is its fuel. *)
Fixpoint generations_loop (fuel : nat) (config : GeneticConfig)
    (initialBoard : Board) (generation : nat)
    (population : list Individual.t) (bestOverall : option Individual.t)
  : Rand (option Individual.t) :=
  if (generation <? maxGenerations config)%nat then
    match fuel with
    | O => out_of_fuel
    | S fuel' =>
        out <- generation_body config initialBoard population bestOverall ;;
        match out with
        | Finished currentBest => ret (Some currentBest)
        | NextGen newPopulation bestOverall' =>
            generations_loop fuel' config initialBoard (S generation)
                             newPopulation bestOverall'
        end
    end
  else ret bestOverall.

(** [solvePuzzleGenetic (initialBoard, config)]; [None] is [null]. *)
Definition solvePuzzleGenetic (initialBoard : Board) (config : GeneticConfig)
  : Rand (option Individual.t) :=
  population <- initial_population (populationSize config) ;;
  generations_loop (maxGenerations config) config initialBoard 0 population None.

(** The populations the generation loop of [solvePuzzleGenetic] works on:
    the initial one, and every one the Reproduce step builds from a
    population of the run whose best individual has not reached the goal. *)
Inductive run_population (rnd : nat -> Q) (config : GeneticConfig)
    (initialBoard : Board) : list Individual.t -> Prop :=
| run_initial population n n' :
    initial_population (populationSize config) rnd n = Ok population n' ->
    run_population rnd config initialBoard population
| run_next population bestOverall newPopulation bestOverall' n n' :
    run_population rnd config initialBoard population ->
    generation_body config initialBoard population bestOverall rnd n
      = Ok (NextGen newPopulation bestOverall') n' ->
    run_population rnd config initialBoard newPopulation.

(** A configuration with a population but no generation to run, and a
    constant oracle. *)
Definition config_no_generation : GeneticConfig :=
  mkConfig 1 0 (1 # 10) (8 # 10) 0.

Definition rnd_zero : nat -> Q := fun _ => 0%Q.

(** The chromosomes the solver works on: [maxMoves] genes, each a direction
    name; and an individual as a population holds it before it is
    evaluated: such a chromosome, and the goal flag not set. *)
Definition chromosome_ok (moves : list string) : Prop :=
  length moves = maxMoves /\ Forall (fun g => In g moveTypes) moves.

Definition fresh_individual (ind : Individual.t) : Prop :=
  chromosome_ok (Individual.moves ind) /\ Individual.reachedGoal ind = false.

(** An individual that is the evaluation of a fresh one on [initialBoard]. *)
Definition evaluated_on (initialBoard : Board) (ind : Individual.t) : Prop :=
  exists x, fresh_individual x /\ ind = calculateFitness x initialBoard.

(* ================================================================== *)
(** * The game component: shuffling *)
(* ================================================================== *)

(** [newBoard.splice (0, 9, ...items)]: the first nine cells of the array
    are replaced by [items]. *)
Definition splice_0_9 (arr items : Board) : Board := items ++ skipn 9 arr.

(** The loop of [shuffleBoard], [n] iterations to go; [randomMove] is
    [undefined] when the index read is outside [validMoves], and reading
    its [.board] throws. *)
Fixpoint shuffle_loop (n : nat) (newBoard : Board) : Rand Board :=
  match n with
  | O => ret newBoard
  | S n' =>
      let validMoves := getValidMoves newBoard in
      if (0 <? length validMoves)%nat then
        i <- random_index (length validMoves) ;;
        match read_at validMoves i with
        | Some randomMove =>
            shuffle_loop n' (splice_0_9 newBoard (Move.board randomMove))
        | None => throw
        end
      else shuffle_loop n' newBoard
  end.

(** [shuffleBoard]: the board it passes to [setBoard]. *)
Definition shuffleBoard : Rand Board := shuffle_loop 100 GOAL_STATE.

(* ================================================================== *)
(** * A* search *)
(* ================================================================== *)

(** [interface PuzzleState] *)
Module PuzzleState.
Record t := mk {
  board : Board;
  moves : Z;
  heuristic : Z;
  path : list Board
}.
End PuzzleState.

(** [Number.prototype.toString] of an integer, and
    [Array.prototype.toString] of a board: the cells in decimal, joined by
    commas. *)
Definition number_toString (v : Z) : string :=
  NilZero.string_of_int (Z.to_int v).

Definition toString (b : Board) : string :=
  String.concat "," (map number_toString b).

(** [Set<string>]: the keys in insertion order, without repetition. *)
Definition set_has (s : list string) (k : string) : bool :=
  existsb (String.eqb k) s.

Definition set_add (s : list string) (k : string) : list string :=
  if set_has s k then s else s ++ [k].

(** The hard cap on the size of the closed set. *)
Definition closed_cap : Z := 100000.

(** The comparator of [openSet.sort]: ascending [moves + heuristic]. *)
Definition by_cost (a b : PuzzleState.t) : Z :=
  (PuzzleState.moves a + PuzzleState.heuristic a)
  - (PuzzleState.moves b + PuzzleState.heuristic b).

(** The node pushed for a move from [current]. *)
Definition child_node (current : PuzzleState.t) (moveBoard : Board)
  : PuzzleState.t :=
  PuzzleState.mk moveBoard (PuzzleState.moves current + 1)
                 (manhattanDistance moveBoard)
                 (PuzzleState.path current ++ [moveBoard]).

(** One iteration of [for (const { board: moveBoard } of validMoves)]. *)
Definition expand_step (closedSet : list string) (current : PuzzleState.t)
    (openSet : list PuzzleState.t) (m : Move.t) : list PuzzleState.t :=
  let moveBoard := Move.board m in
  let moveStr := toString moveBoard in
  if negb (set_has closedSet moveStr)
  then openSet ++ [child_node current moveBoard]
  else openSet.

Definition expand (closedSet : list string) (current : PuzzleState.t)
    (openSet : list PuzzleState.t) : list PuzzleState.t :=
  fold_left (expand_step closedSet current)
            (getValidMoves (PuzzleState.board current)) openSet.

(** How a run of the search ends: it returns a sequence of boards, it
    throws (a property read on [undefined]), or the embedding runs out of
    fuel. *)
Inductive SearchOutcome : Type :=
| Returned (path : list Board)
| Threw
| FuelExhausted.

(** The loop [while (openSet.length > 0)]. *)
Fixpoint astar_loop (fuel : nat) (openSet : list PuzzleState.t)
    (closedSet : list string) : SearchOutcome :=
  match fuel with
  | O => FuelExhausted
  | S fuel' =>
      if (0 <? length openSet)%nat then
        match js_sort by_cost openSet with
        | [] => Threw
        | current :: rest =>
            if isGoalState (PuzzleState.board current)
            then Returned (PuzzleState.path current)
            else
              let boardStr := toString (PuzzleState.board current) in
              if set_has closedSet boardStr then astar_loop fuel' rest closedSet
              else
                let closedSet' := set_add closedSet boardStr in
                let openSet' := expand closedSet' current rest in
                if closed_cap <? Z.of_nat (length closedSet')
                then Returned []
                else astar_loop fuel' openSet' closedSet'
        end
      else Returned []
  end.

Definition start_node (initialBoard : Board) : PuzzleState.t :=
  PuzzleState.mk initialBoard 0 (manhattanDistance initialBoard) [initialBoard].

Definition solveAStar_fuel (fuel : nat) (initialBoard : Board) : SearchOutcome :=
  astar_loop fuel [start_node initialBoard] [].

(** Iterations the loop can make at most: every iteration removes a node,
    nodes are pushed (four at most) only when a board is closed, and the
    loop is left as soon as the closed set outgrows the cap. *)
Definition astar_fuel : nat := Z.to_nat (4 * (closed_cap + 1) + 2).

(** [solveAStar] *)
Definition solveAStar (initialBoard : Board) : SearchOutcome :=
  solveAStar_fuel astar_fuel initialBoard.

(** The iterations still possible from a state of the loop. *)
Definition astar_measure (openSet : list PuzzleState.t) (closedSet : list string)
  : Z :=
  4 * (closed_cap + 1 - Z.of_nat (length closedSet)) + Z.of_nat (length openSet).

(** The Manhattan distance of tile [v] standing in cell [i] to its goal
    cell; the blank costs nothing. *)
Definition cell_cost (i : nat) (v : Z) : Z :=
  if v =? 0 then 0
  else Z.abs ((v - 1) / 3 - Z.of_nat i / 3)
       + Z.abs (Z.rem (v - 1) 3 - Z.rem (Z.of_nat i) 3).

(** The cost [moves + heuristic] the open set is sorted by. *)
Definition cost (n : PuzzleState.t) : Z :=
  PuzzleState.moves n + PuzzleState.heuristic n.

(** [w] is a walk from [a] to [b]: a chain of legal moves starting with
    [a] and ending with [b]; it makes [walk_moves w] moves. *)
Definition is_walk (a b : Board) (w : list Board) : Prop :=
  hd_error w = Some a /\ last w a = b /\ move_chain w.

Definition walk_moves (w : list Board) : Z := Z.of_nat (length w) - 1.

(** A node of the open set is sound when its path is a walk from the start
    to its board, its move count is the length of that walk and its
    heuristic is the Manhattan distance of its board. *)
Definition node_sound (start : Board) (n : PuzzleState.t) : Prop :=
  is_walk start (PuzzleState.board n) (PuzzleState.path n) /\
  PuzzleState.moves n = walk_moves (PuzzleState.path n) /\
  PuzzleState.heuristic n = manhattanDistance (PuzzleState.board n) /\
  valid_board (PuzzleState.board n).

(** What is known of a closed board [c]: it was closed at a move count [g]
    that no walk from the start beats, its cost [g + h] is at most the
    length of any walk to the goal, and each of its successors that is not
    closed has a node at [g + 1] moves or fewer in the open set. *)
Definition closed_ok (start : Board) (openSet : list PuzzleState.t)
    (cb : list Board) (c : Board) : Prop :=
  exists g,
    (exists w, is_walk start c w /\ walk_moves w = g) /\
    (forall w, is_walk start c w -> g <= walk_moves w) /\
    (forall wg, is_walk start GOAL_STATE wg ->
                g + manhattanDistance c <= walk_moves wg) /\
    (forall t, legal_move c t -> ~ In t cb ->
       exists n, In n openSet /\ PuzzleState.board n = t /\
                 PuzzleState.moves n <= g + 1).

(** The invariant of the search loop; [cb] are the boards whose keys the
    closed set holds. *)
Definition astar_inv (start : Board) (openSet : list PuzzleState.t)
    (closedSet : list string) : Prop :=
  exists cb : list Board,
    closedSet = map toString cb /\
    NoDup cb /\
    Forall valid_board cb /\
    ~ In GOAL_STATE cb /\
    Forall (node_sound start) openSet /\
    (~ In start cb ->
     exists n, In n openSet /\ PuzzleState.board n = start /\
               PuzzleState.moves n = 0) /\
    (forall c, In c cb -> closed_ok start openSet cb c).

(** The boards the search can close before it selects the goal are few
    enough for the cap: any repetition-free list of valid boards [c], each
    reached from the start by a walk of [g] moves with [g + h c] at most the
    length of every walk to the goal, has at most [closed_cap] members. *)
Definition closed_bound (start : Board) : Prop :=
  forall cb : list Board,
    NoDup cb ->
    (forall c, In c cb ->
       valid_board c /\
       exists w, is_walk start c w /\
                 forall wg, is_walk start GOAL_STATE wg ->
                            walk_moves w + manhattanDistance c <= walk_moves wg) ->
    Z.of_nat (length cb) <= closed_cap.

(** The digit of a cell value, as [toString] prints it. *)
Definition digit_char (v : Z) : ascii :=
  match v with
  | 0 => "0" | 1 => "1" | 2 => "2" | 3 => "3" | 4 => "4"
  | 5 => "5" | 6 => "6" | 7 => "7" | _ => "8"
  end%char.

(* ================================================================== *)
(** * The state graph of the puzzle, computed

    The cap of [solveAStar] is on the number of closed boards, so that the
    search finds the goal from every solvable board is a fact about the
    size of the state graph.  The graph is explored here once and for all:
    a breadth-first search from a root board for each kind of cell the
    blank can be in (a corner, the middle of a side, the centre) gives a
    table of depths, and each table is then checked, board by board over
    all arrangements of the nine cell values, for the properties the proofs
    use.  Nothing is assumed of the search that fills the tables. *)
(* ================================================================== *)

(** The cell of the blank, and the successors of a board read off
    [moves_table]; on valid boards these are the boards of
    [getValidMoves] ([successors_fast]). *)
Fixpoint blank_pos (b : Board) : nat :=
  match b with
  | [] => O
  | v :: t => if v =? 0 then O else S (blank_pos t)
  end.

Definition succ_fast (b : Board) : list Board :=
  let e := blank_pos b in
  map (fun sn => swap_cells b e (fst sn)) (moves_table e).

(** Boards as the tables hold them: nine cells, each one of nine values. *)
Inductive tile : Set := T0 | T1 | T2 | T3 | T4 | T5 | T6 | T7 | T8.

Inductive brd : Set := Brd (c0 c1 c2 c3 c4 c5 c6 c7 c8 : tile).

Definition tile_of (v : Z) : tile :=
  match v with
  | 0 => T0 | 1 => T1 | 2 => T2 | 3 => T3 | 4 => T4
  | 5 => T5 | 6 => T6 | 7 => T7 | _ => T8
  end.

Definition brd_of (b : Board) : brd :=
  match b with
  | [c0; c1; c2; c3; c4; c5; c6; c7; c8] =>
      Brd (tile_of c0) (tile_of c1) (tile_of c2) (tile_of c3) (tile_of c4)
          (tile_of c5) (tile_of c6) (tile_of c7) (tile_of c8)
  | _ => Brd T0 T0 T0 T0 T0 T0 T0 T0 T0
  end.

Definition is_blank (t : tile) : bool :=
  match t with T0 => true | _ => false end.

(** The successors of a board, by the cell of its blank
    ([succs_brd_of]). *)
Definition succs (x : brd) : list brd :=
  match x with
  | Brd c0 c1 c2 c3 c4 c5 c6 c7 c8 =>
      if is_blank c0
      then [Brd c3 c1 c2 T0 c4 c5 c6 c7 c8;
           Brd c1 T0 c2 c3 c4 c5 c6 c7 c8]
      else
      if is_blank c1
      then [Brd c0 c4 c2 c3 T0 c5 c6 c7 c8;
           Brd T0 c0 c2 c3 c4 c5 c6 c7 c8;
           Brd c0 c2 T0 c3 c4 c5 c6 c7 c8]
      else
      if is_blank c2
      then [Brd c0 c1 c5 c3 c4 T0 c6 c7 c8;
           Brd c0 T0 c1 c3 c4 c5 c6 c7 c8]
      else
      if is_blank c3
      then [Brd T0 c1 c2 c0 c4 c5 c6 c7 c8;
           Brd c0 c1 c2 c6 c4 c5 T0 c7 c8;
           Brd c0 c1 c2 c4 T0 c5 c6 c7 c8]
      else
      if is_blank c4
      then [Brd c0 T0 c2 c3 c1 c5 c6 c7 c8;
           Brd c0 c1 c2 c3 c7 c5 c6 T0 c8;
           Brd c0 c1 c2 T0 c3 c5 c6 c7 c8;
           Brd c0 c1 c2 c3 c5 T0 c6 c7 c8]
      else
      if is_blank c5
      then [Brd c0 c1 T0 c3 c4 c2 c6 c7 c8;
           Brd c0 c1 c2 c3 c4 c8 c6 c7 T0;
           Brd c0 c1 c2 c3 T0 c4 c6 c7 c8]
      else
      if is_blank c6
      then [Brd c0 c1 c2 T0 c4 c5 c3 c7 c8;
           Brd c0 c1 c2 c3 c4 c5 c7 T0 c8]
      else
      if is_blank c7
      then [Brd c0 c1 c2 c3 T0 c5 c6 c4 c8;
           Brd c0 c1 c2 c3 c4 c5 T0 c6 c8;
           Brd c0 c1 c2 c3 c4 c5 c6 c8 T0]
      else
      [Brd c0 c1 c2 c3 c4 T0 c6 c7 c5;
           Brd c0 c1 c2 c3 c4 c5 c6 T0 c7]
  end.

Definition tile_eqb (a b : tile) : bool :=
  match a, b with
  | T0, T0 | T1, T1 | T2, T2 | T3, T3 | T4, T4
  | T5, T5 | T6, T6 | T7, T7 | T8, T8 => true
  | _, _ => false
  end.

Definition brd_eqb (x y : brd) : bool :=
  match x, y with
  | Brd a0 a1 a2 a3 a4 a5 a6 a7 a8, Brd b0 b1 b2 b3 b4 b5 b6 b7 b8 =>
      tile_eqb a0 b0 && (tile_eqb a1 b1 && (tile_eqb a2 b2 &&
      (tile_eqb a3 b3 && (tile_eqb a4 b4 && (tile_eqb a5 b5 &&
      (tile_eqb a6 b6 && (tile_eqb a7 b7 && tile_eqb a8 b8)))))))
  end.

(** The Manhattan distance of a tile to its goal cell, cell by cell
    ([manhattan_brd_of]). *)
Definition tile_cost0 (t : tile) : nat :=
  match t with
  | T0 => 0 | T1 => 0 | T2 => 1 | T3 => 2 | T4 => 1 | T5 => 2 | T6 => 3 | T7 => 2 | T8 => 3
  end%nat.

Definition tile_cost1 (t : tile) : nat :=
  match t with
  | T0 => 0 | T1 => 1 | T2 => 0 | T3 => 1 | T4 => 2 | T5 => 1 | T6 => 2 | T7 => 3 | T8 => 2
  end%nat.

Definition tile_cost2 (t : tile) : nat :=
  match t with
  | T0 => 0 | T1 => 2 | T2 => 1 | T3 => 0 | T4 => 3 | T5 => 2 | T6 => 1 | T7 => 4 | T8 => 3
  end%nat.

Definition tile_cost3 (t : tile) : nat :=
  match t with
  | T0 => 0 | T1 => 1 | T2 => 2 | T3 => 3 | T4 => 0 | T5 => 1 | T6 => 2 | T7 => 1 | T8 => 2
  end%nat.

Definition tile_cost4 (t : tile) : nat :=
  match t with
  | T0 => 0 | T1 => 2 | T2 => 1 | T3 => 2 | T4 => 1 | T5 => 0 | T6 => 1 | T7 => 2 | T8 => 1
  end%nat.

Definition tile_cost5 (t : tile) : nat :=
  match t with
  | T0 => 0 | T1 => 3 | T2 => 2 | T3 => 1 | T4 => 2 | T5 => 1 | T6 => 0 | T7 => 3 | T8 => 2
  end%nat.

Definition tile_cost6 (t : tile) : nat :=
  match t with
  | T0 => 0 | T1 => 2 | T2 => 3 | T3 => 4 | T4 => 1 | T5 => 2 | T6 => 3 | T7 => 0 | T8 => 1
  end%nat.

Definition tile_cost7 (t : tile) : nat :=
  match t with
  | T0 => 0 | T1 => 3 | T2 => 2 | T3 => 3 | T4 => 2 | T5 => 1 | T6 => 2 | T7 => 1 | T8 => 0
  end%nat.

Definition tile_cost8 (t : tile) : nat :=
  match t with
  | T0 => 0 | T1 => 4 | T2 => 3 | T3 => 2 | T4 => 3 | T5 => 2 | T6 => 1 | T7 => 2 | T8 => 1
  end%nat.

Definition manhattan_brd (x : brd) : nat :=
  match x with
  | Brd c0 c1 c2 c3 c4 c5 c6 c7 c8 =>
      (tile_cost0 c0 + (tile_cost1 c1 + (tile_cost2 c2 + (tile_cost3 c3 +
      (tile_cost4 c4 + (tile_cost5 c5 + (tile_cost6 c6 + (tile_cost7 c7 +
       tile_cost8 c8))))))))%nat
  end.

(** Tables of depths: an array with a slot for every arrangement, each
    slot empty or holding a board and its depth. *)
Module Table.
Import Uint63 PArray.

Definition t : Type := array (option (brd * nat)).

Definition tile_int (c : tile) : int :=
  match c with
  | T0 => 0 | T1 => 1 | T2 => 2 | T3 => 3 | T4 => 4
  | T5 => 5 | T6 => 6 | T7 => 7 | T8 => 8
  end%uint63.

Definition lt_bit (a b : int) : int :=
  if (a <? b)%uint63 then 1%uint63 else 0%uint63.

(** The slot of a board: its first six cells as digits in base 9, then
    the rank of the seventh among the last three and the order of the last
    two. *)
Definition slot (x : brd) : int :=
  match x with
  | Brd c0 c1 c2 c3 c4 c5 c6 c7 c8 =>
      let i6 := tile_int c6 in
      let i7 := tile_int c7 in
      let i8 := tile_int c8 in
      (((((((tile_int c0 * 9 + tile_int c1) * 9 + tile_int c2) * 9
           + tile_int c3) * 9 + tile_int c4) * 9 + tile_int c5) * 3
        + lt_bit i7 i6 + lt_bit i8 i6) * 2 + lt_bit i7 i8)%uint63
  end.

Definition size : int := 3188646%uint63.

Definition empty : t := make size None.

Definition lookup (tab : t) (x : brd) : option nat :=
  match get tab (slot x) with
  | Some (y, d) => if brd_eqb y x then Some d else None
  | None => None
  end.

Definition add (tab : t) (x : brd) (d : nat) : t :=
  set tab (slot x) (Some (x, d)).

Definition vacant (tab : t) (x : brd) : bool :=
  match get tab (slot x) with
  | Some _ => false
  | None => true
  end.

End Table.

(** Breadth-first search, level by level. *)
Definition visit (d : nat) (acc : list brd * Table.t) (y : brd)
  : list brd * Table.t :=
  let '(nx, tab) := acc in
  if Table.vacant tab y then (y :: nx, Table.add tab y d) else acc.

Definition bfs_level (d : nat) (frontier : list brd) (tab : Table.t)
  : list brd * Table.t :=
  fold_left (fun acc x => fold_left (visit d) (succs x) acc) frontier ([], tab).

Fixpoint bfs (fuel : nat) (d : nat) (frontier : list brd) (tab : Table.t)
  : Table.t :=
  match fuel with
  | O => tab
  | S f =>
      match frontier with
      | [] => tab
      | _ => let '(nx, tab') := bfs_level (S d) frontier tab in bfs f (S d) nx tab'
      end
  end.

Definition depth_table (root : brd) : Table.t :=
  bfs 40 0 [root] (Table.add Table.empty root O).

(** The root with the blank in cell [p]: the tiles in order around it.
    [canon 8] is the goal state. *)
Definition tiles : Board := [1; 2; 3; 4; 5; 6; 7; 8].
Definition canon (p : nat) : Board := firstn p tiles ++ 0 :: skipn p tiles.

Definition table_of (p : nat) : Table.t := depth_table (brd_of (canon p)).

(** The depth of a board in the table of cell [p], if it is there. *)
Definition depth (p : nat) (b : Board) : option nat :=
  Table.lookup (table_of p) (brd_of b).

(** All arrangements of a list. *)
Fixpoint inserts (x : Z) (l : list Z) : list (list Z) :=
  match l with
  | [] => [[x]]
  | y :: t => (x :: y :: t) :: map (cons y) (inserts x t)
  end.

Fixpoint perms (l : list Z) : list (list Z) :=
  match l with
  | [] => [[]]
  | x :: t => flat_map (inserts x) (perms t)
  end.

Definition all_boards : list Board := perms GOAL_STATE.

Definition max_depth : nat := 32.

(** Counting by key: [bump k h] adds one to the count of key [k]. *)
Fixpoint bump_onto (k : nat) (h acc : list nat) {struct h} : list nat :=
  match h with
  | [] => rev_append acc []
  | x :: r =>
      match k with
      | O => rev_append acc (S x :: r)
      | S k' => bump_onto k' r (x :: acc)
      end
  end.

Definition bump (k : nat) (h : list nat) : list nat := bump_onto k h [].

(** One pass over a list: [probe] rejects an element ([None]), accepts it
    ([Some None]) or accepts it under a key ([Some (Some k)]); the pass
    fails at the first rejected element and counts the others by key. *)
Fixpoint scan {A} (probe : A -> option (option nat)) (l : list A)
    (h : list nat) : option (list nat) :=
  match l with
  | [] => Some h
  | x :: r =>
      match probe x with
      | None => None
      | Some None => scan probe r h
      | Some (Some k) =>
          match bump k h with
          | [] => None
          | y :: h' => scan probe r (y :: h')
          end
      end
  end.

Definition has_key {A} (probe : A -> option (option nat)) (k : nat)
    (x : A) : bool :=
  match probe x with
  | Some (Some k') => (k' =? k)%nat
  | _ => false
  end.

Definition key_within {A} (probe : A -> option (option nat)) (m : nat)
    (x : A) : bool :=
  match probe x with
  | Some (Some k') => (k' <=? m)%nat
  | _ => false
  end.

Fixpoint list_eqb (l l' : list Z) : bool :=
  match l, l' with
  | [], [] => true
  | x :: r, y :: r' => (x =? y) && list_eqb r r'
  | _, _ => false
  end.

(** The check of a table, board by board: a board of the table is less
    than [max_depth] deep, and each of its successors is in the table, one
    deeper at most.  The boards of the table are counted by depth. *)
Definition probe_table (tab : Table.t) (b : Board) : option (option nat) :=
  let x := brd_of b in
  match Table.lookup tab x with
  | None => Some None
  | Some d =>
      if (d <? max_depth)%nat &&
         forallb (fun y => match Table.lookup tab y with
                           | Some d' => (d' <=? S d)%nat
                           | None => false
                           end) (succs x)
      then Some (Some d)
      else None
  end.

Definition sumZ (l : list Z) : Z := fold_right Z.add 0 l.

Fixpoint prefix_sums (acc : Z) (l : list Z) : list Z :=
  match l with
  | [] => []
  | x :: r => (acc + x) :: prefix_sums (acc + x) r
  end.

(** The number of boards at each depth [0 .. max_depth - 1] below a root,
    by the cell of its blank: a corner, the middle of a side, the centre.
    [table_cert] checks the rows against the tables. *)
Definition corner_layers : list Z :=
  [1; 2; 4; 8; 16; 20; 39; 62; 116; 152; 286; 396; 748; 1024; 1893;
   2512; 4485; 5638; 9529; 10878; 16993; 17110; 23952; 20224; 24047;
   15578; 14560; 6274; 3910; 760; 221; 2].

Definition side_layers : list Z :=
  [1; 3; 5; 10; 14; 28; 42; 80; 108; 202; 278; 524; 726; 1348; 1804;
   3283; 4193; 7322; 8596; 13930; 14713; 21721; 19827; 25132; 18197;
   18978; 9929; 7359; 2081; 878; 126; 2].

Definition centre_layers : list Z :=
  [1; 4; 8; 8; 16; 32; 60; 72; 136; 200; 376; 512; 964; 1296; 2368;
   3084; 5482; 6736; 11132; 12208; 18612; 18444; 24968; 19632; 22289;
   13600; 11842; 4340; 2398; 472; 148; 0].

Definition layer_table : list (list Z) :=
  [corner_layers; side_layers; corner_layers;
   side_layers; centre_layers; side_layers;
   corner_layers; side_layers; corner_layers].

(** The number of boards of the goal's table with a Manhattan distance of
    [m] at most, for [m] from 0 to [max_depth - 1].  [goal_cert] checks
    them against the table. *)
Definition within_table : list Z :=
  [1; 3; 7; 17; 132; 378; 1073; 2207; 5862; 10946; 21945; 33807;
   55514; 75554; 103179; 124133; 146313; 160539; 171364; 177260;
   180050; 181236; 181440; 181440; 181440; 181440; 181440; 181440;
   181440; 181440; 181440; 181440].

(** The certificate of a table for cell [p]: its root is at depth 0, every
    arrangement passes [probe_table], and row [p] of [layer_table] counts
    the boards of the table by depth. *)
Definition table_cert_on (tab : Table.t) (p : nat) : bool :=
  match Table.lookup tab (brd_of (canon p)) with
  | Some O =>
      match scan (probe_table tab) all_boards (repeat O max_depth) with
      | Some h => list_eqb (map Z.of_nat h) (nth p layer_table [])
      | None => false
      end
  | _ => false
  end.

Definition table_cert (p : nat) : bool := table_cert_on (table_of p) p.

(** An upper bound on the boards [c] with [dist (start, c) + h c <= D] when
    the blank of [start] is in cell [p]: at each distance [k <= D] there are
    no more of them than boards at distance [k] from a board with the blank
    in cell [p], and no more than boards with [h <= D - k]. *)
Definition closed_estimate (p : nat) (D : nat) : Z :=
  sumZ (map (fun k => Z.min (nth k (nth p layer_table []) 0)
                            (nth (D - k) within_table 0))
            (seq 0 (S D))).

Definition estimate_table : list (list Z) :=
  map (fun p => map (closed_estimate p) (seq 0 max_depth)) (seq 0 9).

(** The check of the goal's table, board by board: a board that is not in
    the table is not solvable; the only board at depth 0 is the goal, every
    other board of the table has a successor one level up, and the estimate
    of its row and depth is within the cap.  The boards of the table are
    counted by Manhattan distance. *)
Definition probe_goal (tab : Table.t) (est : list (list Z)) (b : Board)
  : option (option nat) :=
  let x := brd_of b in
  match Table.lookup tab x with
  | None => if isSolvable b then None else Some None
  | Some d =>
      if match d with
         | O => list_eqb b GOAL_STATE
         | S d1 => existsb (fun y => match Table.lookup tab y with
                                     | Some d' => (d' =? d1)%nat
                                     | None => false
                                     end) (succs x)
         end
         && (nth d (nth (blank_pos b) est []) (closed_cap + 1) <=? closed_cap)
      then Some (Some (manhattan_brd x))
      else None
  end.

Definition goal_cert_on (tab : Table.t) (est : list (list Z)) : bool :=
  match scan (probe_goal tab est) all_boards (repeat O max_depth) with
  | Some h => list_eqb (prefix_sums 0 (map Z.of_nat h)) within_table
  | None => false
  end.

Definition goal_cert : bool := goal_cert_on (table_of 8) estimate_table.

(** Renaming the tiles: the value [l'] has where [l] has [v]. *)
Definition rename (l l' : Board) (v : Z) : Z :=
  match find (fun ab => fst ab =? v) (combine l l') with
  | Some ab => snd ab
  | None => 0
  end.

(** What is used of a renaming [r] of the tiles: it keeps the blank, it is
    one-to-one on the cell values, and it takes valid boards to valid
    boards. *)
Definition good_rename (r : Z -> Z) : Prop :=
  r 0 = 0 /\
  (forall v v', 0 <= v <= 8 -> 0 <= v' <= 8 -> r v = r v' -> v = v') /\
  (forall b, valid_board b -> valid_board (map r b)).

(** The symmetries of the grid: a board read with its columns reversed,
    with its rows reversed, or transposed. *)
Definition pick (cells : list nat) (b : Board) : Board := map (get b) cells.

Definition flip_columns : Board -> Board := pick [2; 1; 0; 5; 4; 3; 8; 7; 6]%nat.
Definition flip_rows : Board -> Board := pick [6; 7; 8; 3; 4; 5; 0; 1; 2]%nat.
Definition transpose : Board -> Board := pick [0; 3; 6; 1; 4; 7; 2; 5; 8]%nat.

(** The cells of the grid are of three kinds: corners, middles of a side,
    and the centre.  [class_cell p] is the cell that stands for the kind of
    [p], and [to_class p] a symmetry of the grid that takes cell [p] to
    it. *)
Definition class_cell (p : nat) : nat :=
  match p with
  | 4 => 4
  | 1 | 3 | 5 | 7 => 7
  | _ => 8
  end%nat.

Definition to_class (p : nat) (b : Board) : Board :=
  match p with
  | 0 => flip_columns (flip_rows b)
  | 1 | 2 => flip_rows b
  | 3 => flip_rows (transpose b)
  | 5 => transpose b
  | 6 => flip_columns b
  | _ => b
  end%nat.

(** A map of boards that keeps validity and legal moves, one-to-one on
    valid boards. *)
Definition automorphism (f : Board -> Board) : Prop :=
  (forall b, valid_board b -> valid_board (f b)) /\
  (forall b t, valid_board b -> legal_move b t -> legal_move (f b) (f t)) /\
  (forall b b', valid_board b -> valid_board b' -> f b = f b' -> b = b').

(* ================================================================== *)
(** * Theorems *)
(* ================================================================== *)

(* ------------------------------------------------------------------ *)
(** ** Solvability parity: the index loops count inversions *)
(* ------------------------------------------------------------------ *)

Lemma skipn_nth_cons (l : list Z) (j : nat) :
  (j < length l)%nat -> skipn j l = nth j l 0 :: skipn (S j) l.
Proof.
  revert j; induction l as [|x t IH]; intros j Hj.
  - simpl in Hj. lia.
  - destruct j as [|j]; [reflexivity|].
    simpl in Hj. cbn [skipn nth]. rewrite <- IH by lia. reflexivity.
Qed.

Lemma inversions_inner_count (flat : list Z) (i : nat) :
  forall n j acc,
    (j + n <= length flat)%nat ->
    inversions_inner flat i j n acc =
    (acc + length (filter (fun y => Z.gtb (nth i flat 0%Z) y) (firstn n (skipn j flat))))%nat.
Proof.
  induction n as [|n IH]; intros j acc Hb; simpl.
  - lia.
  - rewrite IH by lia.
    rewrite (skipn_nth_cons flat j) by lia. simpl.
    destruct (nth i flat 0 >? nth j flat 0); simpl; lia.
Qed.

Lemma inversions_outer_count (flat : list Z) :
  forall n i acc,
    (i + n + 1 = length flat)%nat ->
    inversions_outer flat i n acc = (acc + inversion_count (skipn i flat))%nat.
Proof.
  induction n as [|n IH]; intros i acc Hb; simpl.
  - rewrite (skipn_nth_cons flat i) by lia.
    rewrite skipn_all2 by lia. simpl. lia.
  - rewrite IH by lia.
    rewrite inversions_inner_count by lia.
    rewrite (skipn_nth_cons flat i) by lia.
    rewrite firstn_all2 by (rewrite length_skipn; lia).
    simpl. lia.
Qed.

Lemma inversions_loops_spec (flat : list Z) :
  inversions_outer flat 0 (length flat - 1) 0 = inversion_count flat.
Proof.
  destruct flat as [|x t]; [reflexivity|].
  rewrite inversions_outer_count by (simpl; lia). reflexivity.
Qed.

(** C4. [isSolvable] answers true exactly when the number of inversions
    among the non-zero cells, read in flat board order, is even.  It holds
    for every board, in particular for every permutation of 0..8. *)
Theorem isSolvable_iff_even_inversions (b : Board) :
  isSolvable b = true <-> Nat.Even (inversion_count (nonzero_cells b)).
Proof.
  unfold isSolvable, nonzero_cells.
  rewrite inversions_loops_spec, Nat.eqb_eq.
  rewrite <- Nat.even_spec.
  set (n := inversion_count _).
  rewrite <- Nat.bit0_mod, Nat.bit0_odd.
  rewrite <- Nat.negb_even.
  destruct (Nat.even n); simpl; split; congruence.
Qed.

(* ------------------------------------------------------------------ *)
(** ** Array reads and writes *)
(* ------------------------------------------------------------------ *)

Lemma length_set_at (b : Board) : forall i v, length (set_at i v b) = length b.
Proof.
  induction b as [|x t IH]; intros [|i] v; simpl; auto.
Qed.

Lemma get_set_at_same (b : Board) :
  forall i v, (i < length b)%nat -> get (set_at i v b) i = v.
Proof.
  unfold get. induction b as [|x t IH]; intros [|i] v Hi; simpl in *; try lia; auto.
  apply IH. lia.
Qed.

Lemma get_set_at_other (b : Board) :
  forall i k v, k <> i -> get (set_at i v b) k = get b k.
Proof.
  unfold get. induction b as [|x t IH]; intros [|i] [|k] v Hk; simpl; auto; try congruence.
Qed.

Lemma set_at_perm_head (t : Board) :
  forall j x, (j < length t)%nat -> Permutation (get t j :: set_at j x t) (x :: t).
Proof.
  unfold get. induction t as [|y t IH]; intros [|j] x Hj; simpl in *; try lia.
  - apply perm_swap.
  - etransitivity; [apply perm_swap|].
    etransitivity; [apply perm_skip, IH; lia|]. apply perm_swap.
Qed.

Lemma swap_cells_perm (b : Board) :
  forall e s, (e < length b)%nat -> (s < length b)%nat ->
              Permutation (swap_cells b e s) b.
Proof.
  unfold swap_cells, get.
  induction b as [|x t IH]; intros [|e] [|s] He Hs; simpl in *; try lia.
  - reflexivity.
  - apply (set_at_perm_head t s x). lia.
  - apply (set_at_perm_head t e x). lia.
  - apply perm_skip, IH; lia.
Qed.

Lemma swap_cells_exchanged (b : Board) (e s : nat) :
  (e < length b)%nat -> (s < length b)%nat -> e <> s ->
  exchanged b (swap_cells b e s) e s.
Proof.
  intros He Hs Hne. unfold exchanged, swap_cells. repeat split.
  - now rewrite !length_set_at.
  - rewrite get_set_at_other by congruence. now apply get_set_at_same.
  - apply get_set_at_same. now rewrite length_set_at.
  - intros k Hk1 Hk2. now rewrite !get_set_at_other by congruence.
Qed.

(* ------------------------------------------------------------------ *)
(** ** Valid boards and the blank *)
(* ------------------------------------------------------------------ *)

Lemma valid_board_length (b : Board) : valid_board b -> length b = 9%nat.
Proof. intros H. apply Permutation_length in H. exact H. Qed.

Lemma valid_board_has_blank (b : Board) : valid_board b -> In 0 b.
Proof.
  intros H. apply (Permutation_in 0 (Permutation_sym H)).
  unfold GOAL_STATE. simpl. tauto.
Qed.

Lemma indexOf_from_spec (l : list Z) (x : Z) :
  forall i, In x l ->
    i <= indexOf_from l x i < i + Z.of_nat (length l) /\
    nth (Z.to_nat (indexOf_from l x i - i)) l 0 = x.
Proof.
  induction l as [|y t IH]; intros i Hin; [destruct Hin|].
  cbn [indexOf_from]. destruct (Z.eqb_spec y x) as [->|Hne].
  - split; [cbn [length]; lia|]. now rewrite Z.sub_diag.
  - destruct Hin as [Heq|Hin]; [congruence|].
    destruct (IH (i + 1) Hin) as [Hr Hn]. split; [cbn [length]; lia|].
    replace (Z.to_nat (indexOf_from t x (i + 1) - i))
      with (S (Z.to_nat (indexOf_from t x (i + 1) - (i + 1)))) by lia.
    exact Hn.
Qed.

Lemma getEmptyIndex_spec (b : Board) :
  valid_board b ->
  0 <= getEmptyIndex b < 9 /\ get b (Z.to_nat (getEmptyIndex b)) = 0.
Proof.
  intros Hv. unfold getEmptyIndex, indexOf, get.
  destruct (indexOf_from_spec b 0 0 (valid_board_has_blank b Hv)) as [Hr Hn].
  rewrite (valid_board_length b Hv) in Hr. rewrite Z.sub_0_r in Hn.
  split; [lia|exact Hn].
Qed.

Lemma swap_cells_valid (b : Board) (e s : nat) :
  valid_board b -> (e < 9)%nat -> (s < 9)%nat -> valid_board (swap_cells b e s).
Proof.
  intros Hv He Hs. unfold valid_board.
  etransitivity; [|exact Hv].
  apply swap_cells_perm; rewrite (valid_board_length b Hv); assumption.
Qed.

(* ------------------------------------------------------------------ *)
(** ** The move generator *)
(* ------------------------------------------------------------------ *)

Lemma validMoves_at_table (b : Board) (e : nat) :
  (e < 9)%nat ->
  validMoves_at b (Z.of_nat e) =
  map (fun sn => Move.mk (swap_cells b e (fst sn)) (snd sn)) (moves_table e).
Proof.
  intros He.
  do 9 (destruct e as [|e]; [reflexivity|]). lia.
Qed.

Lemma getValidMoves_table (b : Board) :
  valid_board b ->
  getValidMoves b =
  map (fun sn => Move.mk (swap_cells b (Z.to_nat (getEmptyIndex b)) (fst sn)) (snd sn))
      (moves_table (Z.to_nat (getEmptyIndex b))).
Proof.
  intros Hv. destruct (getEmptyIndex_spec b Hv) as [Hr _].
  unfold getValidMoves.
  rewrite <- (Z2Nat.id (getEmptyIndex b)) at 1 by lia.
  apply validMoves_at_table. lia.
Qed.

Lemma moves_table_cells (e s : nat) (name : string) :
  In (s, name) (moves_table e) ->
  (e < 9)%nat /\ (s < 9)%nat /\ s <> e /\ adjacent (Z.of_nat e) (Z.of_nat s).
Proof.
  intros Hin.
  do 9 (destruct e as [|e];
        [ simpl in Hin;
          repeat (destruct Hin as [Hin|Hin];
                  [ injection Hin as <- _; unfold adjacent; simpl;
                    repeat split; lia | ]);
          destruct Hin | ]).
  destruct Hin.
Qed.

Lemma moves_table_order (e : nat) :
  subsequence (map snd (moves_table e)) ["UP"; "DOWN"; "LEFT"; "RIGHT"]%string = true.
Proof.
  do 9 (destruct e as [|e]; [reflexivity|]). reflexivity.
Qed.

(* ------------------------------------------------------------------ *)
(** ** The move generator over the store *)
(* ------------------------------------------------------------------ *)

Lemma heap_read_app_l {A} (h l : Heap.t A) (a : nat) :
  (a < length h)%nat -> Heap.read (h ++ l) a = Heap.read h a.
Proof. intros Ha. unfold Heap.read. now rewrite app_nth1. Qed.

Lemma heap_read_app_r {A} (h l : Heap.t A) (i : nat) :
  Heap.read (h ++ l) (length h + i) = Heap.read l i.
Proof.
  unfold Heap.read. rewrite app_nth2 by lia. f_equal. lia.
Qed.

Lemma heap_modify_last {A} (h : Heap.t A) (arr : list A) (f : list A -> list A) :
  Heap.modify (h ++ [arr]) (length h) f = h ++ [f arr].
Proof. induction h as [|x t IH]; simpl; [reflexivity|]. now rewrite IH. Qed.

Lemma combine_app_same {A B} (l1 l2 : list A) (k1 k2 : list B) :
  length l1 = length k1 ->
  combine (l1 ++ l2) (k1 ++ k2) = combine l1 k1 ++ combine l2 k2.
Proof.
  revert k1; induction l1 as [|x l1 IH]; intros [|y k1] Hl; simpl in *;
    try discriminate; [reflexivity|].
  f_equal. apply IH. now injection Hl.
Qed.

Lemma validMoves_step_heap_sim (h : Heap.t Z) (a : nat) (e : Z)
      (ms : list Move.t) (d : Z * Z * string) :
  (a < length h)%nat ->
  validMoves_step_heap a e (h ++ map Move.board ms, fresh_refs (length h) ms) d =
  (h ++ map Move.board (validMoves_step (Heap.read h a) e ms d),
   fresh_refs (length h) (validMoves_step (Heap.read h a) e ms d)).
Proof.
  intros Ha. destruct d as [[dr dc] name].
  unfold validMoves_step_heap, validMoves_step.
  destruct ((e / 3 + dr >=? 0) && (e / 3 + dr <? 3) &&
            (Z.rem e 3 + dc >=? 0) && (Z.rem e 3 + dc <? 3)); [|reflexivity].
  unfold Heap.alloc, write_cell.
  rewrite heap_read_app_l by assumption.
  set (h0 := h ++ map Move.board ms).
  assert (Hrd : Heap.read (h0 ++ [Heap.read h a]) (length h0) = Heap.read h a).
  { replace (length h0) with (length h0 + 0)%nat by lia.
    now rewrite heap_read_app_r. }
  rewrite Hrd, !heap_modify_last.
  f_equal.
  - unfold h0. rewrite map_app, app_assoc. reflexivity.
  - unfold fresh_refs, h0.
    rewrite !length_app, !length_map, map_app. cbn [length map Move.move].
    rewrite seq_app, combine_app_same by now rewrite length_seq, length_map.
    reflexivity.
Qed.

Lemma getValidMoves_heap_sim (h : Heap.t Z) (a : nat) :
  (a < length h)%nat ->
  getValidMoves_heap h a =
  (h ++ map Move.board (getValidMoves (Heap.read h a)),
   fresh_refs (length h) (getValidMoves (Heap.read h a))).
Proof.
  intros Ha. unfold getValidMoves_heap, getValidMoves, validMoves_at.
  set (e := getEmptyIndex (Heap.read h a)).
  assert (Hgen : forall ds ms,
    fold_left (validMoves_step_heap a e) ds
              (h ++ map Move.board ms, fresh_refs (length h) ms) =
    (h ++ map Move.board (fold_left (validMoves_step (Heap.read h a) e) ds ms),
     fresh_refs (length h) (fold_left (validMoves_step (Heap.read h a) e) ds ms))).
  { induction ds as [|d ds IH]; intros ms; [reflexivity|].
    cbn [fold_left]. rewrite validMoves_step_heap_sim by assumption. apply IH. }
  specialize (Hgen directions []). cbn [map fresh_refs] in Hgen.
  rewrite app_nil_r in Hgen. exact Hgen.
Qed.

Lemma read_moves_fresh (h : Heap.t Z) (ms : list Move.t) :
  read_moves (h ++ map Move.board ms) (fresh_refs (length h) ms) = ms.
Proof.
  unfold read_moves, fresh_refs.
  assert (Hgen : forall pre ms,
    map (fun r => Move.mk (Heap.read ((h ++ pre) ++ map Move.board ms) (fst r)) (snd r))
        (combine (seq (length (h ++ pre)) (length ms)) (map Move.move ms)) = ms).
  { clear ms. intros pre ms. revert pre.
    induction ms as [|m ms IH]; intros pre; [reflexivity|].
    cbn [length seq map combine fst snd]. f_equal.
    - replace (length (h ++ pre)) with (length (h ++ pre) + 0)%nat at 1 by lia.
      rewrite heap_read_app_r. destruct m; reflexivity.
    - specialize (IH (pre ++ [Move.board m])).
      rewrite app_assoc, length_app in IH. cbn [length] in IH.
      replace (length (h ++ pre) + 1)%nat with (S (length (h ++ pre))) in IH by lia.
      rewrite <- app_assoc in IH. cbn [app] in IH.
      rewrite <- app_assoc. cbn [app]. rewrite app_assoc. exact IH. }
  specialize (Hgen [] ms). now rewrite app_nil_r in Hgen.
Qed.

Lemma getValidMoves_members (b : Board) :
  valid_board b ->
  forall m, In m (getValidMoves b) ->
    valid_board (Move.board m) /\
    exists s, adjacent (getEmptyIndex b) s /\
              exchanged b (Move.board m) (Z.to_nat (getEmptyIndex b)) (Z.to_nat s).
Proof.
  intros Hv m Hm.
  destruct (getEmptyIndex_spec b Hv) as [Hr _].
  rewrite (getValidMoves_table b Hv) in Hm. apply in_map_iff in Hm.
  destruct Hm as [[s name] [<- Hin]]. cbn [fst snd Move.board].
  destruct (moves_table_cells _ _ _ Hin) as (He & Hs & Hne & Hadj).
  split; [now apply swap_cells_valid|].
  exists (Z.of_nat s). split.
  - now rewrite Z2Nat.id in Hadj by lia.
  - rewrite Nat2Z.id.
    apply swap_cells_exchanged; rewrite ?(valid_board_length b Hv); auto.
Qed.

(** C5. For a valid board, [getValidMoves] lists its results in the order
    UP, DOWN, LEFT, RIGHT; it returns 2 moves when the blank is in a corner,
    3 on an edge and 4 in the centre; every returned board is a valid
    permutation that is the input with the blank and one adjacent cell
    exchanged; and, run over the store, it leaves the input array (and every
    array that existed before the call) as it was, its results being fresh
    arrays holding the same values as the pure function's. *)
Theorem getValidMoves_spec (b : Board) :
  valid_board b ->
  let e := getEmptyIndex b in
  let ms := getValidMoves b in
  get b (Z.to_nat e) = 0 /\
  subsequence (map Move.move ms) ["UP"; "DOWN"; "LEFT"; "RIGHT"]%string = true /\
  (is_corner e -> length ms = 2%nat) /\
  (is_edge e -> length ms = 3%nat) /\
  (is_center e -> length ms = 4%nat) /\
  (forall m, In m ms ->
     valid_board (Move.board m) /\
     exists s, adjacent e s /\
               exchanged b (Move.board m) (Z.to_nat e) (Z.to_nat s)) /\
  (forall (h : Heap.t Z) (a : nat),
     (a < length h)%nat -> Heap.read h a = b ->
     let h' := fst (getValidMoves_heap h a) in
     let rs := snd (getValidMoves_heap h a) in
     Heap.read h' a = b /\
     (forall a', (a' < length h)%nat -> Heap.read h' a' = Heap.read h a') /\
     (forall r, In r rs -> (length h <= fst r)%nat) /\
     read_moves h' rs = ms).
Proof.
  intros Hv e ms.
  destruct (getEmptyIndex_spec b Hv) as [Hr Hblank]. fold e in Hr, Hblank.
  assert (Hms : ms = map (fun sn => Move.mk (swap_cells b (Z.to_nat e) (fst sn)) (snd sn))
                         (moves_table (Z.to_nat e)))
    by (apply getValidMoves_table; assumption).
  split; [exact Hblank|].
  split.
  { rewrite Hms, map_map. cbn [Move.move]. apply moves_table_order. }
  split; [|split; [|split]].
  - intros Hc. rewrite Hms, length_map.
    destruct Hc as [Hc | [Hc | [Hc | Hc]]]; rewrite Hc; reflexivity.
  - intros Hc. rewrite Hms, length_map.
    destruct Hc as [Hc | [Hc | [Hc | Hc]]]; rewrite Hc; reflexivity.
  - intros Hc. rewrite Hms, length_map. unfold is_center in Hc. now rewrite Hc.
  - split.
    + apply getValidMoves_members, Hv.
    + intros h a Ha Hrd h' rs. subst h' rs.
      rewrite (getValidMoves_heap_sim h a Ha), Hrd. cbn [fst snd]. fold ms.
      split; [|split; [|split]].
      * now rewrite heap_read_app_l.
      * intros a' Ha'. now rewrite heap_read_app_l.
      * intros [a' name] Hin. cbn [fst]. unfold fresh_refs in Hin.
        apply in_combine_l, in_seq in Hin. lia.
      * apply read_moves_fresh.
Qed.

(** Witness of C5 on the goal board (blank in a corner). *)
Lemma getValidMoves_spec_witness :
  valid_board GOAL_STATE /\
  length (getValidMoves GOAL_STATE) = 2%nat.
Proof.
  assert (Hv : valid_board GOAL_STATE) by apply Permutation_refl.
  split; [exact Hv|].
  destruct (getValidMoves_spec GOAL_STATE Hv) as (_ & _ & Hc & _).
  apply Hc. unfold is_corner. right; right; right. reflexivity.
Defined.

(* ------------------------------------------------------------------ *)
(** ** Goal test and heuristics *)
(* ------------------------------------------------------------------ *)

Lemma isGoalState_GOAL : isGoalState GOAL_STATE = true.
Proof. reflexivity. Qed.

Lemma isGoalState_length9 (b : Board) :
  length b = 9%nat -> isGoalState b = true -> b = GOAL_STATE.
Proof.
  intros Hl Hg.
  do 9 (destruct b as [|? b]; [discriminate Hl|]).
  destruct b; [|discriminate Hl].
  unfold isGoalState, every in Hg. cbn in Hg.
  repeat (apply andb_prop in Hg; destruct Hg as [?H Hg]).
  repeat match goal with H : (_ =? _) = true |- _ => apply Z.eqb_eq in H end.
  subst. reflexivity.
Qed.

Lemma isGoalState_valid (b : Board) :
  valid_board b -> isGoalState b = true -> b = GOAL_STATE.
Proof. intros Hv. apply isGoalState_length9, valid_board_length, Hv. Qed.

Lemma manhattan_step_mono (b : Board) (d : Z) (i : nat) :
  d <= manhattan_step b d i.
Proof. unfold manhattan_step. destruct (get b i =? 0); lia. Qed.

Lemma manhattanDistance_nonneg (b : Board) : 0 <= manhattanDistance b.
Proof.
  unfold manhattanDistance.
  assert (Hgen : forall l d, d <= fold_left (manhattan_step b) l d).
  { induction l as [|i l IH]; intros d; cbn [fold_left]; [lia|].
    etransitivity; [apply (manhattan_step_mono b d i)|apply IH]. }
  apply Hgen.
Qed.

Lemma tilesOutOfPlace_nonneg (b : Board) : 0 <= tilesOutOfPlace b.
Proof.
  unfold tilesOutOfPlace.
  set (f := fun (count : Z) (i : nat) => _).
  assert (Hgen : forall l d, d <= fold_left f l d).
  { induction l as [|i l IH]; intros d; cbn [fold_left]; [lia|].
    etransitivity; [|apply IH]. unfold f.
    destruct (negb (get b i =? 0) && negb (get b i =? get GOAL_STATE i)); lia. }
  apply Hgen.
Qed.

Lemma valid_board_cells (b : Board) :
  valid_board b -> Forall (fun v => 0 <= v <= 8) b.
Proof.
  intros Hv. apply (Permutation_Forall (Permutation_sym Hv)).
  unfold GOAL_STATE. repeat constructor; lia.
Qed.

Lemma manhattan_step_bound (b : Board) (d : Z) (i : nat) :
  (i < 9)%nat -> 0 <= get b i <= 8 -> manhattan_step b d i <= d + 4.
Proof.
  intros Hi Hv. unfold manhattan_step.
  destruct (Z.eqb_spec (get b i) 0) as [|Hnz]; [lia|].
  assert (Hc : get b i = 1 \/ get b i = 2 \/ get b i = 3 \/ get b i = 4 \/
               get b i = 5 \/ get b i = 6 \/ get b i = 7 \/ get b i = 8) by lia.
  do 9 (destruct i as [|i]; [
    repeat (destruct Hc as [Hc|Hc]; [rewrite Hc; cbn; lia|]); rewrite Hc; cbn; lia |]).
  lia.
Qed.

Lemma manhattanDistance_bound (b : Board) :
  valid_board b -> manhattanDistance b <= 36.
Proof.
  intros Hv. pose proof (valid_board_cells b Hv) as Hc.
  pose proof (valid_board_length b Hv) as Hl.
  assert (Hget : forall i, (i < 9)%nat -> 0 <= get b i <= 8).
  { intros i Hi. rewrite Forall_forall in Hc. apply Hc. unfold get.
    apply nth_In. lia. }
  unfold manhattanDistance.
  assert (Hgen : forall l d, Forall (fun i => (i < 9)%nat) l ->
            fold_left (manhattan_step b) l d <= d + 4 * Z.of_nat (length l)).
  { induction l as [|i l IH]; intros d Hall; cbn [fold_left length]; [lia|].
    inversion Hall as [|? ? Hi Hall']; subst.
    etransitivity; [apply IH; assumption|].
    pose proof (manhattan_step_bound b d i Hi (Hget i Hi)). lia. }
  etransitivity; [apply Hgen|].
  - apply Forall_forall. intros i Hi. apply in_seq in Hi. lia.
  - rewrite length_seq. lia.
Qed.

(* ------------------------------------------------------------------ *)
(** ** Fitness replay *)
(* ------------------------------------------------------------------ *)

Lemma matchingMove_legal (b : Board) (moveType : string) (m : Move.t) :
  matchingMove b moveType = Some m ->
  In m (getValidMoves b) /\ Move.move m = moveType /\ legal_move b (Move.board m).
Proof.
  unfold matchingMove. intros H. apply find_some in H. destruct H as [Hin Heq].
  apply String.eqb_eq in Heq. repeat split; auto.
  unfold legal_move, successors. now apply in_map.
Qed.

Lemma legal_move_valid (b b' : Board) :
  valid_board b -> legal_move b b' -> valid_board b'.
Proof.
  intros Hv Hl. unfold legal_move, successors in Hl.
  apply in_map_iff in Hl. destruct Hl as [m [<- Hin]].
  now apply (getValidMoves_members b Hv m Hin).
Qed.

Lemma move_chain_snoc (p : list Board) (b0 b' : Board) :
  move_chain p -> legal_move (last p b0) b' -> p <> [] -> move_chain (p ++ [b']).
Proof.
  induction p as [|x p IH]; intros Hc Hl Hne; [congruence|].
  destruct p as [|y p].
  - cbn in *. auto.
  - destruct Hc as [Hxy Hc]. split; [exact Hxy|].
    apply IH; [exact Hc|exact Hl|discriminate].
Qed.

Lemma bonus_of_distances_snoc (ds : list Z) (d : Z) :
  forall m,
    bonus_of_distances m (ds ++ [d]) =
    bonus_of_distances m ds + (if d <? fold_left Z.min ds m then 10 else 0).
Proof.
  induction ds as [|x ds IH]; intros m; cbn [app bonus_of_distances fold_left].
  - destruct (d <? m); lia.
  - destruct (Z.ltb_spec x m).
    + rewrite IH. replace (Z.min m x) with x by lia. lia.
    + rewrite IH. replace (Z.min m x) with m by lia. lia.
Qed.

Lemma bonus_of_distances_bound (ds : list Z) :
  forall m, 0 <= bonus_of_distances m ds <= 10 * (m - fold_left Z.min ds m).
Proof.
  induction ds as [|x ds IH]; intros m; cbn [bonus_of_distances fold_left]; [lia|].
  destruct (Z.ltb_spec x m).
  - replace (Z.min m x) with x by lia. specialize (IH x). lia.
  - replace (Z.min m x) with m by lia. apply IH.
Qed.

Lemma running_min_nonneg (visited : list Board) :
  forall m, 0 <= m -> 0 <= running_min m visited.
Proof.
  unfold running_min. induction visited as [|b t IH]; intros m Hm;
    cbn [map fold_left]; [exact Hm|].
  apply IH. pose proof (manhattanDistance_nonneg b). lia.
Qed.

Lemma replay_start_inv (this : Individual.t) (b0 : Board) :
  valid_board b0 -> replay_inv b0 (replay_start this b0).
Proof.
  intros Hv. exists []. cbn. repeat split; auto.
Qed.

Lemma mark_reached_inv (b0 : Board) (st : Replay.t) :
  replay_inv b0 st -> replay_inv b0 (mark_reached st).
Proof. intros H. exact H. Qed.

Lemma apply_move_fields (st : Replay.t) (m : Move.t) :
  let st' := apply_move st m in
  Replay.currentBoard st' = Move.board m /\
  Replay.path st' = Replay.path st ++ [Move.board m] /\
  Replay.moveCount st' = Replay.moveCount st + 1 /\
  Replay.minDistanceAchieved st' =
    Z.min (Replay.minDistanceAchieved st) (manhattanDistance (Move.board m)) /\
  Replay.progressScore st' =
    Replay.progressScore st +
    (if manhattanDistance (Move.board m) <? Replay.minDistanceAchieved st
     then 10 else 0) /\
  Replay.reachedGoal st' = Replay.reachedGoal st.
Proof.
  unfold apply_move.
  destruct (Z.ltb_spec (manhattanDistance (Move.board m))
                       (Replay.minDistanceAchieved st));
    cbn [Replay.currentBoard Replay.path Replay.moveCount
         Replay.minDistanceAchieved Replay.progressScore Replay.reachedGoal];
    repeat split; lia.
Qed.

Lemma apply_move_inv (b0 : Board) (st : Replay.t) (m : Move.t) :
  replay_inv b0 st ->
  legal_move (Replay.currentBoard st) (Move.board m) ->
  replay_inv b0 (apply_move st m).
Proof.
  intros (visited & Hp & Hlast & Hval & Hch & Hmc & Hps & Hmin) Hl.
  destruct (apply_move_fields st m) as (Hb' & Hp' & Hmc' & Hmin' & Hps' & _).
  exists (visited ++ [Move.board m]).
  rewrite Hp', Hb', Hmc', Hmin', Hps'.
  assert (Hcur : valid_board (Replay.currentBoard st)).
  { rewrite <- Hlast. rewrite Forall_forall in Hval. apply Hval.
    rewrite Hp.
    destruct (@exists_last _ (b0 :: visited)) as (l' & a & Heq); [discriminate|].
    rewrite Heq, last_last. apply in_or_app. right. now left. }
  repeat split.
  - now rewrite Hp.
  - now rewrite last_last.
  - apply Forall_app. split; [exact Hval|]. constructor; [|constructor].
    eapply legal_move_valid; eassumption.
  - apply (move_chain_snoc _ b0); [exact Hch| |rewrite Hp; discriminate].
    now rewrite Hlast.
  - rewrite length_app, Hmc. cbn [length]. lia.
  - unfold progress_bonus. rewrite map_app. cbn [map].
    rewrite bonus_of_distances_snoc. rewrite Hps, Hmin. reflexivity.
  - unfold running_min. rewrite map_app, fold_left_app. cbn [map fold_left].
    rewrite Hmin. reflexivity.
Qed.

Lemma replay_inv_preserved (b0 : Board) (genes : list string) :
  forall st, replay_inv b0 st -> replay_inv b0 (replay genes st).
Proof.
  induction genes as [|g rest IH]; intros st Hinv; cbn [replay]; [exact Hinv|].
  destruct (isGoalState (Replay.currentBoard st)); [exact Hinv|].
  destruct (matchingMove (Replay.currentBoard st) g) as [m|] eqn:Hm.
  - apply matchingMove_legal in Hm. destruct Hm as (_ & _ & Hl).
    pose proof (apply_move_inv b0 st m Hinv Hl) as Hinv'.
    destruct (isGoalState (Replay.currentBoard (apply_move st m)));
      [exact Hinv'|apply IH, Hinv'].
  - apply IH, Hinv.
Qed.

Lemma apply_move_flag (st : Replay.t) (m : Move.t) :
  Replay.reachedGoal (apply_move st m) = Replay.reachedGoal st.
Proof. apply (apply_move_fields st m). Qed.

(** The flag after the loop: it is set exactly when the loop stops on the
    goal board, unless the loop had nothing to iterate over. *)
Lemma replay_flag (genes : list string) :
  forall st,
    genes <> [] \/ isGoalState (Replay.currentBoard st) = false ->
    Replay.reachedGoal (replay genes st) =
    Replay.reachedGoal st || isGoalState (Replay.currentBoard (replay genes st)).
Proof.
  induction genes as [|g rest IH]; intros st Hor; cbn [replay].
  - destruct Hor as [Hne|Hng]; [congruence|]. rewrite Hng. now rewrite orb_false_r.
  - destruct (isGoalState (Replay.currentBoard st)) eqn:Hg.
    + unfold mark_reached. cbn [Replay.reachedGoal Replay.currentBoard].
      rewrite Hg. now rewrite orb_true_r.
    + destruct (matchingMove (Replay.currentBoard st) g) as [m|].
      * destruct (isGoalState (Replay.currentBoard (apply_move st m))) eqn:Hg'.
        -- unfold mark_reached. cbn [Replay.reachedGoal Replay.currentBoard].
           rewrite Hg'. now rewrite orb_true_r.
        -- rewrite IH by (right; exact Hg'). now rewrite apply_move_flag.
      * apply IH. right. exact Hg.
Qed.

Lemma replay_flag_goal (genes : list string) (st : Replay.t) :
  Replay.reachedGoal st = false ->
  Replay.reachedGoal (replay genes st) = true ->
  isGoalState (Replay.currentBoard (replay genes st)) = true.
Proof.
  intros Hf Ht. destruct genes as [|g rest].
  - cbn [replay] in Ht. congruence.
  - rewrite replay_flag in Ht by (left; discriminate).
    rewrite Hf in Ht. exact Ht.
Qed.

(** As long as the replay of a prefix has not ended on the goal board, the
    loop has not stopped, and the rest of the chromosome is replayed from
    the state the prefix leaves. *)
Lemma replay_app (pre rest : list string) :
  forall st,
    isGoalState (Replay.currentBoard (replay pre st)) = false ->
    replay (pre ++ rest) st = replay rest (replay pre st).
Proof.
  induction pre as [|g pre IH]; intros st Hng; [reflexivity|].
  cbn [app replay] in *.
  destruct (isGoalState (Replay.currentBoard st)) eqn:Hg.
  - unfold mark_reached in Hng. cbn [Replay.currentBoard] in Hng. congruence.
  - destruct (matchingMove (Replay.currentBoard st) g) as [m|].
    + destruct (isGoalState (Replay.currentBoard (apply_move st m))) eqn:Hg'.
      * unfold mark_reached in Hng. cbn [Replay.currentBoard] in Hng. congruence.
      * apply IH, Hng.
    + apply IH, Hng.
Qed.

(** C6. A gene whose direction has no matching valid move from the current
    board (the loop having got as far as looking for one, i.e. the current
    board not being the goal) is skipped: the loop goes on with the next
    gene from the very same state, so the board, the path and the move
    counter are what they were; hence the whole replay of a chromosome is
    the replay of the chromosome with that gene deleted. *)
Theorem blocked_gene_is_skipped
    (st : Replay.t) (moveType : string) (rest : list string) :
  isGoalState (Replay.currentBoard st) = false ->
  matchingMove (Replay.currentBoard st) moveType = None ->
  replay (moveType :: rest) st = replay rest st /\
  forall (pre : list string) (st0 : Replay.t),
    replay pre st0 = st ->
    replay (pre ++ moveType :: rest) st0 = replay (pre ++ rest) st0.
Proof.
  intros Hng Hnone.
  assert (Hstep : replay (moveType :: rest) st = replay rest st).
  { cbn [replay]. now rewrite Hng, Hnone. }
  split; [exact Hstep|].
  intros pre st0 Hpre.
  rewrite !replay_app by (rewrite Hpre; exact Hng).
  rewrite Hpre. exact Hstep.
Qed.

(** Witness of C6: with the blank in the bottom row, DOWN is blocked. *)
Lemma blocked_gene_is_skipped_witness :
  let st := replay_start (Individual_new ["DOWN"; "RIGHT"]%string)
                         [1; 2; 3; 4; 5; 6; 7; 0; 8] in
  replay ["DOWN"; "RIGHT"]%string st = replay ["RIGHT"]%string st.
Proof.
  intros st.
  apply (blocked_gene_is_skipped st "DOWN"%string ["RIGHT"%string]);
    reflexivity.
Defined.

(** The move [calculateFitness] finds for a gene is the move the spec
    describes for that direction, and it finds none exactly when the
    direction is blocked. *)
Lemma matchingMove_spec (b : Board) (moveType : string) :
  valid_board b ->
  option_map Move.board (matchingMove b moveType) = spec_move moveType b.
Proof.
  intros Hv. destruct (getEmptyIndex_spec b Hv) as [Hr _].
  unfold matchingMove, spec_move. rewrite (getValidMoves_table b Hv).
  set (e := Z.to_nat (getEmptyIndex b)).
  assert (He : (e < 9)%nat) by (unfold e; lia). clearbody e.
  unfold spec_neighbour.
  do 9 (destruct e as [|e];
        [ cbn [moves_table map find Move.move Move.board fst snd];
          destruct (String.eqb_spec "UP" moveType) as [<-|_]; [reflexivity|];
          destruct (String.eqb_spec "DOWN" moveType) as [<-|_]; [reflexivity|];
          destruct (String.eqb_spec "LEFT" moveType) as [<-|_]; [reflexivity|];
          destruct (String.eqb_spec "RIGHT" moveType) as [<-|_]; reflexivity | ]).
  lia.
Qed.

Lemma spec_replay_goal (genes : list string) (b : Board) :
  isGoalState b = true -> spec_replay genes b = [].
Proof. intros Hg. destruct genes; cbn [spec_replay]; [reflexivity|now rewrite Hg]. Qed.

(** The path the loop of [calculateFitness] builds is the path it starts
    with followed by the boards of the spec's replay of the chromosome. *)
Lemma replay_path_spec (genes : list string) :
  forall st,
    valid_board (Replay.currentBoard st) ->
    Replay.path (replay genes st) =
    Replay.path st ++ spec_replay genes (Replay.currentBoard st).
Proof.
  induction genes as [|g rest IH]; intros st Hv; cbn [replay spec_replay].
  - now rewrite app_nil_r.
  - destruct (isGoalState (Replay.currentBoard st)) eqn:Hg.
    + unfold mark_reached. cbn [Replay.path]. now rewrite app_nil_r.
    + pose proof (matchingMove_spec (Replay.currentBoard st) g Hv) as Hm.
      destruct (matchingMove (Replay.currentBoard st) g) as [m|] eqn:Hmm;
        cbn [option_map] in Hm; rewrite <- Hm.
      * destruct (apply_move_fields st m) as (Hb' & Hp' & _).
        apply matchingMove_legal in Hmm. destruct Hmm as (_ & _ & Hl).
        pose proof (legal_move_valid _ _ Hv Hl) as Hv'.
        destruct (isGoalState (Replay.currentBoard (apply_move st m))) eqn:Hg'.
        -- unfold mark_reached. cbn [Replay.path]. rewrite Hp'.
           rewrite Hb' in Hg'. now rewrite (spec_replay_goal rest _ Hg').
        -- rewrite IH by (rewrite Hb'; exact Hv').
           rewrite Hp', Hb', <- app_assoc. reflexivity.
      * apply IH, Hv.
Qed.

(** C2. For an individual that has not been evaluated before (its flag is
    still the constructor's [false]) with a chromosome that is not empty,
    and a valid initial board.  Let [visited] be the boards of the spec's
    replay of the chromosome from the initial board (blocked genes skipped,
    stop at the goal), [final] the last of them (the initial board if there
    is none), [moveCount] their number and [progressScore] 10 for every new
    minimum of the Manhattan distance along them.  After
    [calculateFitness] the path is the initial board followed by
    [visited], [finalDistance] is the Manhattan distance of [final]; if
    the replay ended on the goal then [fitness = 10000 - moveCount] and
    [reachedGoal] is set; otherwise [fitness = 1000 - 10 * finalDistance -
    5 * tilesOutOfPlace - moveCount + progressScore] with [reachedGoal]
    unset; and an individual none of whose visited boards is the goal has
    fitness below 10000. *)
Theorem calculateFitness_formula (this : Individual.t) (initialBoard : Board) :
  valid_board initialBoard ->
  Individual.reachedGoal this = false ->
  Individual.moves this <> [] ->
  let r := calculateFitness this initialBoard in
  let visited := spec_replay (Individual.moves this) initialBoard in
  let final := last visited initialBoard in
  let moveCount := Z.of_nat (length visited) in
  let progressScore := progress_bonus (manhattanDistance initialBoard) visited in
  Individual.path r = initialBoard :: visited /\
  Individual.finalDistance r = Some (manhattanDistance final) /\
  (isGoalState final = true ->
     Individual.fitness r = 10000 - moveCount /\
     Individual.reachedGoal r = true) /\
  (isGoalState final = false ->
     Individual.fitness r =
       1000 - 10 * manhattanDistance final - 5 * tilesOutOfPlace final
       - moveCount + progressScore /\
     Individual.reachedGoal r = false) /\
  ((forall b, In b (initialBoard :: visited) -> isGoalState b = false) ->
     Individual.fitness r < 10000).
Proof.
  intros Hv Hflag Hne r visited final moveCount progressScore.
  pose proof (replay_inv_preserved initialBoard (Individual.moves this) _
                (replay_start_inv this initialBoard Hv)) as Hinv.
  pose proof (replay_flag (Individual.moves this) (replay_start this initialBoard)
                (or_introl Hne)) as Hfl.
  pose proof (replay_path_spec (Individual.moves this)
                (replay_start this initialBoard) Hv) as Hspec.
  cbn [replay_start Replay.reachedGoal] in Hfl. fold (replay_start this initialBoard) in Hfl.
  rewrite Hflag in Hfl. cbn [orb] in Hfl.
  cbn [replay_start Replay.path Replay.currentBoard app] in Hspec.
  fold (replay_start this initialBoard) in Hspec. fold visited in Hspec.
  set (st := replay (Individual.moves this) (replay_start this initialBoard)) in *.
  destruct Hinv as (visited' & Hp & Hlast & Hval & Hch & Hmc & Hps & Hmin).
  assert (Hvis : visited' = visited) by congruence. subst visited'.
  assert (Hpath : Individual.path r = Replay.path st) by reflexivity.
  assert (Hfinal : final = Replay.currentBoard st).
  { rewrite <- Hlast, Hp. unfold final. clearbody visited.
    clear. revert initialBoard. induction visited as [|x v IH]; intros b0;
      [reflexivity|].
    destruct v as [|y v]; [reflexivity|].
    change (last (x :: y :: v) b0) with (last (y :: v) b0).
    change (last (b0 :: x :: y :: v) b0) with (last (x :: y :: v) b0).
    change (last (x :: y :: v) b0) with (last (y :: v) b0).
    reflexivity. }
  assert (Hcount : moveCount = Replay.moveCount st) by (now rewrite Hmc).
  assert (Hprog : progressScore = Replay.progressScore st) by (now rewrite Hps).
  assert (Hfit : Individual.fitness r =
                 if Replay.reachedGoal st then 10000 - Replay.moveCount st
                 else 1000 - manhattanDistance (Replay.currentBoard st) * 10
                      - tilesOutOfPlace (Replay.currentBoard st) * 5
                      - Replay.moveCount st + Replay.progressScore st)
    by reflexivity.
  assert (Hrg : Individual.reachedGoal r = Replay.reachedGoal st) by reflexivity.
  assert (Hnongoal : isGoalState final = false ->
     Individual.fitness r =
       1000 - 10 * manhattanDistance final - 5 * tilesOutOfPlace final
       - moveCount + progressScore /\
     Individual.reachedGoal r = false).
  { intros Hg. rewrite Hfinal in Hg. rewrite Hg in Hfl.
    rewrite Hfit, Hrg, Hfl, Hfinal, Hcount, Hprog. split; [lia|reflexivity]. }
  split; [|split; [|split; [|split]]].
  - now rewrite Hpath.
  - unfold r, calculateFitness. cbn [Individual.finalDistance].
    fold st. now rewrite Hfinal.
  - intros Hg. rewrite Hfinal in Hg. rewrite Hg in Hfl.
    rewrite Hfit, Hrg, Hfl, Hcount. split; reflexivity.
  - exact Hnongoal.
  - intros Hnever.
    assert (Hg : isGoalState final = false).
    { apply Hnever. rewrite Hfinal, <- Hlast, Hp.
      destruct (@exists_last _ (initialBoard :: visited)) as (l' & a & Heq);
        [discriminate|].
      rewrite Heq, last_last. apply in_or_app. right. now left. }
    destruct (Hnongoal Hg) as [-> _].
    rewrite Hprog, Hps, Hcount, Hmc.
    pose proof (bonus_of_distances_bound (map manhattanDistance visited)
                  (manhattanDistance initialBoard)) as Hb.
    fold (progress_bonus (manhattanDistance initialBoard) visited) in Hb.
    fold (running_min (manhattanDistance initialBoard) visited) in Hb.
    pose proof (running_min_nonneg visited _ (manhattanDistance_nonneg initialBoard)).
    pose proof (manhattanDistance_bound initialBoard Hv).
    pose proof (manhattanDistance_nonneg final).
    pose proof (tilesOutOfPlace_nonneg final).
    lia.
Qed.

(** Witness of C2.  From the board one move short of the goal, the
    chromosome DOWN, LEFT, RIGHT, RIGHT, UP is replayed as: DOWN blocked,
    three moves, stop on the goal before UP; fitness 10000 - 3.  From the
    board two moves short of the goal, RIGHT, UP makes two moves, the first
    a new minimum of the distance, and ends off the goal with distance 2 and
    2 tiles out of place: fitness 1000 - 20 - 10 - 2 + 10. *)
Lemma calculateFitness_formula_witness :
  (Individual.path
     (calculateFitness (Individual_new ["DOWN"; "LEFT"; "RIGHT"; "RIGHT"; "UP"]%string)
                       [1; 2; 3; 4; 5; 6; 7; 0; 8])
   = [[1; 2; 3; 4; 5; 6; 7; 0; 8]; [1; 2; 3; 4; 5; 6; 0; 7; 8];
      [1; 2; 3; 4; 5; 6; 7; 0; 8]; [1; 2; 3; 4; 5; 6; 7; 8; 0]] /\
   Individual.fitness
     (calculateFitness (Individual_new ["DOWN"; "LEFT"; "RIGHT"; "RIGHT"; "UP"]%string)
                       [1; 2; 3; 4; 5; 6; 7; 0; 8]) = 9997 /\
   Individual.reachedGoal
     (calculateFitness (Individual_new ["DOWN"; "LEFT"; "RIGHT"; "RIGHT"; "UP"]%string)
                       [1; 2; 3; 4; 5; 6; 7; 0; 8]) = true) /\
  (Individual.path
     (calculateFitness (Individual_new ["RIGHT"; "UP"]%string)
                       [1; 2; 3; 4; 5; 6; 0; 7; 8])
   = [[1; 2; 3; 4; 5; 6; 0; 7; 8]; [1; 2; 3; 4; 5; 6; 7; 0; 8];
      [1; 2; 3; 4; 0; 6; 7; 5; 8]] /\
   Individual.fitness
     (calculateFitness (Individual_new ["RIGHT"; "UP"]%string)
                       [1; 2; 3; 4; 5; 6; 0; 7; 8]) = 978 /\
   Individual.reachedGoal
     (calculateFitness (Individual_new ["RIGHT"; "UP"]%string)
                       [1; 2; 3; 4; 5; 6; 0; 7; 8]) = false).
Proof.
  assert (Hv1 : valid_board [1; 2; 3; 4; 5; 6; 7; 0; 8]).
  { unfold valid_board, GOAL_STATE. do 7 apply perm_skip. apply perm_swap. }
  assert (Hv2 : valid_board [1; 2; 3; 4; 5; 6; 0; 7; 8]).
  { unfold valid_board, GOAL_STATE. do 6 apply perm_skip.
    apply (Permutation_cons_append [7; 8] 0). }
  split.
  - destruct (calculateFitness_formula
                (Individual_new ["DOWN"; "LEFT"; "RIGHT"; "RIGHT"; "UP"]%string)
                [1; 2; 3; 4; 5; 6; 7; 0; 8] Hv1 eq_refl ltac:(discriminate))
      as (Hpath & _ & Hgoal & _).
    split; [exact Hpath|]. apply Hgoal. reflexivity.
  - destruct (calculateFitness_formula
                (Individual_new ["RIGHT"; "UP"]%string)
                [1; 2; 3; 4; 5; 6; 0; 7; 8] Hv2 eq_refl ltac:(discriminate))
      as (Hpath & _ & _ & Hnon & _).
    split; [exact Hpath|]. apply Hnon. reflexivity.
Defined.

(** C10. For every valid initial board and every chromosome, the path that
    [calculateFitness] leaves in the individual is not empty, starts with the
    initial board, is a chain of legal moves (each board is one of the boards
    [getValidMoves] produces from the board before it), and ends on the goal
    state whenever [reachedGoal] is set. *)
Theorem calculateFitness_path (initialBoard : Board) (chromosome : list string) :
  valid_board initialBoard ->
  let r := calculateFitness (Individual_new chromosome) initialBoard in
  Individual.path r <> [] /\
  hd_error (Individual.path r) = Some initialBoard /\
  move_chain (Individual.path r) /\
  (Individual.reachedGoal r = true ->
   last (Individual.path r) initialBoard = GOAL_STATE).
Proof.
  intros Hv r.
  set (this := Individual_new chromosome).
  pose proof (replay_inv_preserved initialBoard chromosome _
                (replay_start_inv this initialBoard Hv)) as Hinv.
  set (st := replay chromosome (replay_start this initialBoard)) in *.
  assert (Hpath : Individual.path r = Replay.path st) by reflexivity.
  assert (Hrg : Individual.reachedGoal r = Replay.reachedGoal st) by reflexivity.
  destruct Hinv as (visited & Hp & Hlast & Hval & Hch & _).
  rewrite Hpath, Hrg. repeat split.
  - rewrite Hp. discriminate.
  - now rewrite Hp.
  - exact Hch.
  - intros Hflag. rewrite Hlast.
    apply isGoalState_valid;
      [|apply (replay_flag_goal chromosome (replay_start this initialBoard));
        [reflexivity|exact Hflag]].
    rewrite <- Hlast. rewrite Forall_forall in Hval. apply Hval.
    rewrite Hp.
    destruct (@exists_last _ (initialBoard :: visited)) as (l' & a & Heq);
      [discriminate|].
    rewrite Heq, last_last. apply in_or_app. right. now left.
Qed.

(** Witness of C10: one move from the goal, solved by the gene RIGHT. *)
Lemma calculateFitness_path_witness :
  last (Individual.path
          (calculateFitness (Individual_new ["RIGHT"%string]) [1; 2; 3; 4; 5; 6; 7; 0; 8]))
       [1; 2; 3; 4; 5; 6; 7; 0; 8] = GOAL_STATE.
Proof.
  assert (Hv : valid_board [1; 2; 3; 4; 5; 6; 7; 0; 8]).
  { unfold valid_board, GOAL_STATE.
    do 7 apply perm_skip. apply perm_swap. }
  destruct (calculateFitness_path [1; 2; 3; 4; 5; 6; 7; 0; 8] ["RIGHT"%string] Hv)
    as (_ & _ & _ & Hlast).
  apply Hlast. reflexivity.
Defined.

(* ------------------------------------------------------------------ *)
(** ** Random draws *)
(* ------------------------------------------------------------------ *)

Lemma floor_scaled_range (r : Q) (len : nat) :
  (0 <= r)%Q -> (r < 1)%Q ->
  0 <= Qfloor (r * inject_Z (Z.of_nat len)) /\
  ((0 < len)%nat -> Qfloor (r * inject_Z (Z.of_nat len)) < Z.of_nat len) /\
  (len = 0%nat -> Qfloor (r * inject_Z (Z.of_nat len)) = 0).
Proof.
  intros H0 H1.
  assert (Hlen : (0 <= inject_Z (Z.of_nat len))%Q).
  { change 0%Q with (inject_Z 0). rewrite <- Zle_Qle. lia. }
  split; [|split].
  - change 0 with (Qfloor (inject_Z 0)) at 1.
    apply Qfloor_resp_le. change (inject_Z 0) with 0%Q.
    now apply Qmult_le_0_compat.
  - intros Hpos. rewrite Zlt_Qlt.
    eapply Qle_lt_trans; [apply Qfloor_le|].
    assert (Hl : (0 < inject_Z (Z.of_nat len))%Q).
    { change 0%Q with (inject_Z 0). rewrite <- Zlt_Qlt. lia. }
    rewrite <- (Qmult_1_l (inject_Z (Z.of_nat len))) at 2.
    now apply Qmult_lt_compat_r.
  - intros ->. cbn [Z.of_nat].
    assert (Heq : (r * inject_Z 0 == inject_Z 0)%Q) by (unfold inject_Z; ring).
    rewrite Heq. apply Qfloor_Z.
Qed.

Lemma random_index_spec (rnd : nat -> Q) (len n : nat) :
  rnd_ok rnd ->
  exists i, random_index len rnd n = Ok i (S n) /\
            0 <= i /\ ((0 < len)%nat -> i < Z.of_nat len) /\
            (len = 0%nat -> i = 0).
Proof.
  intros Hok. destruct (Hok n) as [H0 H1].
  eexists. split; [reflexivity|].
  now apply floor_scaled_range.
Qed.

Lemma read_at_in_range {A} (arr : list A) (i : Z) :
  0 <= i < Z.of_nat (length arr) ->
  exists x, read_at arr i = Some x /\ In x arr.
Proof.
  intros Hi. unfold read_at.
  destruct (Z.ltb_spec i 0); [lia|].
  destruct (nth_error arr (Z.to_nat i)) as [x|] eqn:Hn.
  - exists x. split; [reflexivity|]. eapply nth_error_In; eassumption.
  - apply nth_error_None in Hn. lia.
Qed.

(* ------------------------------------------------------------------ *)
(** ** Crossover *)
(* ------------------------------------------------------------------ *)

Lemma slice_bound_nonneg {A} (arr : list A) (k : Z) :
  0 <= k -> slice_bound arr k = Z.to_nat k.
Proof. intros Hk. unfold slice_bound. destruct (Z.ltb_spec k 0); [lia|reflexivity]. Qed.

Lemma crossover_moves_spec (this other : Individual.t) (p : Z) :
  0 <= p ->
  crossover_moves this other p =
  firstn (Z.to_nat p) (Individual.moves this)
  ++ skipn (Z.to_nat p) (Individual.moves other).
Proof.
  intros Hp. unfold crossover_moves, slice_to, slice_from.
  now rewrite !slice_bound_nonneg.
Qed.

Lemma crossover_heap_run (rnd : nat -> Q) (n : nat) (h : Heap.t string)
      (thisMoves otherMoves : nat) :
  (thisMoves < length h)%nat -> (otherMoves < length h)%nat ->
  let p := Qfloor (rnd n * inject_Z (Z.of_nat
             (Nat.min (length (Heap.read h thisMoves))
                      (length (Heap.read h otherMoves))))) in
  let prefix := slice_to (Heap.read h thisMoves) p in
  let suffix := slice_from (Heap.read h otherMoves) p in
  crossover_heap h thisMoves otherMoves rnd n =
  Ok (h ++ [prefix; suffix; prefix ++ suffix], (length h + 2)%nat) (S n).
Proof.
  intros Ht Ho p prefix suffix.
  unfold crossover_heap, bind, random_index, bind, random, ret, Heap.alloc.
  fold p. fold prefix.
  rewrite (heap_read_app_l h [prefix] otherMoves Ho). fold suffix.
  assert (H1 : Heap.read ((h ++ [prefix]) ++ [suffix]) (length h) = prefix).
  { rewrite <- app_assoc. replace (length h) with (length h + 0)%nat by lia.
    now rewrite heap_read_app_r. }
  assert (H2 : Heap.read ((h ++ [prefix]) ++ [suffix]) (length (h ++ [prefix])) = suffix).
  { replace (length (h ++ [prefix])) with (length (h ++ [prefix]) + 0)%nat by lia.
    now rewrite heap_read_app_r. }
  rewrite H1, H2. f_equal.
  f_equal.
  - rewrite <- !app_assoc. reflexivity.
  - rewrite !length_app. cbn [length]. lia.
Qed.

(** C7. For every pair of parents and every crossover point in
    [0, min (len parent1, len parent2)): the offspring chromosome is
    parent1's genes before the point followed by parent2's genes from the
    point on; its length is [point + (len parent2 - point)], that is
    parent2's length, and it does not depend on parent1's genes from the
    point on.  The point [crossover] draws is in that range (when the range
    is not empty), and, over the store of arrays, [crossover] writes to no
    array that existed before the call: both parents' chromosomes are
    unchanged and the offspring's chromosome is a fresh array. *)
Theorem crossover_offspring (this other : Individual.t) :
  let len1 := length (Individual.moves this) in
  let len2 := length (Individual.moves other) in
  (forall point : Z,
     0 <= point < Z.of_nat (Nat.min len1 len2) ->
     crossover_moves this other point =
       firstn (Z.to_nat point) (Individual.moves this)
       ++ skipn (Z.to_nat point) (Individual.moves other) /\
     length (crossover_moves this other point) =
       (Z.to_nat point + (len2 - Z.to_nat point))%nat /\
     length (crossover_moves this other point) = len2 /\
     (forall this' : Individual.t,
        firstn (Z.to_nat point) (Individual.moves this') =
        firstn (Z.to_nat point) (Individual.moves this) ->
        crossover_moves this' other point = crossover_moves this other point)) /\
  (forall (rnd : nat -> Q) (n : nat),
     rnd_ok rnd -> (0 < Nat.min len1 len2)%nat ->
     exists point,
       0 <= point < Z.of_nat (Nat.min len1 len2) /\
       crossover this other rnd n =
         Ok (Individual_new (crossover_moves this other point)) (S n) /\
       forall (h : Heap.t string) (thisMoves otherMoves : nat),
         (thisMoves < length h)%nat -> (otherMoves < length h)%nat ->
         Heap.read h thisMoves = Individual.moves this ->
         Heap.read h otherMoves = Individual.moves other ->
         exists h' newMoves,
           crossover_heap h thisMoves otherMoves rnd n = Ok (h', newMoves) (S n) /\
           (forall a, (a < length h)%nat -> Heap.read h' a = Heap.read h a) /\
           (length h <= newMoves)%nat /\
           Heap.read h' newMoves = crossover_moves this other point).
Proof.
  intros len1 len2. split.
  - intros point Hp.
    assert (Hmoves := crossover_moves_spec this other point (proj1 Hp)).
    assert (Hlen : length (crossover_moves this other point) =
                   (Z.to_nat point + (len2 - Z.to_nat point))%nat).
    { rewrite Hmoves, length_app, length_firstn, length_skipn.
      fold len1 len2. lia. }
    repeat split.
    + exact Hmoves.
    + exact Hlen.
    + rewrite Hlen. lia.
    + intros this' Hpre. rewrite Hmoves.
      rewrite (crossover_moves_spec this' other point (proj1 Hp)).
      now rewrite Hpre.
  - intros rnd n Hok Hpos.
    destruct (random_index_spec rnd (Nat.min len1 len2) n Hok)
      as (point & Hdraw & H0 & Hlt & _).
    exists point. split; [split; [exact H0|now apply Hlt]|]. split.
    + unfold crossover, bind. fold len1 len2. rewrite Hdraw. reflexivity.
    + intros h thisMoves otherMoves Ht Ho Hrt Hro.
      pose proof (crossover_heap_run rnd n h thisMoves otherMoves Ht Ho) as Hrun.
      cbv zeta in Hrun. rewrite Hrt, Hro in Hrun. fold len1 len2 in Hrun.
      assert (Hpt : point = Qfloor (rnd n * inject_Z (Z.of_nat (Nat.min len1 len2)))).
      { unfold random_index, bind, random, ret in Hdraw. now injection Hdraw. }
      rewrite <- Hpt in Hrun.
      eexists _, _. split; [exact Hrun|]. repeat split.
      * intros a Ha. now rewrite heap_read_app_l.
      * lia.
      * rewrite (heap_read_app_r h _ 2). reflexivity.
Qed.

(** Witness of C7: a crossover at point 1 of two three-gene parents. *)
Lemma crossover_offspring_witness :
  crossover_moves (Individual_new ["UP"; "UP"; "UP"]%string)
                  (Individual_new ["LEFT"; "DOWN"; "RIGHT"]%string) 1
  = ["UP"; "DOWN"; "RIGHT"]%string.
Proof.
  destruct (crossover_offspring (Individual_new ["UP"; "UP"; "UP"]%string)
                                (Individual_new ["LEFT"; "DOWN"; "RIGHT"]%string))
    as [Hpoint _].
  destruct (Hpoint 1) as [Hmoves _]; [cbn; lia|].
  rewrite Hmoves. reflexivity.
Defined.

(* ------------------------------------------------------------------ *)
(** ** Sorting *)
(* ------------------------------------------------------------------ *)

Lemma sort_insert_perm {A} (cmp : A -> A -> Z) (x : A) (l : list A) :
  Permutation (sort_insert cmp x l) (x :: l).
Proof.
  induction l as [|y t IH]; cbn [sort_insert]; [reflexivity|].
  destruct (cmp x y <=? 0); [reflexivity|].
  etransitivity; [apply perm_skip, IH|apply perm_swap].
Qed.

Lemma js_sort_perm {A} (cmp : A -> A -> Z) (l : list A) :
  Permutation (js_sort cmp l) l.
Proof.
  induction l as [|x t IH]; cbn [js_sort fold_right]; [reflexivity|].
  etransitivity; [apply sort_insert_perm|apply perm_skip, IH].
Qed.

Lemma js_sort_length {A} (cmp : A -> A -> Z) (l : list A) :
  length (js_sort cmp l) = length l.
Proof. apply Permutation_length, js_sort_perm. Qed.

(* ------------------------------------------------------------------ *)
(** ** The operators of the genetic solver never throw on a population
       that is not empty *)
(* ------------------------------------------------------------------ *)

Lemma generateRandomMoves_loop_ok (rnd : nat -> Q) (k : nat) :
  forall moves n, exists moves' n',
    generateRandomMoves_loop k moves rnd n = Ok moves' n'.
Proof.
  induction k as [|k IH]; intros moves n; cbn [generateRandomMoves_loop].
  - eexists _, _. reflexivity.
  - unfold bind at 1. unfold random_index, bind, random, ret. apply IH.
Qed.

Lemma initial_population_ok (rnd : nat -> Q) (k : nat) :
  forall n, exists population n',
    initial_population k rnd n = Ok population n' /\ length population = k.
Proof.
  induction k as [|k IH]; intros n; cbn [initial_population].
  - eexists _, _. split; reflexivity.
  - unfold bind at 1. unfold Individual_random, bind at 1.
    destruct (generateRandomMoves_loop_ok rnd maxMoves [] n) as (mv & n1 & Hmv).
    unfold generateRandomMoves. rewrite Hmv. unfold ret at 1.
    unfold bind at 1.
    destruct (IH n1) as (pop & n2 & Hpop & Hlen). rewrite Hpop.
    eexists _, _. split; [reflexivity|]. cbn [length]. now rewrite Hlen.
Qed.

Lemma initial_population_length (rnd : nat -> Q) (k : nat) :
  forall n population n',
    initial_population k rnd n = Ok population n' -> length population = k.
Proof.
  intros n population n' H.
  destruct (initial_population_ok rnd k n) as (pop & n2 & Hpop & Hlen).
  congruence.
Qed.

Lemma mutate_loop_ok (rnd : nat -> Q) (rate : Q) (k : nat) :
  forall i moves n, exists moves' n',
    mutate_loop k i moves rate rnd n = Ok moves' n'.
Proof.
  induction k as [|k IH]; intros i moves n; cbn [mutate_loop].
  - eexists _, _. reflexivity.
  - unfold bind at 1. unfold random.
    destruct (Qlt_bool (rnd n) rate).
    + unfold bind at 1. unfold random_index, bind, random, ret. apply IH.
    + apply IH.
Qed.

Lemma mutate_ok (rnd : nat -> Q) (this : Individual.t) (rate : Q) (n : nat) :
  exists ind n', mutate this rate rnd n = Ok ind n'.
Proof.
  unfold mutate, bind.
  destruct (mutate_loop_ok rnd rate (length (Individual.moves this)) 0
                           (Individual.moves this) n) as (mv & n' & H).
  rewrite H. eexists _, _. reflexivity.
Qed.

Lemma tournament_loop_ok (rnd : nat -> Q) (population : list Individual.t) :
  rnd_ok rnd -> population <> [] ->
  forall k best n, In best population ->
    exists winner n',
      tournament_loop k population (Some best) rnd n = Ok (Some winner) n' /\
      In winner population.
Proof.
  intros Hok Hne. induction k as [|k IH]; intros best n Hin;
    cbn [tournament_loop].
  - eexists _, _. split; [reflexivity|exact Hin].
  - unfold bind at 1.
    destruct (random_index_spec rnd (length population) n Hok)
      as (i & Hdraw & H0 & Hlt & _).
    rewrite Hdraw.
    assert (Hlen : (0 < length population)%nat)
      by (destruct population; [congruence|cbn; lia]).
    destruct (read_at_in_range population i (conj H0 (Hlt Hlen)))
      as (c & Hrd & Hc).
    rewrite Hrd.
    destruct (Individual.fitness c >? Individual.fitness best); now apply IH.
Qed.

Lemma selectParent_ok (rnd : nat -> Q) (population : list Individual.t)
      (k n : nat) :
  rnd_ok rnd -> population <> [] ->
  exists parent n',
    selectParent population k rnd n = Ok (Some parent) n' /\ In parent population.
Proof.
  intros Hok Hne. unfold selectParent, bind.
  destruct (random_index_spec rnd (length population) n Hok)
    as (i & Hdraw & H0 & Hlt & _).
  rewrite Hdraw.
  assert (Hlen : (0 < length population)%nat)
    by (destruct population; [congruence|cbn; lia]).
  destruct (read_at_in_range population i (conj H0 (Hlt Hlen))) as (c & Hrd & Hc).
  rewrite Hrd. now apply tournament_loop_ok.
Qed.

Lemma crossover_ok (rnd : nat -> Q) (this other : Individual.t) (n : nat) :
  exists child, crossover this other rnd n = Ok child (S n).
Proof. eexists. reflexivity. Qed.

Lemma make_offspring_ok (rnd : nat -> Q) (config : GeneticConfig)
      (population : list Individual.t) (n : nat) :
  rnd_ok rnd -> population <> [] ->
  exists offspring n', make_offspring config population rnd n = Ok offspring n'.
Proof.
  intros Hok Hne. unfold make_offspring.
  destruct (selectParent_ok rnd population tournamentSize n Hok Hne)
    as (p1 & n1 & Hp1 & _).
  unfold bind at 1. rewrite Hp1.
  destruct (selectParent_ok rnd population tournamentSize n1 Hok Hne)
    as (p2 & n2 & Hp2 & _).
  unfold bind at 1. rewrite Hp2.
  unfold bind at 1. unfold random.
  unfold bind at 1.
  destruct (Qlt_bool (rnd n2) (crossoverRate config)).
  - destruct (crossover_ok rnd p1 p2 (S n2)) as (child & Hc). rewrite Hc.
    apply mutate_ok.
  - unfold ret at 1. apply mutate_ok.
Qed.

(* ------------------------------------------------------------------ *)
(** ** The Reproduce step *)
(* ------------------------------------------------------------------ *)

Lemma skipn_nth_error_cons {A} (l : list A) (i : nat) (x : A) :
  nth_error l i = Some x -> skipn i l = x :: skipn (S i) l.
Proof.
  revert i; induction l as [|y t IH]; intros [|i] H; cbn in H; try discriminate.
  - now injection H as ->.
  - cbn [skipn]. rewrite (IH i H). reflexivity.
Qed.

Lemma elites_loop_spec (config : GeneticConfig) (population : list Individual.t) :
  forall fuel acc i,
    (i + fuel = elitismCount config)%nat ->
    elites_loop fuel config population acc i =
    acc ++ map clone (firstn fuel (skipn i population)).
Proof.
  induction fuel as [|fuel IH]; intros acc i Hsum; cbn [elites_loop].
  - cbn. now rewrite app_nil_r.
  - assert (Hi : (i <? elitismCount config)%nat = true)
      by (apply Nat.ltb_lt; lia).
    rewrite Hi. cbn [andb].
    destruct (Nat.ltb_spec i (length population)) as [Hlt|Hge].
    + destruct (nth_error population i) as [ind|] eqn:Hn.
      * rewrite IH by lia. rewrite (skipn_nth_error_cons population i ind Hn).
        cbn [firstn map]. rewrite <- app_assoc. reflexivity.
      * apply nth_error_None in Hn. lia.
    + rewrite skipn_all2 by lia. rewrite firstn_nil. cbn. now rewrite app_nil_r.
Qed.

Lemma elites_spec (config : GeneticConfig) (population : list Individual.t) :
  elites_loop (elitismCount config) config population [] 0 =
  map clone (firstn (elitismCount config) population).
Proof. now rewrite elites_loop_spec by lia. Qed.

(** Whatever the loop returns has the target size and starts with the
    individuals already there. *)
Lemma offspring_loop_result (rnd : nat -> Q) (config : GeneticConfig)
      (population : list Individual.t) :
  forall fuel newPopulation n result n',
    offspring_loop fuel config population newPopulation rnd n = Ok result n' ->
    length result = Nat.max (length newPopulation) (populationSize config) /\
    firstn (length newPopulation) result = newPopulation.
Proof.
  induction fuel as [|fuel IH]; intros newPopulation n result n' H;
    cbn [offspring_loop] in H;
    destruct (Nat.ltb_spec (length newPopulation) (populationSize config)) as [Hlt|Hge].
  - discriminate H.
  - injection H as <- _. split; [lia|]. apply firstn_all.
  - unfold bind in H.
    destruct (make_offspring config population rnd n) as [o n1| |];
      try discriminate H.
    apply IH in H. destruct H as [Hlen Hpre].
    rewrite length_app in Hlen, Hpre. cbn [length] in Hlen, Hpre.
    split; [lia|].
    assert (Hf : firstn (length newPopulation) (firstn (length newPopulation + 1) result)
                 = firstn (length newPopulation) (newPopulation ++ [o]))
      by now rewrite Hpre.
    rewrite firstn_firstn in Hf.
    replace (Nat.min (length newPopulation) (length newPopulation + 1))
      with (length newPopulation) in Hf by lia.
    rewrite Hf. rewrite firstn_app, Nat.sub_diag, firstn_all. cbn.
    now rewrite app_nil_r.
  - injection H as <- _. split; [lia|]. apply firstn_all.
Qed.

(** With enough fuel, and a population to select parents from, the loop
    returns. *)
Lemma offspring_loop_ok (rnd : nat -> Q) (config : GeneticConfig)
      (population : list Individual.t) :
  rnd_ok rnd -> population <> [] ->
  forall fuel newPopulation n,
    (populationSize config - length newPopulation <= fuel)%nat ->
    exists result n',
      offspring_loop fuel config population newPopulation rnd n = Ok result n'.
Proof.
  intros Hok Hne.
  induction fuel as [|fuel IH]; intros newPopulation n Hfuel;
    cbn [offspring_loop];
    destruct (Nat.ltb_spec (length newPopulation) (populationSize config)) as [Hlt|Hge];
    try (eexists _, _; reflexivity).
  - lia.
  - unfold bind.
    destruct (make_offspring_ok rnd config population n Hok Hne) as (o & n1 & Ho).
    rewrite Ho. apply IH. rewrite length_app. cbn [length]. lia.
Qed.

Lemma reproduce_result (rnd : nat -> Q) (config : GeneticConfig)
      (population newPopulation : list Individual.t) (n n' : nat) :
  length population = populationSize config ->
  reproduce config population rnd n = Ok newPopulation n' ->
  length newPopulation = populationSize config /\
  firstn (Nat.min (elitismCount config) (populationSize config)) newPopulation =
  map clone (firstn (elitismCount config) population).
Proof.
  intros Hlen H. unfold reproduce in H. rewrite elites_spec in H.
  apply offspring_loop_result in H. destruct H as [Hl Hpre].
  rewrite length_map, length_firstn, Hlen in Hl, Hpre.
  split; [lia|exact Hpre].
Qed.

Lemma reproduce_ok (rnd : nat -> Q) (config : GeneticConfig)
      (population : list Individual.t) (n : nat) :
  rnd_ok rnd -> length population = populationSize config ->
  exists newPopulation n', reproduce config population rnd n = Ok newPopulation n'.
Proof.
  intros Hok Hlen. unfold reproduce.
  destruct population as [|ind rest].
  - cbn [length] in Hlen. rewrite elites_spec, firstn_nil. cbn [map length].
    exists [], n.
    assert (Hdone : (length (@nil Individual.t) <? populationSize config)%nat = false)
      by (apply Nat.ltb_ge; cbn [length]; lia).
    destruct (populationSize config - 0)%nat; cbn [offspring_loop];
      rewrite Hdone; reflexivity.
  - apply offspring_loop_ok; [exact Hok|discriminate|lia].
Qed.

(* ------------------------------------------------------------------ *)
(** ** The generation loop *)
(* ------------------------------------------------------------------ *)

Lemma evaluated_sorted_length (initialBoard : Board)
      (population : list Individual.t) :
  length (js_sort by_fitness_desc
            (map (fun ind => calculateFitness ind initialBoard) population))
  = length population.
Proof. now rewrite js_sort_length, length_map. Qed.

Lemma generation_body_next (rnd : nat -> Q) (config : GeneticConfig)
      (initialBoard : Board) (population : list Individual.t)
      (bestOverall : option Individual.t) (n : nat)
      (newPopulation : list Individual.t) (bestOverall' : option Individual.t)
      (n' : nat) :
  length population = populationSize config ->
  generation_body config initialBoard population bestOverall rnd n
    = Ok (NextGen newPopulation bestOverall') n' ->
  length newPopulation = populationSize config /\ bestOverall' <> None.
Proof.
  intros Hlen H. unfold generation_body in H.
  pose proof (evaluated_sorted_length initialBoard population) as Hs.
  destruct (js_sort by_fitness_desc
              (map (fun ind => calculateFitness ind initialBoard) population))
    as [|currentBest rest] eqn:Hsorted; [discriminate H|].
  destruct (Individual.reachedGoal currentBest); [discriminate H|].
  unfold bind in H.
  destruct (reproduce config (currentBest :: rest) rnd n) as [p n1| |] eqn:Hr;
    try discriminate H.
  injection H as <- <- _.
  apply reproduce_result in Hr; [|now rewrite Hs].
  split; [apply Hr|discriminate].
Qed.

Lemma generation_body_ok (rnd : nat -> Q) (config : GeneticConfig)
      (initialBoard : Board) (population : list Individual.t)
      (bestOverall : option Individual.t) (n : nat) :
  rnd_ok rnd ->
  length population = populationSize config -> (0 < populationSize config)%nat ->
  exists out n',
    generation_body config initialBoard population bestOverall rnd n = Ok out n'.
Proof.
  intros Hok Hlen Hpos. unfold generation_body.
  pose proof (evaluated_sorted_length initialBoard population) as Hs.
  destruct (js_sort by_fitness_desc
              (map (fun ind => calculateFitness ind initialBoard) population))
    as [|currentBest rest] eqn:Hsorted; [cbn [length] in Hs; lia|].
  destruct (Individual.reachedGoal currentBest).
  - eexists _, _. reflexivity.
  - unfold bind.
    destruct (reproduce_ok rnd config (currentBest :: rest) n Hok) as (p & n1 & Hr);
      [now rewrite Hs|].
    rewrite Hr. eexists _, _. reflexivity.
Qed.

Lemma generations_loop_ok (rnd : nat -> Q) (config : GeneticConfig)
      (initialBoard : Board) :
  rnd_ok rnd -> (0 < populationSize config)%nat ->
  forall fuel generation population bestOverall n,
    length population = populationSize config ->
    (maxGenerations config - generation <= fuel)%nat ->
    (generation < maxGenerations config)%nat \/ bestOverall <> None ->
    exists ind n',
      generations_loop fuel config initialBoard generation population bestOverall
                       rnd n = Ok (Some ind) n'.
Proof.
  intros Hok Hpos.
  induction fuel as [|fuel IH]; intros generation population bestOverall n
    Hlen Hfuel Hbest; cbn [generations_loop];
    destruct (Nat.ltb_spec generation (maxGenerations config)) as [Hlt|Hge].
  - lia.
  - destruct Hbest as [Hlt|Hsome]; [lia|].
    destruct bestOverall as [b|]; [|congruence]. eexists _, _. reflexivity.
  - unfold bind.
    destruct (generation_body_ok rnd config initialBoard population bestOverall n
                Hok Hlen Hpos) as (out & n1 & Hout).
    rewrite Hout. destruct out as [currentBest|newPopulation bestOverall'].
    + eexists _, _. reflexivity.
    + destruct (generation_body_next _ _ _ _ _ _ _ _ _ Hlen Hout) as [Hl Hb].
      apply IH; [exact Hl|lia|right; exact Hb].
  - destruct Hbest as [Hlt|Hsome]; [lia|].
    destruct bestOverall as [b|]; [|congruence]. eexists _, _. reflexivity.
Qed.

(** With no generation to run the loop body is never entered and the
    initial [null] is returned. *)
Lemma generations_loop_none (rnd : nat -> Q) (config : GeneticConfig)
      (initialBoard : Board) (fuel : nat) (population : list Individual.t)
      (n : nat) :
  maxGenerations config = 0%nat ->
  generations_loop fuel config initialBoard 0 population None rnd n = Ok None n.
Proof.
  intros H0.
  assert (Hg : (0 <? maxGenerations config)%nat = false)
    by (apply Nat.ltb_ge; lia).
  destruct fuel; cbn [generations_loop]; rewrite Hg; reflexivity.
Qed.

(** C3, as the code has it.  For every initial board and every
    configuration with at least one generation to run, [solvePuzzleGenetic]
    returns an individual whenever [populationSize > 0]; with
    [maxGenerations = 0] the generation loop is never entered and the result
    is [null], whatever the population size. *)
Theorem solvePuzzleGenetic_returns (rnd : nat -> Q) (initialBoard : Board)
        (config : GeneticConfig) (n : nat) :
  rnd_ok rnd ->
  ((0 < populationSize config)%nat -> (0 < maxGenerations config)%nat ->
   exists ind n', solvePuzzleGenetic initialBoard config rnd n = Ok (Some ind) n') /\
  (maxGenerations config = 0%nat ->
   exists n', solvePuzzleGenetic initialBoard config rnd n = Ok None n').
Proof.
  intros Hok. unfold solvePuzzleGenetic, bind.
  destruct (initial_population_ok rnd (populationSize config) n)
    as (population & n1 & Hpop & Hlen).
  rewrite Hpop. split.
  - intros Hpos Hgen.
    apply generations_loop_ok; [exact Hok|exact Hpos|exact Hlen|lia|left; exact Hgen].
  - intros H0. exists n1. now apply generations_loop_none.
Qed.

Lemma rnd_zero_ok : rnd_ok rnd_zero.
Proof. intros n. split; reflexivity || (unfold rnd_zero, Qle; cbn; lia). Qed.

(** Witness of C3: one individual, one generation. *)
Lemma solvePuzzleGenetic_returns_witness :
  exists ind n',
    solvePuzzleGenetic GOAL_STATE (mkConfig 1 1 (1 # 10) (8 # 10) 0) rnd_zero 0%nat
    = Ok (Some ind) n'.
Proof.
  destruct (solvePuzzleGenetic_returns rnd_zero GOAL_STATE
              (mkConfig 1 1 (1 # 10) (8 # 10) 0) 0%nat rnd_zero_ok) as [Hret _].
  apply Hret; cbn; lia.
Defined.

(** Counterexample to C3 as stated: a population of one, no generation to
    run, and the solver returns [null]. *)
Lemma solvePuzzleGenetic_null_with_population :
  (0 < populationSize config_no_generation)%nat /\
  solvePuzzleGenetic GOAL_STATE config_no_generation rnd_zero 0%nat = Ok None 50%nat.
Proof. split; [cbn; lia|reflexivity]. Qed.

(** C8. In [solvePuzzleGenetic] every population of the run, the initial
    one and every next generation the Reproduce step builds, has exactly
    [populationSize] members.  The Reproduce step returns for every
    population of that size; its result starts with the clones of the top
    individuals, [min (elitismCount, populationSize)] of them: with
    [elitismCount > populationSize] the elitism loop stops at the end of the
    population, so the elites never outnumber the population or the target
    size. *)
Theorem next_generation_size (rnd : nat -> Q) (config : GeneticConfig)
        (initialBoard : Board) :
  (forall population,
     run_population rnd config initialBoard population ->
     length population = populationSize config) /\
  (forall population n,
     rnd_ok rnd -> length population = populationSize config ->
     let elites := elites_loop (elitismCount config) config population [] 0 in
     elites = map clone (firstn (elitismCount config) population) /\
     length elites = Nat.min (elitismCount config) (populationSize config) /\
     (length elites <= length population)%nat /\
     (length elites <= populationSize config)%nat /\
     exists newPopulation n',
       reproduce config population rnd n = Ok newPopulation n' /\
       length newPopulation = populationSize config /\
       firstn (length elites) newPopulation = elites).
Proof.
  split.
  - intros population Hrun. induction Hrun as
      [population n n' Hinit
      |population bestOverall newPopulation bestOverall' n n' Hrun IH Hbody].
    + eapply initial_population_length, Hinit.
    + eapply generation_body_next; eassumption.
  - intros population n Hok Hlen elites.
    assert (Hel : elites = map clone (firstn (elitismCount config) population))
      by apply elites_spec.
    assert (Hcount : length elites =
                     Nat.min (elitismCount config) (populationSize config)).
    { rewrite Hel, length_map, length_firstn, Hlen. reflexivity. }
    split; [exact Hel|]. split; [exact Hcount|].
    split; [lia|]. split; [lia|].
    destruct (reproduce_ok rnd config population n Hok Hlen) as (p & n' & Hr).
    exists p, n'. split; [exact Hr|].
    destruct (reproduce_result rnd config population p n n' Hlen Hr) as [Hl Hpre].
    split; [exact Hl|]. rewrite Hcount, Hel. exact Hpre.
Qed.

(** Witness of C8: Reproduce on a population of one with two elites asked
    for. *)
Lemma next_generation_size_witness :
  exists newPopulation n',
    reproduce (mkConfig 1 1 (1 # 10) (8 # 10) 2) [Individual_new []] rnd_zero 0%nat
    = Ok newPopulation n' /\
    length newPopulation = 1%nat.
Proof.
  destruct (next_generation_size rnd_zero (mkConfig 1 1 (1 # 10) (8 # 10) 2)
              GOAL_STATE) as [_ Hrep].
  destruct (Hrep [Individual_new []] 0%nat rnd_zero_ok eq_refl)
    as (_ & _ & _ & _ & p & n' & Hr & Hl & _).
  exists p, n'. split; assumption.
Defined.

(** With an empty population and a generation to run, [currentBest] is
    [undefined] and the first generation throws. *)
Lemma solvePuzzleGenetic_empty_population_throws (rnd : nat -> Q)
      (initialBoard : Board) (config : GeneticConfig) (n : nat) :
  populationSize config = 0%nat -> (0 < maxGenerations config)%nat ->
  solvePuzzleGenetic initialBoard config rnd n = TypeError.
Proof.
  intros Hp Hg. unfold solvePuzzleGenetic. rewrite Hp.
  cbn [initial_population]. unfold bind at 1. unfold ret at 1.
  assert (Hlt : (0 <? maxGenerations config)%nat = true) by now apply Nat.ltb_lt.
  assert (Hgen : forall fuel, (0 < fuel)%nat ->
            generations_loop fuel config initialBoard 0 [] None rnd n = TypeError).
  { intros [|fuel] Hf; [lia|]. cbn [generations_loop]. rewrite Hlt. reflexivity. }
  apply Hgen, Hg.
Qed.

(* ------------------------------------------------------------------ *)
(** ** A* search: the loop terminates and never throws *)
(* ------------------------------------------------------------------ *)

Lemma closed_cap_nonneg : 0 <= closed_cap.
Proof. unfold closed_cap. lia. Qed.

Lemma validMoves_at_length (b : Board) (e : Z) :
  (length (validMoves_at b e) <= 4)%nat.
Proof.
  unfold validMoves_at.
  assert (Hgen : forall ds acc,
            (length (fold_left (validMoves_step b e) ds acc)
             <= length acc + length ds)%nat).
  { induction ds as [|d ds IH]; intros acc; cbn [fold_left length]; [lia|].
    etransitivity; [apply IH|].
    destruct d as [[dr dc] name]. unfold validMoves_step.
    destruct ((e / 3 + dr >=? 0) && (e / 3 + dr <? 3) &&
              (Z.rem e 3 + dc >=? 0) && (Z.rem e 3 + dc <? 3));
      rewrite ?length_app; cbn [length]; lia. }
  apply (Hgen directions []).
Qed.

Lemma expand_length (closedSet : list string) (current : PuzzleState.t)
      (openSet : list PuzzleState.t) :
  (length (expand closedSet current openSet) <= length openSet + 4)%nat.
Proof.
  unfold expand.
  pose proof (validMoves_at_length (PuzzleState.board current)
                (getEmptyIndex (PuzzleState.board current))) as Hm.
  fold (getValidMoves (PuzzleState.board current)) in Hm.
  revert Hm. generalize (getValidMoves (PuzzleState.board current)) as ms.
  intros ms Hm.
  assert (Hgen : forall ms acc,
            (length (fold_left (expand_step closedSet current) ms acc)
             <= length acc + length ms)%nat).
  { clear. induction ms as [|m ms IH]; intros acc; cbn [fold_left length]; [lia|].
    etransitivity; [apply IH|]. unfold expand_step.
    destruct (negb (set_has closedSet (toString (Move.board m))));
      rewrite ?length_app; cbn [length]; lia. }
  specialize (Hgen ms openSet). lia.
Qed.

Lemma set_add_new_length (s : list string) (k : string) :
  set_has s k = false -> length (set_add s k) = S (length s).
Proof.
  intros H. unfold set_add. rewrite H, length_app. cbn [length]. lia.
Qed.

(** One iteration of the loop, by cases. *)
Lemma astar_loop_step (fuel : nat) (openSet : list PuzzleState.t)
      (closedSet : list string) :
  match js_sort by_cost openSet with
  | [] => astar_loop (S fuel) openSet closedSet = Returned []
  | current :: rest =>
      astar_loop (S fuel) openSet closedSet =
      if isGoalState (PuzzleState.board current)
      then Returned (PuzzleState.path current)
      else if set_has closedSet (toString (PuzzleState.board current))
      then astar_loop fuel rest closedSet
      else if closed_cap <?
              Z.of_nat (length (set_add closedSet
                                  (toString (PuzzleState.board current))))
      then Returned []
      else astar_loop fuel
             (expand (set_add closedSet (toString (PuzzleState.board current)))
                     current rest)
             (set_add closedSet (toString (PuzzleState.board current)))
  end.
Proof.
  pose proof (js_sort_length by_cost openSet) as Hl.
  cbn [astar_loop].
  destruct (js_sort by_cost openSet) as [|current rest] eqn:Hs.
  - destruct openSet; [reflexivity|discriminate Hl].
  - destruct openSet; [discriminate Hl|]. reflexivity.
Qed.

Lemma astar_loop_returns :
  forall fuel openSet closedSet,
    Z.of_nat (length closedSet) <= closed_cap ->
    astar_measure openSet closedSet < Z.of_nat fuel ->
    exists p, astar_loop fuel openSet closedSet = Returned p.
Proof.
  induction fuel as [|fuel IH]; intros openSet closedSet Hcap Hfuel.
  - unfold astar_measure in Hfuel. lia.
  - pose proof (astar_loop_step fuel openSet closedSet) as Hstep.
    pose proof (js_sort_length by_cost openSet) as Hl.
    destruct (js_sort by_cost openSet) as [|current rest];
      [eexists; exact Hstep|].
    rewrite Hstep. cbn [length] in Hl.
    destruct (isGoalState (PuzzleState.board current)); [eexists; reflexivity|].
    destruct (set_has closedSet (toString (PuzzleState.board current))) eqn:Hhas.
    + apply IH; [exact Hcap|]. unfold astar_measure in *. lia.
    + pose proof (set_add_new_length _ _ Hhas) as Hadd.
      destruct (Z.ltb_spec closed_cap
                  (Z.of_nat (length (set_add closedSet
                                       (toString (PuzzleState.board current))))));
        [eexists; reflexivity|].
      apply IH; [assumption|].
      pose proof (expand_length
                    (set_add closedSet (toString (PuzzleState.board current)))
                    current rest).
      unfold astar_measure in *. lia.
Qed.

Lemma astar_fuel_enough (initialBoard : Board) :
  astar_measure [start_node initialBoard] [] < Z.of_nat astar_fuel.
Proof.
  unfold astar_measure, astar_fuel. pose proof closed_cap_nonneg.
  rewrite Z2Nat.id by lia. cbn [length]. lia.
Qed.

(* ------------------------------------------------------------------ *)
(** ** The Manhattan distance is consistent: one move changes it by one
       at most *)
(* ------------------------------------------------------------------ *)

Lemma manhattan_step_cell_cost (b : Board) (d : Z) (i : nat) :
  manhattan_step b d i = d + cell_cost i (get b i).
Proof.
  unfold manhattan_step, cell_cost. destruct (get b i =? 0); lia.
Qed.

Lemma manhattanDistance_cells (a0 a1 a2 a3 a4 a5 a6 a7 a8 : Z) :
  manhattanDistance [a0; a1; a2; a3; a4; a5; a6; a7; a8] =
  cell_cost 0 a0 + cell_cost 1 a1 + cell_cost 2 a2 + cell_cost 3 a3
  + cell_cost 4 a4 + cell_cost 5 a5 + cell_cost 6 a6 + cell_cost 7 a7
  + cell_cost 8 a8.
Proof.
  unfold manhattanDistance. cbn [seq fold_left].
  rewrite !manhattan_step_cell_cost. unfold get. cbn [nth]. lia.
Qed.

Lemma cell_cost_blank (i : nat) : cell_cost i 0 = 0.
Proof. reflexivity. Qed.

Lemma cell_cost_adjacent (e s : nat) (name : string) (v : Z) :
  In (s, name) (moves_table e) ->
  cell_cost s v <= cell_cost e v + 1 /\ cell_cost e v <= cell_cost s v + 1.
Proof.
  intros Hin. unfold cell_cost. destruct (v =? 0); [lia|].
  generalize ((v - 1) / 3) (Z.rem (v - 1) 3). intros y x.
  do 9 (destruct e as [|e];
        [ simpl in Hin;
          repeat (destruct Hin as [Hin|Hin];
                  [ injection Hin as <- _; cbn; lia | ]);
          destruct Hin | ]).
  destruct Hin.
Qed.

Lemma swap_cells_manhattan (b : Board) (e s : nat) (name : string) :
  length b = 9%nat -> get b e = 0 -> In (s, name) (moves_table e) ->
  manhattanDistance b <= manhattanDistance (swap_cells b e s) + 1 /\
  manhattanDistance (swap_cells b e s) <= manhattanDistance b + 1.
Proof.
  intros Hl Hblank Hin.
  do 9 (destruct b as [|? b]; [discriminate Hl|]).
  destruct b; [|discriminate Hl].
  pose proof (fun v => cell_cost_adjacent e s name v Hin) as Hadj.
  do 9 (destruct e as [|e];
        [ simpl in Hin;
          repeat (destruct Hin as [Hin|Hin];
                  [ injection Hin as <- _;
                    unfold get in Hblank; cbn [nth] in Hblank; subst;
                    unfold swap_cells, get; cbn [nth set_at];
                    rewrite !manhattanDistance_cells, !cell_cost_blank;
                    match goal with
                    | |- context [cell_cost _ ?v] =>
                        lazymatch v with
                        | 0 => fail
                        | _ => idtac
                        end
                    end;
                    repeat match goal with
                    | |- context [cell_cost _ ?v] =>
                        lazymatch goal with
                        | _ : cell_cost _ v <= _ /\ _ |- _ => fail
                        | _ => pose proof (Hadj v)
                        end
                    end;
                    lia | ]);
          destruct Hin | ]).
  destruct Hin.
Qed.

Lemma legal_move_manhattan (b b' : Board) :
  valid_board b -> legal_move b b' ->
  manhattanDistance b <= manhattanDistance b' + 1.
Proof.
  intros Hv Hl. unfold legal_move, successors in Hl.
  rewrite (getValidMoves_table b Hv) in Hl. rewrite map_map in Hl.
  cbn [Move.board] in Hl. apply in_map_iff in Hl.
  destruct Hl as [[s name] [<- Hin]]. cbn [fst].
  destruct (getEmptyIndex_spec b Hv) as [_ Hblank].
  apply (swap_cells_manhattan b _ s name); auto using valid_board_length.
Qed.

Lemma manhattanDistance_goal : manhattanDistance GOAL_STATE = 0.
Proof. reflexivity. Qed.

(* ------------------------------------------------------------------ *)
(** ** Board keys: [toString] is injective on boards of digits *)
(* ------------------------------------------------------------------ *)

Lemma number_toString_digit (v : Z) :
  0 <= v <= 8 -> number_toString v = String (digit_char v) EmptyString.
Proof.
  intros Hv.
  assert (Hc : v = 0 \/ v = 1 \/ v = 2 \/ v = 3 \/ v = 4 \/
               v = 5 \/ v = 6 \/ v = 7 \/ v = 8) by lia.
  repeat (destruct Hc as [->|Hc]; [reflexivity|]). subst. reflexivity.
Qed.

Lemma digit_char_inj (v w : Z) :
  0 <= v <= 8 -> 0 <= w <= 8 -> digit_char v = digit_char w -> v = w.
Proof.
  intros Hv Hw.
  assert (Hc : v = 0 \/ v = 1 \/ v = 2 \/ v = 3 \/ v = 4 \/
               v = 5 \/ v = 6 \/ v = 7 \/ v = 8) by lia.
  assert (Hd : w = 0 \/ w = 1 \/ w = 2 \/ w = 3 \/ w = 4 \/
               w = 5 \/ w = 6 \/ w = 7 \/ w = 8) by lia.
  clear Hv Hw.
  repeat (destruct Hc as [->|Hc]);
    repeat (destruct Hd as [->|Hd]); subst;
    cbn [digit_char]; intros H; try reflexivity; discriminate H.
Qed.

Lemma toString_cons (v : Z) (rest : Board) :
  0 <= v <= 8 ->
  toString (v :: rest) =
  match rest with
  | [] => String (digit_char v) EmptyString
  | _ :: _ => String (digit_char v) (String "," (toString rest))
  end.
Proof.
  intros Hv. unfold toString. cbn [map String.concat].
  rewrite (number_toString_digit v Hv).
  destruct rest; reflexivity.
Qed.

Lemma toString_inj (b : Board) :
  forall b', Forall (fun v => 0 <= v <= 8) b -> Forall (fun v => 0 <= v <= 8) b' ->
             toString b = toString b' -> b = b'.
Proof.
  induction b as [|v rest IH]; intros b' Hb Hb' Heq.
  - destruct b' as [|v' rest']; [reflexivity|].
    inversion Hb' as [|? ? Hv' Hr']; subst.
    rewrite (toString_cons v' rest' Hv') in Heq.
    destruct rest'; discriminate Heq.
  - inversion Hb as [|? ? Hv Hr]; subst.
    rewrite (toString_cons v rest Hv) in Heq.
    destruct b' as [|v' rest'].
    + destruct rest; discriminate Heq.
    + inversion Hb' as [|? ? Hv' Hr']; subst.
      rewrite (toString_cons v' rest' Hv') in Heq.
      destruct rest as [|x rest], rest' as [|x' rest'];
        try discriminate Heq.
      * injection Heq as Hd. f_equal. now apply digit_char_inj.
      * injection Heq as Hd Ht. f_equal; [now apply digit_char_inj|].
        now apply IH.
Qed.

Lemma toString_inj_valid (b b' : Board) :
  valid_board b -> valid_board b' -> toString b = toString b' -> b = b'.
Proof. intros Hb Hb'. apply toString_inj; now apply valid_board_cells. Qed.

Lemma set_has_keys (cb : list Board) (t : Board) :
  Forall valid_board cb -> valid_board t ->
  set_has (map toString cb) (toString t) = true <-> In t cb.
Proof.
  intros Hcb Ht. unfold set_has. rewrite existsb_exists. split.
  - intros (k & Hin & Heq). apply in_map_iff in Hin.
    destruct Hin as (c & <- & Hc). apply String.eqb_eq in Heq.
    rewrite Forall_forall in Hcb.
    now rewrite (toString_inj_valid t c Ht (Hcb c Hc) Heq).
  - intros Hin. exists (toString t). split; [now apply in_map|].
    apply String.eqb_refl.
Qed.

(* ------------------------------------------------------------------ *)
(** ** The head of the sorted open set has the least cost *)
(* ------------------------------------------------------------------ *)

Lemma sort_insert_by_cost_min (x : PuzzleState.t) (l : list PuzzleState.t) :
  forall m rest,
    (forall y, In y l -> match l with
                         | [] => True
                         | h :: _ => cost h <= cost y
                         end) ->
    sort_insert by_cost x l = m :: rest ->
    forall y, In y (x :: l) -> cost m <= cost y.
Proof.
  intros m rest Hmin Hs y Hy.
  destruct l as [|h t]; cbn [sort_insert] in Hs.
  - injection Hs as <- _. destruct Hy as [<-|[]]. lia.
  - unfold by_cost in Hs. fold (cost x) (cost h) in Hs.
    destruct (Z.leb_spec (cost x - cost h) 0) as [Hle|Hgt].
    + injection Hs as <- _. destruct Hy as [<-|Hy]; [lia|].
      specialize (Hmin y Hy). lia.
    + injection Hs as <- _. destruct Hy as [<-|Hy]; [lia|].
      exact (Hmin y Hy).
Qed.

Lemma js_sort_head_min (l : list PuzzleState.t) :
  forall m rest, js_sort by_cost l = m :: rest ->
                 forall y, In y l -> cost m <= cost y.
Proof.
  induction l as [|x l IH]; intros m rest Hs y Hy; [destruct Hy|].
  cbn [js_sort fold_right] in Hs. fold (js_sort by_cost l) in Hs.
  assert (Hy' : In y (x :: js_sort by_cost l)).
  { destruct Hy as [<-|Hy]; [now left|right].
    apply (Permutation_in y (Permutation_sym (js_sort_perm by_cost l)) Hy). }
  apply (sort_insert_by_cost_min x (js_sort by_cost l) m rest); auto.
  intros z Hz. destruct (js_sort by_cost l) as [|h t] eqn:Hsl; [exact I|].
  apply (IH h t eq_refl).
  apply (Permutation_in z (js_sort_perm by_cost l)). rewrite Hsl. exact Hz.
Qed.

(* ------------------------------------------------------------------ *)
(** ** Walks *)
(* ------------------------------------------------------------------ *)

Lemma move_chain_app_inv (w : list Board) (u : Board) :
  w <> [] -> move_chain (w ++ [u]) ->
  move_chain w /\ legal_move (last w u) u.
Proof.
  induction w as [|x w IH]; intros Hne Hc; [congruence|].
  destruct w as [|y w].
  - cbn in Hc. destruct Hc as [Hl _]. split; [exact I|exact Hl].
  - cbn [app] in Hc. destruct Hc as [Hxy Hc].
    destruct (IH ltac:(discriminate) Hc) as [Hc' Hl].
    split; [split; assumption|exact Hl].
Qed.

Lemma last_nonempty_default {A} (w : list A) (d d' : A) :
  w <> [] -> last w d = last w d'.
Proof.
  induction w as [|x w IH]; intros Hne; [congruence|].
  destruct w as [|y w]; [reflexivity|]. apply IH. discriminate.
Qed.

Lemma is_walk_single (a : Board) : is_walk a a [a].
Proof. repeat split. Qed.

Lemma is_walk_snoc (a b b' : Board) (w : list Board) :
  is_walk a b w -> legal_move b b' ->
  is_walk a b' (w ++ [b']) /\ walk_moves (w ++ [b']) = walk_moves w + 1.
Proof.
  intros (Hhd & Hlast & Hch) Hl.
  assert (Hne : w <> []) by (destruct w; [discriminate Hhd|discriminate]).
  split; [repeat split|].
  - destruct w; [discriminate Hhd|exact Hhd].
  - apply last_last.
  - apply (move_chain_snoc w a b'); [exact Hch| |exact Hne]. now rewrite Hlast.
  - unfold walk_moves. rewrite length_app. cbn [length]. lia.
Qed.

Lemma is_walk_unsnoc (a u : Board) (w : list Board) :
  w <> [] -> is_walk a u (w ++ [u]) ->
  is_walk a (last w a) w /\ legal_move (last w a) u.
Proof.
  intros Hne (Hhd & _ & Hch).
  destruct (move_chain_app_inv w u Hne Hch) as [Hc Hl].
  split; [repeat split|].
  - destruct w; [congruence|exact Hhd].
  - exact Hc.
  - now rewrite (last_nonempty_default w a u Hne).
Qed.

Lemma is_walk_last (a u : Board) (w : list Board) :
  is_walk a u w -> exists w', w = w' ++ [u].
Proof.
  intros (Hhd & Hlast & _).
  destruct (@exists_last _ w) as (w' & x & Heq);
    [destruct w; [discriminate Hhd|discriminate]|].
  exists w'. subst w. rewrite last_last in Hlast. now subst.
Qed.

Lemma walk_valid (a : Board) (w : list Board) :
  valid_board a -> hd_error w = Some a -> move_chain w -> Forall valid_board w.
Proof.
  revert a; induction w as [|x w IH]; intros a Hv Hhd Hch; [constructor|].
  injection Hhd as ->. constructor; [exact Hv|].
  destruct w as [|y w]; [constructor|].
  destruct Hch as [Hl Hch].
  apply (IH y); [eapply legal_move_valid; eassumption|reflexivity|exact Hch].
Qed.

Lemma is_walk_end_valid (a u : Board) (w : list Board) :
  valid_board a -> is_walk a u w -> valid_board u.
Proof.
  intros Hv Hw. pose proof Hw as (Hhd & Hlast & Hch).
  pose proof (walk_valid a w Hv Hhd Hch) as Hall.
  destruct (is_walk_last a u w Hw) as (w' & ->).
  rewrite Forall_forall in Hall. apply Hall, in_or_app. right. now left.
Qed.

(** Along a chain of legal moves the Manhattan distance drops by one per
    move at most. *)
Lemma chain_manhattan (x : Board) (post : list Board) :
  valid_board x -> move_chain (x :: post) ->
  manhattanDistance x <=
  Z.of_nat (length post) + manhattanDistance (last (x :: post) x).
Proof.
  revert x; induction post as [|y post IH]; intros x Hv Hch.
  - cbn. lia.
  - destruct Hch as [Hl Hch].
    pose proof (legal_move_manhattan x y Hv Hl) as Hstep.
    pose proof (IH y (legal_move_valid x y Hv Hl) Hch) as Hrest.
    change (last (x :: y :: post) x) with (last (y :: post) x).
    rewrite (last_nonempty_default (y :: post) x y) by discriminate.
    cbn [length]. lia.
Qed.

Lemma last_app_cons {A} (pre : list A) (x : A) (post : list A) (d : A) :
  last (pre ++ x :: post) d = last (x :: post) d.
Proof.
  induction pre as [|p pre IH]; [reflexivity|].
  cbn [app]. destruct (pre ++ x :: post) eqn:Heq;
    [destruct pre; discriminate Heq|].
  rewrite <- IH. reflexivity.
Qed.

Lemma move_chain_suffix (pre : list Board) (x : Board) (post : list Board) :
  move_chain (pre ++ x :: post) -> move_chain (x :: post).
Proof.
  induction pre as [|p pre IH]; intros Hch; [exact Hch|].
  apply IH. cbn [app] in Hch.
  destruct (pre ++ x :: post) eqn:Heq; [destruct pre; discriminate Heq|].
  apply Hch.
Qed.

(* ------------------------------------------------------------------ *)
(** ** A* search: the frontier of the open set *)
(* ------------------------------------------------------------------ *)

Lemma board_in_dec (u : Board) (cb : list Board) : {In u cb} + {~ In u cb}.
Proof. apply in_dec, list_eq_dec, Z.eq_dec. Qed.

(** Every walk from the start either stays inside the closed boards or
    passes through the board of an open node that got there in no more
    moves than the walk. *)
Lemma frontier (start : Board) (openSet : list PuzzleState.t) (cb : list Board) :
  (~ In start cb ->
   exists n, In n openSet /\ PuzzleState.board n = start /\
             PuzzleState.moves n = 0) ->
  (forall c, In c cb -> closed_ok start openSet cb c) ->
  forall w u, is_walk start u w ->
    (forall x, In x w -> In x cb) \/
    (exists pre x post n,
        w = pre ++ x :: post /\ In n openSet /\ PuzzleState.board n = x /\
        PuzzleState.moves n <= Z.of_nat (length pre)).
Proof.
  intros Hstart Hclosed.
  induction w as [|x w IH] using rev_ind; intros u Hw.
  - destruct Hw as (Hhd & _). discriminate Hhd.
  - destruct (is_walk_last start u _ Hw) as (w' & Heq).
    apply app_inj_tail in Heq. destruct Heq as [<- ->].
    destruct w as [|y w0].
    + (* the walk is [start] alone *)
      destruct Hw as (Hhd & _). injection Hhd as ->.
      destruct (board_in_dec start cb) as [Hin|Hnin].
      * left. intros z [<-|[]]. exact Hin.
      * right. destruct (Hstart Hnin) as (n & Hn & Hb & Hm).
        exists [], start, [], n. repeat split; auto. rewrite Hm. cbn. lia.
    + set (w := y :: w0) in *.
      assert (Hne : w <> []) by discriminate.
      destruct (is_walk_unsnoc start u w Hne Hw) as [Hw' Hl].
      destruct (IH _ Hw') as [Hall|(pre & z & post & n & Heq & Hn & Hb & Hm)].
      * destruct (board_in_dec u cb) as [Hin|Hnin].
        -- left. intros z Hz. apply in_app_or in Hz.
           destruct Hz as [Hz|[<-|[]]]; auto.
        -- right.
           assert (Hlast : In (last w start) cb).
           { apply Hall. destruct (is_walk_last _ _ _ Hw') as (w1 & Hw1).
             rewrite Hw1 at 2. apply in_or_app. right. now left. }
           destruct (Hclosed _ Hlast) as (g & _ & Hopt & _ & Hsucc).
           destruct (Hsucc u Hl Hnin) as (n & Hn & Hb & Hm).
           exists w, u, [], n. repeat split; auto.
           specialize (Hopt w Hw'). unfold walk_moves in Hopt. lia.
      * right. exists pre, z, (post ++ [u]), n. repeat split; auto.
        rewrite Heq, <- app_assoc. reflexivity.
Qed.

(** The node the loop selects costs no more than any walk to a board that
    is not closed, plus what remains to the goal from there. *)
Lemma pop_bound (start : Board) (openSet : list PuzzleState.t)
      (cb : list Board) (current : PuzzleState.t) (rest : list PuzzleState.t) :
  valid_board start ->
  Forall (node_sound start) openSet ->
  (~ In start cb ->
   exists n, In n openSet /\ PuzzleState.board n = start /\
             PuzzleState.moves n = 0) ->
  (forall c, In c cb -> closed_ok start openSet cb c) ->
  js_sort by_cost openSet = current :: rest ->
  forall w u, is_walk start u w -> ~ In u cb ->
              cost current <= walk_moves w + manhattanDistance u.
Proof.
  intros Hv Hsound Hstart Hclosed Hsort w u Hw Hnin.
  destruct (frontier start openSet cb Hstart Hclosed w u Hw)
    as [Hall|(pre & x & post & n & Heq & Hn & Hb & Hm)].
  - exfalso. apply Hnin, Hall.
    destruct (is_walk_last _ _ _ Hw) as (w1 & ->).
    apply in_or_app. right. now left.
  - pose proof (js_sort_head_min openSet current rest Hsort n Hn) as Hmin.
    rewrite Forall_forall in Hsound.
    destruct (Hsound n Hn) as (_ & _ & Hh & _).
    pose proof Hw as (Hhd & Hlast & Hch).
    pose proof (walk_valid start w Hv Hhd Hch) as Hvalid.
    assert (Hxv : valid_board x).
    { rewrite Forall_forall in Hvalid. apply Hvalid. rewrite Heq.
      apply in_or_app. right. now left. }
    assert (Hsuf : move_chain (x :: post))
      by (apply (move_chain_suffix pre); now rewrite <- Heq).
    pose proof (chain_manhattan x post Hxv Hsuf) as Hcons.
    assert (Hend : last (x :: post) x = u).
    { rewrite <- Hlast, Heq. rewrite last_app_cons.
      apply last_nonempty_default. discriminate. }
    rewrite Hend in Hcons.
    unfold cost in *. rewrite Hh, Hb in Hmin.
    unfold walk_moves. rewrite Heq, length_app. cbn [length]. lia.
Qed.

(* ------------------------------------------------------------------ *)
(** ** A* search: the loop invariant *)
(* ------------------------------------------------------------------ *)

Lemma expand_spec (closedSet : list string) (current : PuzzleState.t)
      (openSet : list PuzzleState.t) :
  expand closedSet current openSet =
  openSet ++ map (child_node current)
                 (filter (fun t => negb (set_has closedSet (toString t)))
                         (successors (PuzzleState.board current))).
Proof.
  unfold expand, successors.
  generalize (getValidMoves (PuzzleState.board current)) as ms.
  intros ms. revert openSet.
  induction ms as [|m ms IH]; intros openSet; cbn [fold_left map filter].
  - now rewrite app_nil_r.
  - rewrite IH. unfold expand_step.
    destruct (negb (set_has closedSet (toString (Move.board m)))).
    + cbn [map]. now rewrite <- app_assoc.
    + reflexivity.
Qed.

Lemma start_node_sound (start : Board) :
  valid_board start -> node_sound start (start_node start).
Proof.
  intros Hv. unfold node_sound, start_node.
  cbn [PuzzleState.board PuzzleState.path PuzzleState.moves PuzzleState.heuristic].
  repeat split. exact Hv.
Qed.

Lemma child_node_sound (start : Board) (current : PuzzleState.t) (t : Board) :
  node_sound start current -> legal_move (PuzzleState.board current) t ->
  node_sound start (child_node current t).
Proof.
  intros (Hw & Hm & Hh & Hv) Hl. unfold node_sound, child_node.
  cbn [PuzzleState.board PuzzleState.path PuzzleState.moves PuzzleState.heuristic].
  destruct (is_walk_snoc _ _ t _ Hw Hl) as [Hw' Hlen].
  repeat split; try apply Hw'.
  - rewrite Hlen, Hm. reflexivity.
  - eapply legal_move_valid; eassumption.
Qed.

Lemma astar_inv_init (start : Board) :
  valid_board start -> astar_inv start [start_node start] [].
Proof.
  intros Hv. exists []. repeat split.
  - constructor.
  - constructor.
  - intros [].
  - constructor; [now apply start_node_sound|constructor].
  - intros _. exists (start_node start). repeat split. now left.
  - intros c [].
Qed.

Lemma in_sorted (openSet : list PuzzleState.t) (current : PuzzleState.t)
      (rest : list PuzzleState.t) (n : PuzzleState.t) :
  js_sort by_cost openSet = current :: rest ->
  (In n openSet <-> n = current \/ In n rest).
Proof.
  intros Hs. pose proof (js_sort_perm by_cost openSet) as Hp.
  rewrite Hs in Hp. split.
  - intros Hin. apply (Permutation_in n (Permutation_sym Hp)) in Hin.
    destruct Hin as [<-|Hin]; auto.
  - intros Hin. apply (Permutation_in n Hp).
    destruct Hin as [->|Hin]; [now left|now right].
Qed.

(** The selected node is stale: it is dropped and nothing else changes. *)
Lemma astar_inv_stale (start : Board) (openSet : list PuzzleState.t)
      (closedSet : list string) (current : PuzzleState.t)
      (rest : list PuzzleState.t) :
  astar_inv start openSet closedSet ->
  js_sort by_cost openSet = current :: rest ->
  set_has closedSet (toString (PuzzleState.board current)) = true ->
  astar_inv start rest closedSet.
Proof.
  intros (cb & Hkeys & Hnd & Hvalid & Hgoal & Hsound & Hstart & Hclosed) Hs Hhas.
  assert (Hcur : In current openSet) by (apply (in_sorted _ _ _ _ Hs); now left).
  rewrite Forall_forall in Hsound.
  assert (Hin : In (PuzzleState.board current) cb).
  { apply (set_has_keys cb); [exact Hvalid|apply (Hsound current Hcur)|].
    now rewrite <- Hkeys. }
  assert (Hkeep : forall n, In n openSet ->
                            ~ In (PuzzleState.board n) cb -> In n rest).
  { intros n Hn Hnin. apply (in_sorted _ _ _ _ Hs) in Hn.
    destruct Hn as [->|Hn]; [contradiction|exact Hn]. }
  exists cb. repeat split; auto.
  - apply Forall_forall. intros n Hn. apply Hsound.
    apply (in_sorted _ _ _ _ Hs). now right.
  - intros Hnin. destruct (Hstart Hnin) as (n & Hn & Hb & Hm).
    exists n. repeat split; auto. apply Hkeep; [exact Hn|now rewrite Hb].
  - intros c Hc. destruct (Hclosed c Hc) as (g & Hw & Hopt & Hbound & Hsucc).
    exists g. repeat split; auto.
    intros t Hl Hnin. destruct (Hsucc t Hl Hnin) as (n & Hn & Hb & Hm).
    exists n. repeat split; auto. apply Hkeep; [exact Hn|now rewrite Hb].
Qed.

(** The selected node is closed and expanded. *)
Lemma astar_inv_expand (start : Board) (openSet : list PuzzleState.t)
      (closedSet : list string) (current : PuzzleState.t)
      (rest : list PuzzleState.t) :
  valid_board start ->
  astar_inv start openSet closedSet ->
  js_sort by_cost openSet = current :: rest ->
  isGoalState (PuzzleState.board current) = false ->
  set_has closedSet (toString (PuzzleState.board current)) = false ->
  astar_inv start
    (expand (set_add closedSet (toString (PuzzleState.board current)))
            current rest)
    (set_add closedSet (toString (PuzzleState.board current))).
Proof.
  intros Hv (cb & Hkeys & Hnd & Hvalid & Hgoal & Hsound & Hstart & Hclosed)
         Hs Hng Hhas.
  set (s := PuzzleState.board current) in *.
  assert (Hcur : In current openSet) by (apply (in_sorted _ _ _ _ Hs); now left).
  pose proof Hsound as Hsound'. rewrite Forall_forall in Hsound'.
  pose proof (Hsound' current Hcur) as Hcs.
  destruct Hcs as (Hcw & Hcm & Hch & Hcv). fold s in Hcw, Hch, Hcv.
  assert (Hnin : ~ In s cb).
  { intros Hin. apply (set_has_keys cb s Hvalid Hcv) in Hin.
    rewrite <- Hkeys in Hin. congruence. }
  assert (Hadd : set_add closedSet (toString s) = map toString (cb ++ [s])).
  { unfold set_add. rewrite Hhas, map_app, Hkeys. reflexivity. }
  assert (Hvalid' : Forall valid_board (cb ++ [s])).
  { apply Forall_app. split; [exact Hvalid|now constructor]. }
  rewrite expand_spec. rewrite Hadd.
  set (fresh := filter (fun t => negb (set_has (map toString (cb ++ [s])) (toString t)))
                       (successors s)).
  assert (Hfresh : forall t, legal_move s t -> ~ In t (cb ++ [s]) -> In t fresh).
  { intros t Hl Hn. unfold fresh. apply filter_In. split; [exact Hl|].
    apply negb_true_iff.
    destruct (set_has (map toString (cb ++ [s])) (toString t)) eqn:Hh;
      [|reflexivity].
    exfalso. apply Hn. apply (set_has_keys _ t Hvalid'); [|exact Hh].
    eapply legal_move_valid; eassumption. }
  assert (Hkeep : forall n, In n openSet ->
                            ~ In (PuzzleState.board n) (cb ++ [s]) ->
                            In n (rest ++ map (child_node current) fresh)).
  { intros n Hn Hn'. apply in_or_app. left.
    apply (in_sorted _ _ _ _ Hs) in Hn. destruct Hn as [->|Hn]; [|exact Hn].
    exfalso. apply Hn', in_or_app. right. now left. }
  assert (Hpop : forall w u, is_walk start u w -> ~ In u cb ->
                             cost current <= walk_moves w + manhattanDistance u)
    by (apply (pop_bound start openSet cb current rest); assumption).
  exists (cb ++ [s]). repeat split.
  - (* no repetition *)
    apply NoDup_app; [exact Hnd|repeat constructor; intros []|].
    intros x Hx [<-|[]]. contradiction.
  - exact Hvalid'.
  - (* the goal is never closed *)
    intros Hin. apply in_app_or in Hin. destruct Hin as [Hin|[Heq|[]]];
      [contradiction|].
    fold s in Hng. rewrite Heq in Hng. rewrite isGoalState_GOAL in Hng.
    discriminate Hng.
  - (* the open nodes are sound *)
    apply Forall_app. split.
    + apply Forall_forall. intros n Hn. apply Hsound'.
      apply (in_sorted _ _ _ _ Hs). now right.
    + apply Forall_forall. intros n Hn. apply in_map_iff in Hn.
      destruct Hn as (t & <- & Ht). unfold fresh in Ht. apply filter_In in Ht.
      apply child_node_sound; [apply Hsound', Hcur|apply Ht].
  - (* the start, while it is not closed *)
    intros Hn. assert (Hn0 : ~ In start cb) by (intros H; apply Hn, in_or_app; now left).
    destruct (Hstart Hn0) as (n & Hin & Hb & Hm).
    exists n. repeat split; auto. apply Hkeep; [exact Hin|now rewrite Hb].
  - (* the closed boards *)
    intros c Hc. apply in_app_or in Hc. destruct Hc as [Hc|[<-|[]]].
    + destruct (Hclosed c Hc) as (g & Hw & Hopt & Hbound & Hsucc).
      exists g. repeat split; auto.
      intros t Hl Ht.
      assert (Ht0 : ~ In t cb) by (intros H; apply Ht, in_or_app; now left).
      destruct (Hsucc t Hl Ht0) as (n & Hn & Hb & Hm).
      exists n. repeat split; auto. apply Hkeep; [exact Hn|now rewrite Hb].
    + exists (PuzzleState.moves current). repeat split.
      * exists (PuzzleState.path current). split; [exact Hcw|now symmetry].
      * intros w Hw. specialize (Hpop w s Hw Hnin).
        unfold cost in Hpop. rewrite Hch in Hpop. lia.
      * intros wg Hwg. specialize (Hpop wg GOAL_STATE Hwg Hgoal).
        unfold cost in Hpop. rewrite Hch, manhattanDistance_goal in Hpop. lia.
      * intros t Hl Ht. exists (child_node current t). repeat split.
        -- apply in_or_app. right. apply in_map. now apply Hfresh.
        -- cbn [child_node PuzzleState.moves]. lia.
Qed.

(** The closed set of a state of the loop is within the cap whenever the
    counting bound holds for the start board. *)
Lemma astar_inv_closed_count (start : Board) (openSet : list PuzzleState.t)
      (closedSet : list string) :
  astar_inv start openSet closedSet -> closed_bound start ->
  Z.of_nat (length closedSet) <= closed_cap.
Proof.
  intros (cb & Hkeys & Hnd & Hvalid & _ & _ & _ & Hclosed) Hbound.
  rewrite Hkeys, length_map. apply Hbound; [exact Hnd|].
  intros c Hc. rewrite Forall_forall in Hvalid. split; [now apply Hvalid|].
  destruct (Hclosed c Hc) as (g & (w & Hw & Hg) & _ & Hb & _).
  exists w. split; [exact Hw|]. intros wg Hwg. rewrite Hg. now apply Hb.
Qed.

(** While the goal can be reached, the open set is not empty. *)
Lemma astar_inv_open_nonempty (start : Board) (openSet : list PuzzleState.t)
      (closedSet : list string) (wg : list Board) :
  astar_inv start openSet closedSet -> is_walk start GOAL_STATE wg ->
  openSet <> [].
Proof.
  intros (cb & _ & _ & _ & Hgoal & _ & Hstart & Hclosed) Hwg ->.
  destruct (frontier start [] cb Hstart Hclosed wg GOAL_STATE Hwg)
    as [Hall|(_ & _ & _ & n & _ & [] & _)].
  apply Hgoal, Hall. destruct (is_walk_last _ _ _ Hwg) as (w1 & ->).
  apply in_or_app. right. now left.
Qed.

(** The path of the goal node the loop selects is a shortest walk. *)
Lemma astar_goal_path (start : Board) (openSet : list PuzzleState.t)
      (closedSet : list string) (current : PuzzleState.t)
      (rest : list PuzzleState.t) :
  valid_board start ->
  astar_inv start openSet closedSet ->
  js_sort by_cost openSet = current :: rest ->
  isGoalState (PuzzleState.board current) = true ->
  is_walk start GOAL_STATE (PuzzleState.path current) /\
  forall wg, is_walk start GOAL_STATE wg ->
             walk_moves (PuzzleState.path current) <= walk_moves wg.
Proof.
  intros Hv (cb & Hkeys & Hnd & Hvalid & Hgoal & Hsound & Hstart & Hclosed)
         Hs Hg.
  assert (Hcur : In current openSet) by (apply (in_sorted _ _ _ _ Hs); now left).
  pose proof Hsound as Hsound'. rewrite Forall_forall in Hsound'.
  destruct (Hsound' current Hcur) as (Hcw & Hcm & Hch & Hcv).
  pose proof (isGoalState_valid _ Hcv Hg) as Heq.
  rewrite Heq in Hcw, Hch. split; [exact Hcw|].
  intros wg Hwg.
  pose proof (pop_bound start openSet cb current rest Hv Hsound Hstart Hclosed
                Hs wg GOAL_STATE Hwg Hgoal) as Hpop.
  unfold cost in Hpop. rewrite Hch, manhattanDistance_goal, Hcm in Hpop. lia.
Qed.

(* ------------------------------------------------------------------ *)
(** ** A* search: what the loop returns *)
(* ------------------------------------------------------------------ *)

(** Whatever the loop returns is empty or a shortest walk to the goal. *)
Lemma astar_loop_sound (start : Board) :
  valid_board start ->
  forall fuel openSet closedSet p,
    astar_inv start openSet closedSet ->
    astar_loop fuel openSet closedSet = Returned p ->
    p = [] \/
    (is_walk start GOAL_STATE p /\
     forall wg, is_walk start GOAL_STATE wg -> walk_moves p <= walk_moves wg).
Proof.
  intros Hv. induction fuel as [|fuel IH]; intros openSet closedSet p Hinv Hret;
    [discriminate Hret|].
  pose proof (astar_loop_step fuel openSet closedSet) as Hstep.
  destruct (js_sort by_cost openSet) as [|current rest] eqn:Hs.
  - rewrite Hstep in Hret. injection Hret as <-. now left.
  - rewrite Hstep in Hret.
    destruct (isGoalState (PuzzleState.board current)) eqn:Hg.
    + injection Hret as <-. right.
      now apply (astar_goal_path start openSet closedSet current rest).
    + destruct (set_has closedSet (toString (PuzzleState.board current))) eqn:Hhas.
      * apply (IH rest closedSet p); [|exact Hret].
        now apply (astar_inv_stale start openSet closedSet current rest).
      * destruct (closed_cap <? _) in Hret; [injection Hret as <-; now left|].
        eapply IH; [|exact Hret].
        now apply (astar_inv_expand start openSet closedSet current rest).
Qed.

(** When the goal can be reached and the closed boards stay within the
    cap, the loop returns a shortest walk to the goal. *)
Lemma astar_loop_complete (start : Board) :
  valid_board start -> closed_bound start ->
  (exists wg, is_walk start GOAL_STATE wg) ->
  forall fuel openSet closedSet,
    astar_inv start openSet closedSet ->
    astar_measure openSet closedSet < Z.of_nat fuel ->
    exists p,
      astar_loop fuel openSet closedSet = Returned p /\
      is_walk start GOAL_STATE p /\
      forall wg, is_walk start GOAL_STATE wg -> walk_moves p <= walk_moves wg.
Proof.
  intros Hv Hbound (wg0 & Hwg0).
  induction fuel as [|fuel IH]; intros openSet closedSet Hinv Hfuel.
  - pose proof (astar_inv_closed_count _ _ _ Hinv Hbound).
    unfold astar_measure in Hfuel. lia.
  - pose proof (astar_loop_step fuel openSet closedSet) as Hstep.
    pose proof (js_sort_length by_cost openSet) as Hl.
    pose proof (astar_inv_open_nonempty _ _ _ _ Hinv Hwg0) as Hne.
    pose proof (astar_inv_closed_count _ _ _ Hinv Hbound) as Hcount.
    destruct (js_sort by_cost openSet) as [|current rest] eqn:Hs;
      [destruct openSet; [congruence|discriminate Hl]|].
    rewrite Hstep. cbn [length] in Hl.
    destruct (isGoalState (PuzzleState.board current)) eqn:Hg.
    + eexists. split; [reflexivity|].
      now apply (astar_goal_path start openSet closedSet current rest).
    + destruct (set_has closedSet (toString (PuzzleState.board current))) eqn:Hhas.
      * apply IH.
        -- now apply (astar_inv_stale start openSet closedSet current rest).
        -- unfold astar_measure in *. lia.
      * pose proof (astar_inv_expand start openSet closedSet current rest
                      Hv Hinv Hs Hg Hhas) as Hinv'.
        pose proof (astar_inv_closed_count _ _ _ Hinv' Hbound) as Hcount'.
        destruct (Z.ltb_spec closed_cap
                    (Z.of_nat (length (set_add closedSet
                                         (toString (PuzzleState.board current))))));
          [lia|].
        apply IH; [exact Hinv'|].
        pose proof (set_add_new_length _ _ Hhas).
        pose proof (expand_length
                      (set_add closedSet (toString (PuzzleState.board current)))
                      current rest).
        unfold astar_measure in *. lia.
Qed.

(** C9. [solveAStar] raises no exception and terminates on every board:
    within the iterations the cap allows it returns a sequence, which for a
    valid board is either empty or a walk to the goal.  It returns the empty
    sequence when the open set is empty, and when closing the selected board
    takes the closed set over [closed_cap = 100000]. *)
Theorem solveAStar_total (initialBoard : Board) :
  (exists p, solveAStar initialBoard = Returned p /\
             (valid_board initialBoard ->
              p = [] \/ is_walk initialBoard GOAL_STATE p)) /\
  (forall fuel closedSet, astar_loop (S fuel) [] closedSet = Returned []) /\
  (forall fuel openSet closedSet current rest,
     js_sort by_cost openSet = current :: rest ->
     isGoalState (PuzzleState.board current) = false ->
     set_has closedSet (toString (PuzzleState.board current)) = false ->
     closed_cap < Z.of_nat (length closedSet) + 1 ->
     astar_loop (S fuel) openSet closedSet = Returned []).
Proof.
  split; [|split].
  - destruct (astar_loop_returns astar_fuel [start_node initialBoard] [])
      as (p & Hp).
    + cbn [length]. apply closed_cap_nonneg.
    + apply astar_fuel_enough.
    + exists p. split; [exact Hp|]. intros Hv.
      destruct (astar_loop_sound initialBoard Hv astar_fuel _ _ p
                  (astar_inv_init initialBoard Hv) Hp) as [->|[Hw _]]; auto.
  - reflexivity.
  - intros fuel openSet closedSet current rest Hs Hg Hhas Hcap.
    pose proof (astar_loop_step fuel openSet closedSet) as Hstep.
    rewrite Hs in Hstep. rewrite Hstep, Hg, Hhas.
    rewrite (set_add_new_length _ _ Hhas).
    destruct (Z.ltb_spec closed_cap (Z.of_nat (S (length closedSet))));
      [reflexivity|lia].
Qed.

(** Witness of C9: a node selected when the closed set already holds
    [closed_cap] keys takes it over the cap, and the loop returns the empty
    sequence. *)
Lemma solveAStar_total_witness :
  astar_loop 1 [start_node [1; 2; 3; 4; 5; 6; 7; 0; 8]]
             (repeat "x"%string (Z.to_nat closed_cap)) = Returned [].
Proof.
  destruct (solveAStar_total GOAL_STATE) as (_ & _ & Hcap).
  apply (Hcap 0%nat _ _ (start_node [1; 2; 3; 4; 5; 6; 7; 0; 8]) []).
  - reflexivity.
  - reflexivity.
  - vm_compute. reflexivity.
  - rewrite repeat_length, Z2Nat.id by apply closed_cap_nonneg. lia.
Defined.

(* ------------------------------------------------------------------ *)
(** ** Counting in one pass *)
(* ------------------------------------------------------------------ *)

Lemma bump_onto_spec (k : nat) (h : list nat) :
  forall acc,
    bump_onto k h acc =
    rev acc ++ firstn k h ++
      match skipn k h with
      | [] => []
      | x :: r => S x :: r
      end.
Proof.
  revert k. induction h as [|x r IH]; intros k acc.
  - cbn [bump_onto]. rewrite rev_append_rev. destruct k; reflexivity.
  - destruct k as [|k]; cbn [bump_onto firstn skipn].
    + rewrite rev_append_rev. reflexivity.
    + rewrite IH. cbn [rev]. rewrite <- app_assoc. reflexivity.
Qed.

Lemma bump_spec (k : nat) (h : list nat) :
  bump k h =
  firstn k h ++ match skipn k h with [] => [] | x :: r => S x :: r end.
Proof. unfold bump. now rewrite bump_onto_spec. Qed.

Lemma length_bump (k : nat) (h : list nat) : length (bump k h) = length h.
Proof.
  rewrite bump_spec. rewrite <- (firstn_skipn k h) at 3.
  rewrite !length_app. destruct (skipn k h); reflexivity.
Qed.

Lemma nth_bump (k j : nat) (h : list nat) :
  (j < length h)%nat ->
  nth j (bump k h) O = ((if (k =? j)%nat then 1 else 0) + nth j h O)%nat.
Proof.
  rewrite bump_spec. revert k j.
  induction h as [|x r IH]; intros k j Hj; [cbn in Hj; lia|].
  destruct k as [|k], j as [|j]; cbn [firstn skipn app nth Nat.eqb];
    try reflexivity.
  apply IH. cbn in Hj. lia.
Qed.

Lemma scan_spec {A} (probe : A -> option (option nat)) (l : list A) :
  forall h h',
    scan probe l h = Some h' ->
    (forall x, In x l -> probe x <> None) /\
    length h' = length h /\
    forall j, (j < length h)%nat ->
      nth j h' O =
      (nth j h O +
       length (filter (has_key probe j) l))%nat.
Proof.
  induction l as [|x l IH]; intros h h' Hscan; cbn [scan] in Hscan.
  - injection Hscan as <-. repeat split; [intros x []|].
    intros j _. cbn. lia.
  - destruct (probe x) as [[k|]|] eqn:Hp; [| |discriminate Hscan].
    + destruct (bump k h) as [|y hb] eqn:Hb; [discriminate Hscan|].
      destruct (IH _ _ Hscan) as (Hall & Hlen & Hcount).
      rewrite <- Hb in Hlen, Hcount. rewrite length_bump in Hlen, Hcount.
      repeat split; [|exact Hlen|].
      * intros z [<-|Hz]; [congruence|now apply Hall].
      * intros j Hj. rewrite (Hcount j Hj), (nth_bump k j h Hj).
        cbn [filter].
        assert (Hk : has_key probe j x = (k =? j)%nat)
          by (unfold has_key; now rewrite Hp).
        rewrite Hk. destruct (k =? j)%nat; cbn [length]; lia.
    + destruct (IH _ _ Hscan) as (Hall & Hlen & Hcount).
      repeat split; [|exact Hlen|].
      * intros z [<-|Hz]; [congruence|now apply Hall].
      * intros j Hj. rewrite (Hcount j Hj). cbn [filter].
        assert (Hk : has_key probe j x = false)
          by (unfold has_key; now rewrite Hp).
        now rewrite Hk.
Qed.

Lemma list_eqb_eq (l l' : list Z) : list_eqb l l' = true -> l = l'.
Proof.
  revert l'. induction l as [|x l IH]; intros [|y l'] H; cbn in H;
    try discriminate H; [reflexivity|].
  apply andb_prop in H. destruct H as [Hx Hl].
  apply Z.eqb_eq in Hx. subst y. f_equal. now apply IH.
Qed.

Lemma prefix_sums_nth (l : list Z) :
  forall acc m, (m < length l)%nat ->
    nth m (prefix_sums acc l) 0 = acc + sumZ (firstn (S m) l).
Proof.
  induction l as [|x l IH]; intros acc m Hm; [cbn in Hm; lia|].
  cbn [prefix_sums]. destruct m as [|m].
  - cbn. lia.
  - cbn [nth]. rewrite IH by (cbn in Hm; lia).
    change (firstn (S (S m)) (x :: l)) with (x :: firstn (S m) l).
    cbn [sumZ fold_right]. fold (sumZ (firstn (S m) l)). lia.
Qed.

Lemma nth_repeat_O (n j : nat) : nth j (repeat O n) O = O.
Proof.
  revert j. induction n as [|n IH]; intros [|j]; cbn; auto.
Qed.

Lemma list_sum_cons (x : nat) (l : list nat) :
  list_sum (x :: l) = (x + list_sum l)%nat.
Proof. reflexivity. Qed.

Lemma list_sum_zeros {A} (l : list A) :
  list_sum (map (fun _ => 0%nat) l) = 0%nat.
Proof. induction l as [|x l IH]; [reflexivity|]. cbn [map]. now rewrite list_sum_cons. Qed.

Lemma list_sum_plus {A} (f g : A -> nat) (l : list A) :
  list_sum (map (fun k => (f k + g k)%nat) l) =
  (list_sum (map f l) + list_sum (map g l))%nat.
Proof.
  induction l as [|x l IH]; [reflexivity|].
  cbn [map]. rewrite !list_sum_cons, IH. lia.
Qed.

Lemma key_within_count {A} (probe : A -> option (option nat)) (m : nat)
    (l : list A) :
  length (filter (key_within probe m) l) =
  list_sum (map (fun k => length (filter (has_key probe k) l)) (seq 0 (S m))).
Proof.
  assert (Hone : forall j n s,
            list_sum (map (fun k => if (j =? k)%nat then 1%nat else 0%nat) (seq s n)) =
            if ((s <=? j) && (j <? s + n))%nat then 1%nat else 0%nat).
  { intros j n. induction n as [|n IH]; intros s.
    - destruct (Nat.leb_spec s j), (Nat.ltb_spec j (s + 0)); cbn; lia.
    - cbn [seq map]. rewrite list_sum_cons, IH.
      destruct (Nat.eqb_spec j s), (Nat.leb_spec s j), (Nat.leb_spec (S s) j),
        (Nat.ltb_spec j (s + S n)), (Nat.ltb_spec j (S s + n));
        cbn [andb]; lia. }
  induction l as [|x l IH].
  - cbn [filter length]. now rewrite list_sum_zeros.
  - rewrite (map_ext (fun k => length (filter (has_key probe k) (x :: l)))
                     (fun k => ((if has_key probe k x then 1%nat else 0%nat) +
                                length (filter (has_key probe k) l))%nat)).
    2:{ intros k. cbn [filter]. destruct (has_key probe k x); reflexivity. }
    rewrite list_sum_plus, <- IH. cbn [filter].
    unfold key_within at 1. unfold has_key.
    destruct (probe x) as [[j|]|].
    + rewrite (Hone j (S m) 0%nat).
      destruct (Nat.leb_spec j m), (Nat.leb_spec 0 j), (Nat.ltb_spec j (0 + S m));
        cbn [andb length]; lia.
    + now rewrite list_sum_zeros.
    + now rewrite list_sum_zeros.
Qed.

Lemma firstn_map_nth {A} (d : A) (l : list A) :
  forall n, (n <= length l)%nat ->
    firstn n l = map (fun k => nth k l d) (seq 0 n).
Proof.
  induction l as [|x l IH]; intros [|n] Hn; cbn in Hn; try lia;
    try reflexivity.
  cbn [firstn seq map nth]. f_equal. rewrite <- seq_shift, map_map.
  apply IH. lia.
Qed.

Lemma sumZ_of_nat (l : list nat) :
  sumZ (map Z.of_nat l) = Z.of_nat (list_sum l).
Proof.
  induction l as [|x l IH]; [reflexivity|].
  cbn [map]. rewrite list_sum_cons, Nat2Z.inj_add, <- IH. reflexivity.
Qed.

(* ------------------------------------------------------------------ *)
(** ** Successors, read off the table of moves *)
(* ------------------------------------------------------------------ *)

Lemma indexOf_from_blank_pos (b : Board) :
  forall i, In 0 b -> indexOf_from b 0 i = i + Z.of_nat (blank_pos b).
Proof.
  induction b as [|v b IH]; intros i Hin; [destruct Hin|].
  cbn [indexOf_from blank_pos]. destruct (Z.eqb_spec v 0) as [->|Hne].
  - cbn. lia.
  - destruct Hin as [Heq|Hin]; [congruence|]. rewrite (IH (i + 1) Hin). lia.
Qed.

Lemma blank_pos_spec (b : Board) :
  valid_board b ->
  blank_pos b = Z.to_nat (getEmptyIndex b) /\ (blank_pos b < 9)%nat /\
  get b (blank_pos b) = 0.
Proof.
  intros Hv. destruct (getEmptyIndex_spec b Hv) as [Hr Hg].
  assert (Heq : blank_pos b = Z.to_nat (getEmptyIndex b)).
  { unfold getEmptyIndex, indexOf.
    rewrite (indexOf_from_blank_pos b 0 (valid_board_has_blank b Hv)). lia. }
  rewrite Heq. repeat split; [lia|exact Hg].
Qed.

Lemma successors_fast (b : Board) :
  valid_board b -> successors b = succ_fast b.
Proof.
  intros Hv. unfold successors, succ_fast.
  rewrite (getValidMoves_table b Hv), map_map. cbn [Move.board].
  destruct (blank_pos_spec b Hv) as [-> _]. reflexivity.
Qed.

(* ------------------------------------------------------------------ *)
(** ** Boards as the tables hold them *)
(* ------------------------------------------------------------------ *)

Lemma nine_cells (b : Board) :
  length b = 9%nat ->
  exists a0 a1 a2 a3 a4 a5 a6 a7 a8, b = [a0; a1; a2; a3; a4; a5; a6; a7; a8].
Proof.
  intros H. do 9 (destruct b as [|? b]; [discriminate H|]).
  destruct b; [|discriminate H]. repeat eexists.
Qed.

Lemma is_blank_tile_of (v : Z) :
  0 <= v <= 8 -> is_blank (tile_of v) = (v =? 0).
Proof.
  intros Hv.
  assert (Hc : v = 0 \/ v = 1 \/ v = 2 \/ v = 3 \/ v = 4 \/
               v = 5 \/ v = 6 \/ v = 7 \/ v = 8) by lia.
  repeat (destruct Hc as [Hc|Hc]; [rewrite Hc; reflexivity|]).
  rewrite Hc. reflexivity.
Qed.

(** The successors of the tables are the successors of the move
    generator. *)
Lemma succs_brd_of (b : Board) :
  valid_board b -> succs (brd_of b) = map brd_of (succ_fast b).
Proof.
  intros Hv.
  pose proof (valid_board_cells b Hv) as Hc.
  pose proof (valid_board_has_blank b Hv) as H0.
  destruct (nine_cells b (valid_board_length b Hv))
    as (a0 & a1 & a2 & a3 & a4 & a5 & a6 & a7 & a8 & ->).
  repeat match goal with
         | H : Forall _ (_ :: _) |- _ =>
             let Hx := fresh "Hx" in
             apply Forall_cons_iff in H; destruct H as [Hx H]
         end.
  unfold succs, brd_of, succ_fast. cbn [blank_pos].
  rewrite !is_blank_tile_of by assumption.
  destruct (Z.eqb_spec a0 0) as [->|N0]; [reflexivity|].
  destruct (Z.eqb_spec a1 0) as [->|N1]; [reflexivity|].
  destruct (Z.eqb_spec a2 0) as [->|N2]; [reflexivity|].
  destruct (Z.eqb_spec a3 0) as [->|N3]; [reflexivity|].
  destruct (Z.eqb_spec a4 0) as [->|N4]; [reflexivity|].
  destruct (Z.eqb_spec a5 0) as [->|N5]; [reflexivity|].
  destruct (Z.eqb_spec a6 0) as [->|N6]; [reflexivity|].
  destruct (Z.eqb_spec a7 0) as [->|N7]; [reflexivity|].
  assert (a8 = 0) as ->.
  { cbn in H0. repeat (destruct H0 as [H0|H0]; [congruence|]). destruct H0. }
  reflexivity.
Qed.

Lemma legal_move_succs (b t : Board) :
  valid_board b -> legal_move b t -> In (brd_of t) (succs (brd_of b)).
Proof.
  intros Hv Hl. unfold legal_move in Hl.
  rewrite (successors_fast b Hv) in Hl.
  rewrite (succs_brd_of b Hv). now apply in_map.
Qed.

Lemma succs_legal_move (b : Board) (y : brd) :
  valid_board b -> In y (succs (brd_of b)) ->
  exists t, legal_move b t /\ brd_of t = y.
Proof.
  intros Hv Hy. rewrite (succs_brd_of b Hv) in Hy.
  apply in_map_iff in Hy. destruct Hy as (t & <- & Ht).
  exists t. split; [|reflexivity].
  unfold legal_move. now rewrite (successors_fast b Hv).
Qed.

Lemma tile_cost_of (v : Z) :
  0 <= v <= 8 ->
  cell_cost 0 v = Z.of_nat (tile_cost0 (tile_of v)) /\
  cell_cost 1 v = Z.of_nat (tile_cost1 (tile_of v)) /\
  cell_cost 2 v = Z.of_nat (tile_cost2 (tile_of v)) /\
  cell_cost 3 v = Z.of_nat (tile_cost3 (tile_of v)) /\
  cell_cost 4 v = Z.of_nat (tile_cost4 (tile_of v)) /\
  cell_cost 5 v = Z.of_nat (tile_cost5 (tile_of v)) /\
  cell_cost 6 v = Z.of_nat (tile_cost6 (tile_of v)) /\
  cell_cost 7 v = Z.of_nat (tile_cost7 (tile_of v)) /\
  cell_cost 8 v = Z.of_nat (tile_cost8 (tile_of v)).
Proof.
  intros Hv.
  assert (Hc : v = 0 \/ v = 1 \/ v = 2 \/ v = 3 \/ v = 4 \/
               v = 5 \/ v = 6 \/ v = 7 \/ v = 8) by lia.
  repeat (destruct Hc as [Hc|Hc];
          [rewrite Hc; vm_compute; repeat split; reflexivity|]).
  rewrite Hc. vm_compute. repeat split; reflexivity.
Qed.

(** The Manhattan distance of the tables is [manhattanDistance]. *)
Lemma manhattan_brd_of (b : Board) :
  valid_board b ->
  manhattanDistance b = Z.of_nat (manhattan_brd (brd_of b)).
Proof.
  intros Hv.
  pose proof (valid_board_cells b Hv) as Hc.
  destruct (nine_cells b (valid_board_length b Hv))
    as (a0 & a1 & a2 & a3 & a4 & a5 & a6 & a7 & a8 & ->).
  repeat match goal with
         | H : Forall _ (_ :: _) |- _ =>
             let Hx := fresh "Hx" in
             apply Forall_cons_iff in H; destruct H as [Hx H]
         end.
  rewrite manhattanDistance_cells. unfold brd_of, manhattan_brd.
  rewrite !Nat2Z.inj_add.
  repeat match goal with
         | H : 0 <= ?v <= 8 |- _ =>
             let T := fresh "T" in
             pose proof (tile_cost_of v H) as T; clear H;
             destruct T as (? & ? & ? & ? & ? & ? & ? & ? & ?)
         end.
  lia.
Qed.

Lemma is_walk_cons (b t g : Board) (w : list Board) :
  legal_move b t -> is_walk t g w ->
  is_walk b g (b :: w) /\ walk_moves (b :: w) = walk_moves w + 1.
Proof.
  intros Hl (Hhd & Hlast & Hch).
  destruct w as [|x w]; [discriminate Hhd|]. injection Hhd as ->.
  split; [repeat split|].
  - change (last (b :: t :: w) b) with (last (t :: w) b).
    rewrite (last_nonempty_default (t :: w) b t) by discriminate. exact Hlast.
  - exact Hl.
  - exact Hch.
  - unfold walk_moves. cbn [length]. lia.
Qed.

(* ------------------------------------------------------------------ *)
(** ** Every arrangement is enumerated *)
(* ------------------------------------------------------------------ *)

Lemma inserts_middle (x : Z) (l1 l2 : list Z) :
  In (l1 ++ x :: l2) (inserts x (l1 ++ l2)).
Proof.
  induction l1 as [|y l1 IH]; cbn [app inserts].
  - destruct l2; now left.
  - right. apply in_map. exact IH.
Qed.

Lemma perms_complete (l : list Z) :
  forall l', Permutation l l' -> In l' (perms l).
Proof.
  induction l as [|x l IH]; intros l' Hp.
  - apply Permutation_nil in Hp. subst. now left.
  - assert (Hin : In x l') by (apply (Permutation_in x Hp); now left).
    apply in_split in Hin. destruct Hin as (l1 & l2 & ->).
    apply Permutation_cons_app_inv in Hp.
    cbn [perms]. apply in_flat_map. exists (l1 ++ l2).
    split; [now apply IH|apply inserts_middle].
Qed.

Lemma all_boards_complete (b : Board) : valid_board b -> In b all_boards.
Proof. intros Hv. apply perms_complete, Permutation_sym, Hv. Qed.

(* ------------------------------------------------------------------ *)
(** ** The state graph: the certificates hold *)
(* ------------------------------------------------------------------ *)

Lemma table_cert_corner : table_cert 8 = true.
Proof. vm_cast_no_check (@eq_refl bool true). Qed.

Lemma table_cert_side : table_cert 7 = true.
Proof. vm_cast_no_check (@eq_refl bool true). Qed.

Lemma table_cert_centre : table_cert 4 = true.
Proof. vm_cast_no_check (@eq_refl bool true). Qed.

Lemma goal_cert_holds : goal_cert = true.
Proof. vm_cast_no_check (@eq_refl bool true). Qed.

(** The tables and the list of all arrangements are never unfolded by a
    tactic. *)
#[global] Opaque table_of all_boards.

(* ------------------------------------------------------------------ *)
(** ** What a certificate says of its table *)
(* ------------------------------------------------------------------ *)

Section TableFacts.

Variable tab : Table.t.
Variable p : nat.
Hypothesis Hcert : table_cert_on tab p = true.

Lemma cert_scan :
  Table.lookup tab (brd_of (canon p)) = Some O /\
  exists h,
    scan (probe_table tab) all_boards (repeat O max_depth) = Some h /\
    map Z.of_nat h = nth p layer_table [].
Proof.
  unfold table_cert_on in Hcert.
  destruct (Table.lookup tab (brd_of (canon p))) as [[|d]|];
    [|discriminate Hcert|discriminate Hcert].
  split; [reflexivity|].
  destruct (scan (probe_table tab) all_boards (repeat O max_depth)) as [h|];
    [|discriminate Hcert].
  exists h. split; [reflexivity|]. now apply list_eqb_eq.
Qed.

(** A board of the table is less than [max_depth] deep, and the boards one
    legal move from it are in the table, one deeper at most. *)
Lemma cert_lipschitz (b : Board) (d : nat) :
  valid_board b -> Table.lookup tab (brd_of b) = Some d ->
  probe_table tab b = Some (Some d) /\
  (d < max_depth)%nat /\
  forall t, legal_move b t ->
    exists d', Table.lookup tab (brd_of t) = Some d' /\ (d' <= S d)%nat.
Proof.
  intros Hv Hd. destruct cert_scan as (_ & h & Hscan & _).
  destruct (scan_spec _ _ _ _ Hscan) as (Hall & _).
  specialize (Hall b (all_boards_complete b Hv)).
  unfold probe_table in *. cbv zeta in *. rewrite Hd in *.
  destruct ((d <? max_depth)%nat &&
            forallb (fun y => match Table.lookup tab y with
                              | Some d' => (d' <=? S d)%nat
                              | None => false
                              end) (succs (brd_of b))) eqn:Hok;
    [|congruence].
  apply andb_prop in Hok. destruct Hok as [Hlt Hsucc].
  split; [reflexivity|]. split; [now apply Nat.ltb_lt|].
  intros t Ht. rewrite forallb_forall in Hsucc.
  specialize (Hsucc _ (legal_move_succs b t Hv Ht)).
  destruct (Table.lookup tab (brd_of t)) as [d'|]; [|discriminate Hsucc].
  exists d'. split; [reflexivity|now apply Nat.leb_le].
Qed.

(** Row [p] of [layer_table] counts the boards of the table by depth. *)
Lemma cert_layers (k : nat) :
  (k < max_depth)%nat ->
  nth k (nth p layer_table []) 0 =
  Z.of_nat (length (filter (has_key (probe_table tab) k) all_boards)).
Proof.
  intros Hk. destruct cert_scan as (_ & h & Hscan & Hrow).
  destruct (scan_spec _ _ _ _ Hscan) as (_ & _ & Hcount).
  rewrite <- Hrow. change 0 with (Z.of_nat O). rewrite map_nth.
  rewrite Hcount by (now rewrite repeat_length).
  now rewrite nth_repeat_O.
Qed.

(** A board reached by a walk from a board of the table is in the table,
    no deeper than where the walk started plus the moves of the walk. *)
Lemma cert_walk (b : Board) (d0 : nat) :
  valid_board b -> Table.lookup tab (brd_of b) = Some d0 ->
  forall w u, is_walk b u w ->
    exists d, Table.lookup tab (brd_of u) = Some d /\
              Z.of_nat d <= Z.of_nat d0 + walk_moves w.
Proof.
  intros Hv Hfind.
  induction w as [|x w IH] using rev_ind; intros u Hw.
  - destruct Hw as (Hhd & _). discriminate Hhd.
  - destruct (is_walk_last b u _ Hw) as (w' & Heq).
    apply app_inj_tail in Heq. destruct Heq as [<- ->].
    destruct w as [|y w0].
    + destruct Hw as (Hhd & _). injection Hhd as ->.
      exists d0. split; [exact Hfind|]. unfold walk_moves. cbn. lia.
    + set (w := y :: w0) in *.
      assert (Hne : w <> []) by discriminate.
      destruct (is_walk_unsnoc b u w Hne Hw) as [Hw' Hl].
      destruct (IH _ Hw') as (d1 & Hf1 & Hd1).
      pose proof (is_walk_end_valid b _ w Hv Hw') as Hv1.
      destruct (cert_lipschitz _ d1 Hv1 Hf1) as (_ & _ & Hsucc).
      destruct (Hsucc u Hl) as (d' & Hf' & Hd').
      exists d'. split; [exact Hf'|].
      unfold walk_moves in *. rewrite length_app. cbn [length]. lia.
Qed.

End TableFacts.

(* ------------------------------------------------------------------ *)
(** ** What the certificate of the goal says of its table *)
(* ------------------------------------------------------------------ *)

Section GoalFacts.

Variable tab : Table.t.
Variable est : list (list Z).
Hypothesis Hcert : goal_cert_on tab est = true.

Lemma goal_scan :
  exists h,
    scan (probe_goal tab est) all_boards (repeat O max_depth) = Some h /\
    prefix_sums 0 (map Z.of_nat h) = within_table.
Proof.
  unfold goal_cert_on in Hcert.
  destruct (scan (probe_goal tab est) all_boards (repeat O max_depth)) as [h|];
    [|discriminate Hcert].
  exists h. split; [reflexivity|]. now apply list_eqb_eq.
Qed.

(** Every solvable board is in the table. *)
Lemma goal_solvable (b : Board) :
  valid_board b -> isSolvable b = true ->
  exists d, Table.lookup tab (brd_of b) = Some d.
Proof.
  intros Hv Hs. destruct goal_scan as (h & Hscan & _).
  destruct (scan_spec _ _ _ _ Hscan) as (Hall & _).
  specialize (Hall b (all_boards_complete b Hv)).
  unfold probe_goal in Hall. cbv zeta in Hall.
  destruct (Table.lookup tab (brd_of b)) as [d|]; [now exists d|].
  rewrite Hs in Hall. congruence.
Qed.

(** A board of the table at depth 0 is the goal, a deeper one has a legal
    move one level up; the estimate of its row and depth is within the
    cap, and it is counted under its Manhattan distance. *)
Lemma goal_entry (b : Board) (d : nat) :
  valid_board b -> Table.lookup tab (brd_of b) = Some d ->
  match d with
  | O => b = GOAL_STATE
  | S d1 => exists t, legal_move b t /\ Table.lookup tab (brd_of t) = Some d1
  end /\
  nth d (nth (blank_pos b) est []) (closed_cap + 1) <= closed_cap /\
  probe_goal tab est b = Some (Some (manhattan_brd (brd_of b))).
Proof.
  intros Hv Hd. destruct goal_scan as (h & Hscan & _).
  destruct (scan_spec _ _ _ _ Hscan) as (Hall & _).
  specialize (Hall b (all_boards_complete b Hv)).
  unfold probe_goal in *. cbv zeta in *. rewrite Hd in *.
  match type of Hall with
  | (if ?c then _ else _) <> _ => destruct c eqn:Hok; [|congruence]
  end.
  apply andb_prop in Hok. destruct Hok as [Hpred Hb].
  split; [|split; [now apply Z.leb_le|reflexivity]].
  destruct d as [|d1].
  - now apply list_eqb_eq.
  - rewrite existsb_exists in Hpred. destruct Hpred as (y & Hy & Hdy).
    destruct (succs_legal_move b y Hv Hy) as (t & Ht & <-).
    exists t. split; [exact Ht|].
    destruct (Table.lookup tab (brd_of t)) as [d'|]; [|discriminate Hdy].
    apply Nat.eqb_eq in Hdy. now subst d'.
Qed.

(** An entry of the table at depth [d] is [d] moves from the goal. *)
Lemma goal_walk :
  forall (d : nat) (b : Board),
    valid_board b -> Table.lookup tab (brd_of b) = Some d ->
    exists w, is_walk b GOAL_STATE w /\ walk_moves w = Z.of_nat d.
Proof.
  induction d as [|d IH]; intros b Hv Hfind;
    destruct (goal_entry b _ Hv Hfind) as (Hpred & _).
  - subst b. exists [GOAL_STATE]. split; [apply is_walk_single|reflexivity].
  - destruct Hpred as (t & Ht & Hft).
    pose proof (legal_move_valid b t Hv Ht) as Hvt.
    destruct (IH t Hvt Hft) as (w & Hw & Hm).
    exists (b :: w). destruct (is_walk_cons b t GOAL_STATE w Ht Hw) as [Hw' Hm'].
    split; [exact Hw'|]. lia.
Qed.

(** [within_table] counts the boards of the table by Manhattan
    distance. *)
Lemma goal_within (m : nat) :
  (m < max_depth)%nat ->
  nth m within_table 0 =
  Z.of_nat (length (filter (key_within (probe_goal tab est) m) all_boards)).
Proof.
  intros Hm. destruct goal_scan as (h & Hscan & Hrow).
  destruct (scan_spec _ _ _ _ Hscan) as (_ & Hlen & Hcount).
  rewrite repeat_length in Hlen, Hcount.
  rewrite <- Hrow, prefix_sums_nth by (rewrite length_map; lia).
  rewrite firstn_map, sumZ_of_nat, key_within_count.
  rewrite (firstn_map_nth O) by lia.
  rewrite Z.add_0_l. do 2 f_equal.
  apply map_ext_in. intros k Hk. apply in_seq in Hk.
  rewrite Hcount by lia. now rewrite nth_repeat_O.
Qed.

End GoalFacts.

(* ------------------------------------------------------------------ *)
(** ** Renaming the tiles *)
(* ------------------------------------------------------------------ *)

Lemma rename_map (l : Board) :
  forall l', NoDup l -> length l = length l' -> map (rename l l') l = l'.
Proof.
  induction l as [|x l IH]; intros [|y l'] Hnd Hlen; try discriminate Hlen;
    [reflexivity|].
  inversion Hnd as [|? ? Hnin Hnd']; subst.
  cbn [map]. f_equal.
  - unfold rename. cbn [combine find fst snd]. now rewrite Z.eqb_refl.
  - rewrite <- (IH l' Hnd') at 2 by (now injection Hlen).
    apply map_ext_in. intros v Hv. unfold rename. cbn [combine find fst].
    destruct (Z.eqb_spec x v) as [->|Hne]; [contradiction|reflexivity].
Qed.

Lemma NoDup_map_inj_on {A B} (f : A -> B) (l : list A) :
  NoDup (map f l) ->
  forall x y, In x l -> In y l -> f x = f y -> x = y.
Proof.
  induction l as [|a l IH]; intros Hnd x y Hx Hy Heq; [destruct Hx|].
  cbn [map] in Hnd. inversion Hnd as [|? ? Hnin Hnd']; subst.
  destruct Hx as [<-|Hx], Hy as [<-|Hy]; auto.
  - exfalso. apply Hnin. rewrite Heq. now apply in_map.
  - exfalso. apply Hnin. rewrite <- Heq. now apply in_map.
Qed.

Lemma valid_board_NoDup (b : Board) : valid_board b -> NoDup b.
Proof.
  intros Hv. apply (Permutation_NoDup (Permutation_sym Hv)).
  unfold GOAL_STATE.
  repeat (constructor; [cbn; intros H; repeat (destruct H as [H|H]; [discriminate H|]); exact H|]).
  constructor.
Qed.

Lemma valid_board_In (b : Board) (v : Z) :
  valid_board b -> (In v b <-> 0 <= v <= 8).
Proof.
  intros Hv. split.
  - intros Hin. pose proof (valid_board_cells b Hv) as Hc.
    rewrite Forall_forall in Hc. now apply Hc.
  - intros Hr. apply (Permutation_in v (Permutation_sym Hv)).
    unfold GOAL_STATE. cbn.
    assert (Hc : v = 0 \/ v = 1 \/ v = 2 \/ v = 3 \/ v = 4 \/
                 v = 5 \/ v = 6 \/ v = 7 \/ v = 8) by lia.
    intuition.
Qed.

Lemma canon_valid (p : nat) : (p < 9)%nat -> valid_board (canon p).
Proof.
  intros Hp. unfold valid_board, canon.
  etransitivity; [symmetry; apply Permutation_middle|].
  rewrite firstn_skipn. apply (Permutation_cons_append tiles 0).
Qed.

Lemma canon_blank_cell (p : nat) (d : Z) : (p < 9)%nat -> nth p (canon p) d = 0.
Proof. intros Hp. do 9 (destruct p as [|p]; [reflexivity|]). lia. Qed.

Lemma rename_to_canon (start : Board) :
  valid_board start ->
  let r := rename start (canon (blank_pos start)) in
  map r start = canon (blank_pos start) /\ good_rename r.
Proof.
  intros Hv r.
  destruct (blank_pos_spec start Hv) as (_ & Hp & Hblank).
  pose proof (canon_valid _ Hp) as Hcv.
  assert (Hmap : map r start = canon (blank_pos start)).
  { apply rename_map; [now apply valid_board_NoDup|].
    now rewrite (valid_board_length _ Hv), (valid_board_length _ Hcv). }
  split; [exact Hmap|].
  assert (Hinj : forall v v', 0 <= v <= 8 -> 0 <= v' <= 8 -> r v = r v' -> v = v').
  { intros v v' Hr Hr'.
    apply (NoDup_map_inj_on r start);
      [rewrite Hmap; now apply valid_board_NoDup| |];
      now apply (valid_board_In start). }
  repeat split.
  - pose proof (map_nth r start 0 (blank_pos start)) as Hn.
    rewrite Hmap, canon_blank_cell in Hn by exact Hp.
    unfold get in Hblank. rewrite Hblank in Hn. now symmetry.
  - exact Hinj.
  - intros b Hb. unfold valid_board.
    etransitivity; [apply Permutation_map|].
    + etransitivity; [exact Hb|symmetry; exact Hv].
    + rewrite Hmap. exact Hcv.
Qed.

Lemma rename_blank_pos (r : Z -> Z) (b : Board) :
  good_rename r -> Forall (fun v => 0 <= v <= 8) b ->
  blank_pos (map r b) = blank_pos b.
Proof.
  intros (H0 & Hinj & _). induction 1 as [|v b Hv Hb IH]; [reflexivity|].
  cbn [map blank_pos]. rewrite IH.
  destruct (Z.eqb_spec v 0) as [->|Hne].
  - now rewrite H0.
  - destruct (Z.eqb_spec (r v) 0) as [Heq|]; [|reflexivity].
    exfalso. apply Hne. apply Hinj; [exact Hv|lia|]. now rewrite H0.
Qed.

Lemma rename_set_at (r : Z -> Z) (b : Board) :
  forall i v, set_at i (r v) (map r b) = map r (set_at i v b).
Proof.
  induction b as [|x b IH]; intros [|i] v; cbn [map set_at]; try reflexivity.
  now rewrite IH.
Qed.

Lemma rename_swap_cells (r : Z -> Z) (b : Board) (e s : nat) :
  r 0 = 0 -> swap_cells (map r b) e s = map r (swap_cells b e s).
Proof.
  intros H0. unfold swap_cells, get.
  assert (Hg : forall i, nth i (map r b) 0 = r (nth i b 0)).
  { intros i. rewrite <- H0 at 1. apply map_nth. }
  now rewrite !Hg, !rename_set_at.
Qed.

Lemma rename_succ_fast (r : Z -> Z) (b : Board) :
  good_rename r -> valid_board b ->
  succ_fast (map r b) = map (map r) (succ_fast b).
Proof.
  intros Hr Hv. unfold succ_fast.
  rewrite (rename_blank_pos r b Hr (valid_board_cells b Hv)).
  rewrite map_map. apply map_ext. intros sn.
  destruct Hr as (H0 & _). now apply rename_swap_cells.
Qed.

Lemma rename_legal_move (r : Z -> Z) (b t : Board) :
  good_rename r -> valid_board b -> legal_move b t ->
  legal_move (map r b) (map r t).
Proof.
  intros Hr Hv Hl. pose proof Hr as (_ & _ & Hval).
  unfold legal_move in *.
  rewrite (successors_fast _ (Hval b Hv)), (rename_succ_fast r b Hr Hv).
  rewrite (successors_fast b Hv) in Hl. now apply in_map.
Qed.

Lemma rename_inj (r : Z -> Z) (b : Board) :
  good_rename r ->
  forall b', Forall (fun v => 0 <= v <= 8) b -> Forall (fun v => 0 <= v <= 8) b' ->
             map r b = map r b' -> b = b'.
Proof.
  intros (_ & Hinj & _).
  induction b as [|v b IH]; intros [|v' b'] Hb Hb' Heq; try discriminate Heq;
    [reflexivity|].
  inversion Hb; inversion Hb'; subst. cbn [map] in Heq.
  injection Heq as Hv Ht. f_equal; [now apply Hinj|now apply IH].
Qed.

(* ------------------------------------------------------------------ *)
(** ** Automorphisms of the state graph *)
(* ------------------------------------------------------------------ *)

Lemma automorphism_rename (r : Z -> Z) :
  good_rename r -> automorphism (map r).
Proof.
  intros Hr. pose proof Hr as (_ & _ & Hval). split; [exact Hval|split].
  - intros b t. now apply rename_legal_move.
  - intros b b' Hb Hb'. apply (rename_inj r b Hr); now apply valid_board_cells.
Qed.

Lemma automorphism_id : automorphism (fun b => b).
Proof. repeat split; auto. Qed.

Lemma automorphism_compose (f g : Board -> Board) :
  automorphism f -> automorphism g -> automorphism (fun b => g (f b)).
Proof.
  intros (Hfv & Hfl & Hfi) (Hgv & Hgl & Hgi). split; [|split].
  - intros b Hb. auto.
  - intros b t Hb Hl. auto.
  - intros b b' Hb Hb' Heq. apply Hfi; auto.
Qed.

Lemma last_map {A B} (f : A -> B) (w : list A) (d : A) :
  last (map f w) (f d) = f (last w d).
Proof.
  induction w as [|x w IH]; [reflexivity|].
  destruct w as [|y w]; [reflexivity|]. exact IH.
Qed.

Lemma automorphism_move_chain (f : Board -> Board) (w : list Board) :
  automorphism f -> Forall valid_board w -> move_chain w ->
  move_chain (map f w).
Proof.
  intros (_ & Hl & _). induction w as [|x w IH]; intros Hall Hch; [exact I|].
  destruct w as [|y w]; [exact I|].
  destruct Hch as [Hxy Hch]. inversion Hall as [|? ? Hx Hall']; subst.
  split; [now apply Hl|]. now apply IH.
Qed.

(** An automorphism takes a walk to a walk of as many moves. *)
Lemma automorphism_walk (f : Board -> Board) (start u : Board) (w : list Board) :
  automorphism f -> valid_board start -> is_walk start u w ->
  is_walk (f start) (f u) (map f w) /\ walk_moves (map f w) = walk_moves w.
Proof.
  intros Hf Hv (Hhd & Hlast & Hch). split; [split; [|split]|].
  - destruct w; [discriminate Hhd|]. injection Hhd as ->. reflexivity.
  - rewrite <- Hlast. exact (last_map f w start).
  - apply automorphism_move_chain; [exact Hf| |exact Hch].
    now apply (walk_valid start).
  - unfold walk_moves. now rewrite length_map.
Qed.

(* ------------------------------------------------------------------ *)
(** ** The symmetries of the grid *)
(* ------------------------------------------------------------------ *)

Lemma blank_pos_at (b : Board) :
  forall i, NoDup b -> (i < length b)%nat -> get b i = 0 -> blank_pos b = i.
Proof.
  unfold get. induction b as [|v b IH]; intros i Hnd Hi H0; [cbn in Hi; lia|].
  inversion Hnd as [|? ? Hnin Hnd']; subst. cbn [blank_pos].
  destruct i as [|i]; cbn [nth] in H0.
  - subst v. reflexivity.
  - cbn [length] in Hi.
    destruct (Z.eqb_spec v 0) as [->|Hne].
    + exfalso. apply Hnin. rewrite <- H0. apply nth_In. lia.
    + f_equal. apply IH; [exact Hnd'|lia|exact H0].
Qed.

Ltac split_at x l :=
  lazymatch l with
  | x :: ?r => constr:((@nil Z, r))
  | ?y :: ?r =>
      lazymatch split_at x r with
      | (?l1, ?l2) => constr:((y :: l1, l2))
      end
  end.

Ltac rearranged :=
  lazymatch goal with
  | |- Permutation [] [] => constructor
  | |- Permutation (?x :: ?l) ?l' =>
      lazymatch split_at x l' with
      | (?l1, ?l2) =>
          apply (Permutation_cons_app l1 l2 x); cbn [app]; rearranged
      end
  end.

Ltac unfold_symmetry :=
  unfold flip_columns, flip_rows, transpose, pick, get; cbn [map nth].

(** What the three symmetries share: each keeps validity, is its own
    inverse on boards of nine cells, and takes the legal moves of a valid
    board to legal moves. *)
Ltac symmetry_valid :=
  let b := fresh "b" in let Hv := fresh "Hv" in
  intros b Hv;
  destruct (nine_cells b (valid_board_length b Hv))
    as (a0 & a1 & a2 & a3 & a4 & a5 & a6 & a7 & a8 & ->);
  unfold valid_board in *; unfold_symmetry;
  etransitivity; [|exact Hv]; rearranged.

Ltac blank_cell_of H0 Hnd :=
  first
    [ rewrite (blank_pos_at _ 0%nat Hnd ltac:(cbn; lia) H0)
    | rewrite (blank_pos_at _ 1%nat Hnd ltac:(cbn; lia) H0)
    | rewrite (blank_pos_at _ 2%nat Hnd ltac:(cbn; lia) H0)
    | rewrite (blank_pos_at _ 3%nat Hnd ltac:(cbn; lia) H0)
    | rewrite (blank_pos_at _ 4%nat Hnd ltac:(cbn; lia) H0)
    | rewrite (blank_pos_at _ 5%nat Hnd ltac:(cbn; lia) H0)
    | rewrite (blank_pos_at _ 6%nat Hnd ltac:(cbn; lia) H0)
    | rewrite (blank_pos_at _ 7%nat Hnd ltac:(cbn; lia) H0)
    | rewrite (blank_pos_at _ 8%nat Hnd ltac:(cbn; lia) H0) ].

Ltac symmetry_legal Hvalid :=
  let b := fresh "b" in let t := fresh "t" in
  let Hv := fresh "Hv" in let Hl := fresh "Hl" in
  intros b t Hv Hl;
  pose proof (Hvalid b Hv) as Hfv;
  pose proof (valid_board_NoDup _ Hfv) as Hnd;
  unfold legal_move in *;
  rewrite (successors_fast _ Hfv); rewrite (successors_fast b Hv) in Hl;
  destruct (blank_pos_spec b Hv) as (_ & He & H0);
  clear Hfv;
  destruct (nine_cells b (valid_board_length b Hv))
    as (a0 & a1 & a2 & a3 & a4 & a5 & a6 & a7 & a8 & ->);
  unfold succ_fast in *;
  revert Hnd; unfold_symmetry; intros Hnd;
  destruct (blank_pos [a0; a1; a2; a3; a4; a5; a6; a7; a8])
    as [|[|[|[|[|[|[|[|[|e]]]]]]]]];
    [| | | | | | | | |lia];
    unfold get in H0; cbn [nth] in H0;
    blank_cell_of H0 Hnd;
    cbn [moves_table map fst] in Hl |- *;
    unfold swap_cells, get in Hl |- *; cbn [nth set_at] in Hl |- *;
    cbn [In] in Hl |- *;
    repeat (destruct Hl as [Hl|Hl]; [subst t; cbn [map nth]; tauto|]);
    destruct Hl.

Ltac symmetry_involution :=
  let b := fresh "b" in let Hv := fresh "Hv" in
  intros b Hv;
  destruct (nine_cells b (valid_board_length b Hv))
    as (a0 & a1 & a2 & a3 & a4 & a5 & a6 & a7 & a8 & ->);
  reflexivity.

Lemma involution_automorphism (f : Board -> Board) :
  (forall b, valid_board b -> valid_board (f b)) ->
  (forall b t, valid_board b -> legal_move b t -> legal_move (f b) (f t)) ->
  (forall b, valid_board b -> f (f b) = b) ->
  automorphism f.
Proof.
  intros Hval Hleg Hinv. split; [exact Hval|split; [exact Hleg|]].
  intros b b' Hb Hb' Heq. rewrite <- (Hinv b Hb), <- (Hinv b' Hb').
  now rewrite Heq.
Qed.

Lemma flip_columns_valid : forall b, valid_board b -> valid_board (flip_columns b).
Proof. symmetry_valid. Qed.

Lemma flip_rows_valid : forall b, valid_board b -> valid_board (flip_rows b).
Proof. symmetry_valid. Qed.

Lemma transpose_valid : forall b, valid_board b -> valid_board (transpose b).
Proof. symmetry_valid. Qed.

Lemma automorphism_flip_columns : automorphism flip_columns.
Proof.
  apply involution_automorphism.
  - exact flip_columns_valid.
  - symmetry_legal flip_columns_valid.
  - symmetry_involution.
Qed.

Lemma automorphism_flip_rows : automorphism flip_rows.
Proof.
  apply involution_automorphism.
  - exact flip_rows_valid.
  - symmetry_legal flip_rows_valid.
  - symmetry_involution.
Qed.

Lemma automorphism_transpose : automorphism transpose.
Proof.
  apply involution_automorphism.
  - exact transpose_valid.
  - symmetry_legal transpose_valid.
  - symmetry_involution.
Qed.

Lemma automorphism_to_class (p : nat) : automorphism (to_class p).
Proof.
  pose proof automorphism_flip_columns as Hc.
  pose proof automorphism_flip_rows as Hr.
  pose proof automorphism_transpose as Ht.
  destruct p as [|[|[|[|[|[|[|p]]]]]]]; unfold to_class.
  - exact (automorphism_compose flip_rows flip_columns Hr Hc).
  - exact Hr.
  - exact Hr.
  - exact (automorphism_compose transpose flip_rows Ht Hr).
  - exact automorphism_id.
  - exact Ht.
  - exact Hc.
  - exact automorphism_id.
Qed.

(** [to_class p] takes the blank from cell [p] to [class_cell p]. *)
Lemma to_class_blank (b : Board) :
  valid_board b ->
  blank_pos (to_class (blank_pos b) b) = class_cell (blank_pos b).
Proof.
  intros Hv.
  destruct (automorphism_to_class (blank_pos b)) as (Hval & _).
  pose proof (valid_board_NoDup _ (Hval b Hv)) as Hnd.
  destruct (blank_pos_spec b Hv) as (_ & He & H0).
  destruct (nine_cells b (valid_board_length b Hv))
    as (a0 & a1 & a2 & a3 & a4 & a5 & a6 & a7 & a8 & ->).
  destruct (blank_pos [a0; a1; a2; a3; a4; a5; a6; a7; a8])
    as [|[|[|[|[|[|[|[|[|e]]]]]]]]];
    [| | | | | | | | |lia];
    cbn [to_class class_cell] in *;
    revert Hnd; unfold_symmetry; intros Hnd;
    unfold get in H0; cbn [nth] in H0;
    apply (blank_pos_at _ _ Hnd); first [cbn; lia|exact H0].
Qed.

Lemma class_cell_row (p : nat) :
  (p < 9)%nat ->
  (class_cell p = 8 \/ class_cell p = 7 \/ class_cell p = 4)%nat /\
  nth p layer_table [] = nth (class_cell p) layer_table [].
Proof.
  intros Hp.
  do 9 (destruct p as [|p]; [cbn [class_cell]; split; [lia|reflexivity]|]).
  lia.
Qed.

(* ------------------------------------------------------------------ *)
(** ** Counting *)
(* ------------------------------------------------------------------ *)

Lemma filter_split_length {A} (P : A -> bool) (l : list A) :
  length l = (length (filter P l) + length (filter (fun x => negb (P x)) l))%nat.
Proof.
  induction l as [|x l IH]; [reflexivity|].
  cbn [filter]. destruct (P x); cbn [negb length]; lia.
Qed.

Lemma filter_filter_implied {A} (P Q : A -> bool) (l : list A) :
  (forall x, P x = true -> Q x = true) ->
  filter P (filter Q l) = filter P l.
Proof.
  intros Himp. induction l as [|x l IH]; [reflexivity|].
  cbn [filter]. destruct (Q x) eqn:HQ.
  - cbn [filter]. now rewrite IH.
  - rewrite IH. destruct (P x) eqn:HP; [|reflexivity].
    rewrite (Himp x HP) in HQ. discriminate HQ.
Qed.

(** A list splits into the buckets of a key. *)
Lemma count_by_key {A} (f : A -> nat) (ks : list nat) :
  NoDup ks ->
  forall l, (forall x, In x l -> In (f x) ks) ->
    Z.of_nat (length l) =
    sumZ (map (fun k => Z.of_nat (length (filter (fun x => (f x =? k)%nat) l))) ks).
Proof.
  induction 1 as [|k ks Hnin Hnd IH]; intros l Hl.
  - destruct l as [|x l]; [reflexivity|]. destruct (Hl x (or_introl eq_refl)).
  - cbn [map sumZ fold_right]. fold (sumZ (map (fun k0 =>
        Z.of_nat (length (filter (fun x => (f x =? k0)%nat) l))) ks)).
    rewrite (filter_split_length (fun x => (f x =? k)%nat) l) at 1.
    rewrite Nat2Z.inj_add. f_equal.
    rewrite (IH (filter (fun x => negb (f x =? k)%nat) l)).
    + f_equal. apply map_ext_in. intros k' Hk'. do 2 f_equal.
      apply filter_filter_implied. intros x Hx. apply Nat.eqb_eq in Hx.
      apply negb_true_iff, Nat.eqb_neq. intros Heq. apply Hnin. congruence.
    + intros x Hx. apply filter_In in Hx. destruct Hx as [Hx Hne].
      apply negb_true_iff, Nat.eqb_neq in Hne.
      destruct (Hl x Hx) as [Heq|Hin]; [congruence|exact Hin].
Qed.

Lemma sumZ_le {A} (g h : A -> Z) (ks : list A) :
  (forall k, In k ks -> g k <= h k) -> sumZ (map g ks) <= sumZ (map h ks).
Proof.
  induction ks as [|k ks IH]; intros Hle; [cbn; lia|].
  cbn [map sumZ fold_right]. fold (sumZ (map g ks)) (sumZ (map h ks)).
  pose proof (Hle k (or_introl eq_refl)).
  assert (sumZ (map g ks) <= sumZ (map h ks)) by (apply IH; intros; apply Hle; now right).
  lia.
Qed.

Lemma NoDup_map_inj_in {A B} (g : A -> B) (l : list A) :
  NoDup l -> (forall x y, In x l -> In y l -> g x = g y -> x = y) ->
  NoDup (map g l).
Proof.
  induction 1 as [|a l Hnin Hnd IH]; intros Hinj; [constructor|].
  cbn [map]. constructor.
  - intros Hin. apply in_map_iff in Hin. destruct Hin as (y & Heq & Hy).
    apply Hnin. rewrite (Hinj a y (or_introl eq_refl) (or_intror Hy) (eq_sym Heq)).
    exact Hy.
  - apply IH. intros x y Hx Hy. apply Hinj; now right.
Qed.

(** A repetition-free list that maps one-to-one into another list is no
    longer than it. *)
Lemma injection_count {A B} (g : A -> B) (l : list A) (L : list B) :
  NoDup l -> (forall x y, In x l -> In y l -> g x = g y -> x = y) ->
  (forall x, In x l -> In (g x) L) ->
  (length l <= length L)%nat.
Proof.
  intros Hnd Hinj Hin.
  rewrite <- (length_map g l). apply NoDup_incl_length.
  - now apply NoDup_map_inj_in.
  - intros y Hy. apply in_map_iff in Hy. destruct Hy as (x & <- & Hx). now apply Hin.
Qed.

(* ------------------------------------------------------------------ *)
(** ** The tables of the three kinds of cell, and of the goal *)
(* ------------------------------------------------------------------ *)

Lemma class_cert (q : nat) :
  (q = 8 \/ q = 7 \/ q = 4)%nat -> table_cert_on (table_of q) q = true.
Proof.
  intros [H|[H|H]]; subst q.
  - exact table_cert_corner.
  - exact table_cert_side.
  - exact table_cert_centre.
Qed.

Lemma canon_goal : canon 8 = GOAL_STATE.
Proof. reflexivity. Qed.

Lemma solvable_in_table (b : Board) :
  valid_board b -> isSolvable b = true -> exists d, depth 8 b = Some d.
Proof. exact (goal_solvable (table_of 8) estimate_table goal_cert_holds b). Qed.

Lemma nth_map_seq {A} (f : nat -> A) (n i : nat) (d : A) :
  (i < n)%nat -> nth i (map f (seq 0 n)) d = f i.
Proof.
  intros Hi.
  rewrite (nth_indep _ d (f 0%nat)) by (rewrite length_map, length_seq; lia).
  rewrite map_nth. rewrite seq_nth by lia. reflexivity.
Qed.

(** The estimate of the closed boards is within the cap for every board
    of the goal's table. *)
Lemma table_bound (b : Board) (d : nat) :
  valid_board b -> depth 8 b = Some d ->
  (d < max_depth)%nat /\ closed_estimate (blank_pos b) d <= closed_cap.
Proof.
  intros Hv Hfind.
  destruct (cert_lipschitz (table_of 8) 8 table_cert_corner b d Hv Hfind)
    as (_ & Hd & _).
  destruct (goal_entry (table_of 8) estimate_table goal_cert_holds b d Hv Hfind)
    as (_ & He & _).
  destruct (blank_pos_spec b Hv) as (_ & Hp & _).
  unfold estimate_table in He.
  rewrite (nth_map_seq _ 9 (blank_pos b) [] Hp) in He.
  rewrite (nth_map_seq _ max_depth d) in He by exact Hd.
  split; [exact Hd|exact He].
Qed.

(* ------------------------------------------------------------------ *)
(** ** The closed boards of a search from a solvable board are within
       the cap *)
(* ------------------------------------------------------------------ *)

Lemma closed_bound_solvable (start : Board) :
  valid_board start -> isSolvable start = true -> closed_bound start.
Proof.
  intros Hv Hs.
  set (p := blank_pos start).
  set (q := class_cell p).
  destruct (blank_pos_spec start Hv) as (_ & Hp & _). fold p in Hp.
  destruct (class_cell_row p Hp) as [Hq Hrow]. fold q in Hq, Hrow.
  pose proof (class_cert q Hq) as Hcert.
  pose proof (automorphism_to_class p) as Hsym.
  pose proof Hsym as (Hsymv & _).
  pose proof (Hsymv start Hv) as Hv1.
  pose proof (to_class_blank start Hv) as Hb1. fold p q in Hb1.
  destruct (rename_to_canon (to_class p start) Hv1) as [Hmap Hr].
  rewrite Hb1 in Hmap, Hr.
  set (r := rename (to_class p start) (canon q)) in *.
  set (f := fun c : Board => map r (to_class p c)).
  assert (Hf : automorphism f)
    by exact (automorphism_compose _ _ Hsym (automorphism_rename r Hr)).
  pose proof Hf as (Hfv & _ & Hfi).
  assert (Hq9 : (q < 9)%nat) by lia.
  pose proof (canon_valid q Hq9) as Hcv.
  destruct (cert_scan _ _ Hcert) as (Hroot & _).
  destruct (solvable_in_table start Hv Hs) as (D & HfD).
  destruct (table_bound start D Hv HfD) as [HD Hest]. fold p in Hest.
  destruct (goal_walk (table_of 8) estimate_table goal_cert_holds D start Hv HfD)
    as (wg & Hwg & Hmoves).
  intros cb Hnd Hall.
  (* what is known of each board of the list *)
  assert (Hfacts : forall c, In c cb ->
            valid_board c /\
            exists d e,
              Table.lookup (table_of q) (brd_of (f c)) = Some d /\
              Table.lookup (table_of 8) (brd_of c) = Some e /\
              Z.of_nat d + manhattanDistance c <= Z.of_nat D).
  { intros c Hc. destruct (Hall c Hc) as (Hcvalid & w & Hw & Hcost).
    split; [exact Hcvalid|].
    specialize (Hcost wg Hwg). rewrite Hmoves in Hcost.
    destruct (automorphism_walk f start c w Hf Hv Hw) as [Hrw Hrm].
    unfold f at 1 in Hrw. rewrite Hmap in Hrw.
    destruct (cert_walk _ _ Hcert (canon q) O Hcv Hroot _ _ Hrw)
      as (d & Hfd & Hd).
    destruct (cert_walk _ _ table_cert_corner start D Hv HfD _ _ Hw)
      as (e & Hfe & _).
    exists d, e. rewrite Hrm in Hd. repeat split; auto; lia. }
  set (key := fun c : Board =>
                match Table.lookup (table_of q) (brd_of (f c)) with
                | Some d => d
                | None => O
                end).
  assert (Hkeys : forall c, In c cb -> In (key c) (seq 0 (S D))).
  { intros c Hc. destruct (Hfacts c Hc) as (_ & d & e & Hfd & _ & Hle).
    unfold key. rewrite Hfd. apply in_seq.
    pose proof (manhattanDistance_nonneg c). lia. }
  rewrite (count_by_key key (seq 0 (S D)) (seq_NoDup _ _) cb Hkeys).
  etransitivity; [|exact Hest]. unfold closed_estimate.
  apply sumZ_le. intros k Hk. apply in_seq in Hk.
  rewrite Hrow.
  rewrite (cert_layers _ _ Hcert k) by lia.
  rewrite (goal_within _ _ goal_cert_holds (D - k)) by lia.
  set (bucket := filter (fun c => (key c =? k)%nat) cb).
  assert (Hbnd : NoDup bucket) by (apply NoDup_filter, Hnd).
  assert (Hb : forall c, In c bucket ->
            In c cb /\ valid_board c /\
            Table.lookup (table_of q) (brd_of (f c)) = Some k /\
            (exists e, Table.lookup (table_of 8) (brd_of c) = Some e) /\
            manhattanDistance c <= Z.of_nat (D - k)).
  { intros c Hc. apply filter_In in Hc. destruct Hc as [Hc Hfk].
    apply Nat.eqb_eq in Hfk.
    destruct (Hfacts c Hc) as (Hcvalid & d & e & Hfd & Hfe & Hle).
    unfold key in Hfk. rewrite Hfd in Hfk. subst d.
    repeat split; auto; [now exists e|]. lia. }
  apply Z.min_glb; apply inj_le.
  - (* no more than the boards at depth [k] of the table of cell [q] *)
    apply (injection_count f bucket); [exact Hbnd| |].
    + intros x y Hx Hy Heq.
      destruct (Hb x Hx) as (_ & Hxv & _), (Hb y Hy) as (_ & Hyv & _).
      now apply Hfi.
    + intros c Hc. destruct (Hb c Hc) as (_ & Hcv' & Hfd & _).
      apply (proj2 (filter_In _ (f c) all_boards)).
      split; [apply all_boards_complete, Hfv, Hcv'|].
      destruct (cert_lipschitz _ _ Hcert (f c) k (Hfv c Hcv') Hfd) as (Hprobe & _).
      unfold has_key. rewrite Hprobe. apply Nat.eqb_refl.
  - (* no more than the boards within what is left of the distance *)
    apply (injection_count (fun c => c) bucket); [exact Hbnd|auto|].
    intros c Hc. destruct (Hb c Hc) as (_ & Hcv' & _ & (e & Hfe) & Hh).
    apply (proj2 (filter_In _ c all_boards)).
    split; [apply all_boards_complete, Hcv'|].
    destruct (goal_entry _ _ goal_cert_holds c e Hcv' Hfe) as (_ & _ & Hprobe).
    unfold key_within. rewrite Hprobe. apply Nat.leb_le.
    rewrite (manhattan_brd_of c Hcv') in Hh. lia.
Qed.


(* ------------------------------------------------------------------ *)
(** ** A* search finds a shortest solution of every solvable board *)
(* ------------------------------------------------------------------ *)

Lemma solvable_goal_walk (start : Board) :
  valid_board start -> isSolvable start = true ->
  exists wg, is_walk start GOAL_STATE wg.
Proof.
  intros Hv Hs. destruct (solvable_in_table start Hv Hs) as (D & HfD).
  destruct (goal_walk (table_of 8) estimate_table goal_cert_holds D start Hv HfD)
    as (wg & Hwg & _).
  now exists wg.
Qed.

(** C1. For every solvable board that is a permutation of 0..8,
    [solveAStar] returns a path that starts with the input board, ends with
    the goal state, in which every board is one legal move from the board
    before it, and which is as short as any chain of legal moves from the
    input to the goal (the cap on the closed set is never reached from a
    solvable board); and for the goal board it returns the one-element path
    [[GOAL_STATE]]. *)
Theorem solveAStar_shortest_path (initialBoard : Board) :
  valid_board initialBoard -> isSolvable initialBoard = true ->
  (exists p,
     solveAStar initialBoard = Returned p /\
     hd_error p = Some initialBoard /\
     last p initialBoard = GOAL_STATE /\
     move_chain p /\
     forall q, hd_error q = Some initialBoard ->
               last q initialBoard = GOAL_STATE ->
               move_chain q ->
               (length p - 1 <= length q - 1)%nat) /\
  solveAStar GOAL_STATE = Returned [GOAL_STATE].
Proof.
  intros Hv Hs. split; [|reflexivity].
  destruct (astar_loop_complete initialBoard Hv
              (closed_bound_solvable initialBoard Hv Hs)
              (solvable_goal_walk initialBoard Hv Hs)
              astar_fuel [start_node initialBoard] []
              (astar_inv_init initialBoard Hv)
              (astar_fuel_enough initialBoard))
    as (p & Hret & (Hhd & Hlast & Hch) & Hopt).
  exists p. repeat split; auto.
  intros q Hqh Hql Hqc.
  specialize (Hopt q (conj Hqh (conj Hql Hqc))). unfold walk_moves in Hopt. lia.
Qed.
(** Witness of C1: the board one move from the goal. *)
Lemma solveAStar_shortest_path_witness :
  exists p,
    solveAStar [1; 2; 3; 4; 5; 6; 7; 0; 8] = Returned p /\
    last p [1; 2; 3; 4; 5; 6; 7; 0; 8] = GOAL_STATE.
Proof.
  assert (Hv : valid_board [1; 2; 3; 4; 5; 6; 7; 0; 8]).
  { unfold valid_board, GOAL_STATE. do 7 apply perm_skip. apply perm_swap. }
  destruct (solveAStar_shortest_path [1; 2; 3; 4; 5; 6; 7; 0; 8] Hv eq_refl)
    as [(p & Hret & _ & Hlast & _) _].
  exists p. split; assumption.
Defined.

(* ================================================================== *)
(** * Further properties of the engine and of its callers *)
(* ================================================================== *)

(* ------------------------------------------------------------------ *)
(** ** Goal test and board comparison: [Array.prototype.every] *)
(* ------------------------------------------------------------------ *)

Lemma every_from_prefix (other : Board) (l : Board) :
  forall idx,
    every_from (strict_eq_at other) idx l = true <->
    exists r, skipn idx other = l ++ r.
Proof.
  induction l as [|x l IH]; intros idx; cbn [every_from].
  - split; [intros _; now exists (skipn idx other)|reflexivity].
  - rewrite andb_true_iff, IH. unfold strict_eq_at. split.
    + intros [Hx (r & Hr)].
      destruct (nth_error other idx) as [w|] eqn:Hn; [|discriminate Hx].
      apply Z.eqb_eq in Hx. subst w. exists r.
      rewrite (skipn_nth_error_cons _ _ _ Hn). cbn [app]. now rewrite Hr.
    + intros (r & Hr).
      destruct (nth_error other idx) as [w|] eqn:Hn.
      * rewrite (skipn_nth_error_cons _ _ _ Hn) in Hr. cbn [app] in Hr.
        injection Hr as -> Hr. split; [apply Z.eqb_refl|now exists r].
      * apply nth_error_None in Hn. rewrite skipn_all2 in Hr by exact Hn.
        discriminate Hr.
Qed.

(** X1. [isGoalState] accepts exactly the boards that are an initial
    segment of [GOAL_STATE] ([every] is true of the empty array and of
    every shorter prefix); on a board of nine cells it is equality with the
    goal. *)
Theorem isGoalState_prefix (b : Board) :
  (isGoalState b = true <-> exists r, GOAL_STATE = b ++ r) /\
  (length b = 9%nat -> (isGoalState b = true <-> b = GOAL_STATE)).
Proof.
  assert (Hp : isGoalState b = true <-> exists r, GOAL_STATE = b ++ r).
  { unfold isGoalState, every.
    rewrite (every_from_prefix GOAL_STATE b 0). cbn [skipn]. reflexivity. }
  split; [exact Hp|]. intros Hl. rewrite Hp. split.
  - intros (r & Hr). assert (Hlen : length GOAL_STATE = length (b ++ r)) by now rewrite <- Hr.
    rewrite length_app, Hl in Hlen. cbn in Hlen.
    destruct r; [|cbn in Hlen; lia]. now rewrite app_nil_r in Hr.
  - intros ->. exists []. reflexivity.
Qed.

(** X2. [boardsEqual (board1, board2)] is true exactly when [board1] is an
    initial segment of [board2]: it is not symmetric, and it is equality
    only between boards of the same length. *)
Theorem boardsEqual_prefix (b1 b2 : Board) :
  (boardsEqual b1 b2 = true <-> exists r, b2 = b1 ++ r) /\
  (length b1 = length b2 -> (boardsEqual b1 b2 = true <-> b1 = b2)) /\
  ((length b1 < length b2)%nat -> boardsEqual b2 b1 = false).
Proof.
  assert (Hp : forall x y, boardsEqual x y = true <-> exists r, y = x ++ r).
  { intros x y. unfold boardsEqual, every.
    rewrite (every_from_prefix y x 0). cbn [skipn]. reflexivity. }
  split; [apply Hp|split].
  - intros Hl. rewrite Hp. split.
    + intros (r & Hr). assert (Hlen : length b2 = length (b1 ++ r)) by now rewrite <- Hr.
      rewrite length_app in Hlen. destruct r; [|cbn in Hlen; lia].
      now rewrite app_nil_r in Hr.
    + intros ->. exists []. now rewrite app_nil_r.
  - intros Hl. destruct (boardsEqual b2 b1) eqn:He; [|reflexivity].
    apply Hp in He. destruct He as (r & Hr).
    assert (Hlen : length b1 = length (b2 ++ r)) by now rewrite <- Hr.
    rewrite length_app in Hlen. lia.
Qed.

(* ------------------------------------------------------------------ *)
(** ** The cell of the blank *)
(* ------------------------------------------------------------------ *)

Lemma indexOf_from_absent (l : list Z) (x : Z) :
  forall i, ~ In x l -> indexOf_from l x i = -1.
Proof.
  induction l as [|y l IH]; intros i Hn; [reflexivity|].
  cbn [indexOf_from]. destruct (Z.eqb_spec y x) as [->|Hne].
  - exfalso. apply Hn. now left.
  - apply IH. intros Hin. apply Hn. now right.
Qed.

Lemma indexOf_from_first (l : list Z) (x : Z) :
  forall i j, In x l ->
    (j < Z.to_nat (indexOf_from l x i - i))%nat -> nth j l 0 <> x.
Proof.
  induction l as [|y l IH]; intros i j Hin Hj; [destruct Hin|].
  cbn [indexOf_from] in Hj. revert Hj.
  destruct (Z.eqb_spec y x) as [->|Hne]; intros Hj; [lia|].
  destruct Hin as [Heq|Hin]; [congruence|].
  destruct j as [|j]; [exact Hne|]. cbn [nth]. apply (IH (i + 1) j Hin).
  pose proof (indexOf_from_spec l x (i + 1) Hin). lia.
Qed.

(** X3. [getEmptyIndex] is [-1] on a board without a blank; otherwise it is
    the first cell that holds 0, an index inside the board. *)
Theorem getEmptyIndex_first_blank (b : Board) :
  (~ In 0 b -> getEmptyIndex b = -1) /\
  (In 0 b ->
   0 <= getEmptyIndex b < Z.of_nat (length b) /\
   get b (Z.to_nat (getEmptyIndex b)) = 0 /\
   forall j, (j < Z.to_nat (getEmptyIndex b))%nat -> get b j <> 0).
Proof.
  unfold getEmptyIndex, indexOf, get. split.
  - apply indexOf_from_absent.
  - intros Hin. destruct (indexOf_from_spec b 0 0 Hin) as [Hr Hg].
    rewrite Z.sub_0_r in Hg.
    split; [lia|]. split; [exact Hg|].
    intros j Hj. apply (indexOf_from_first b 0 0 j Hin). now rewrite Z.sub_0_r.
Qed.

(** X4. On a board without a blank [getValidMoves] returns no move at all:
    [indexOf] gives -1, whose row and column are -1, and no direction
    leads from there into the grid. *)
Theorem getValidMoves_no_blank (b : Board) :
  ~ In 0 b -> getValidMoves b = [].
Proof.
  intros Hn. unfold getValidMoves, getEmptyIndex, indexOf.
  rewrite (indexOf_from_absent b 0 0 Hn). reflexivity.
Qed.

(** Witness of X4: a board of nine tiles and no blank. *)
Lemma getValidMoves_no_blank_witness :
  getValidMoves [1; 2; 3; 4; 5; 6; 7; 8; 9] = [].
Proof.
  apply (getValidMoves_no_blank [1; 2; 3; 4; 5; 6; 7; 8; 9]).
  cbn. intros H. repeat (destruct H as [H|H]; [discriminate H|]). exact H.
Defined.

(* ------------------------------------------------------------------ *)
(** ** The two heuristics *)
(* ------------------------------------------------------------------ *)

Lemma cells_of_goal (a0 a1 a2 a3 a4 a5 a6 a7 a8 : Z) :
  valid_board [a0; a1; a2; a3; a4; a5; a6; a7; a8] ->
  (a0 = 0 \/ a0 = 1) -> (a1 = 0 \/ a1 = 2) -> (a2 = 0 \/ a2 = 3) ->
  (a3 = 0 \/ a3 = 4) -> (a4 = 0 \/ a4 = 5) -> (a5 = 0 \/ a5 = 6) ->
  (a6 = 0 \/ a6 = 7) -> (a7 = 0 \/ a7 = 8) -> (a8 = 0 \/ a8 = 9) ->
  [a0; a1; a2; a3; a4; a5; a6; a7; a8] = GOAL_STATE.
Proof.
  intros Hv H0 H1 H2 H3 H4 H5 H6 H7 H8.
  pose proof (valid_board_cells _ Hv) as Hc.
  pose proof (valid_board_NoDup _ Hv) as Hnd.
  assert (a8 = 0) as ->.
  { destruct H8 as [H8|H8]; [exact H8|].
    do 8 (apply Forall_inv_tail in Hc). apply Forall_inv in Hc. lia. }
  assert (Hnz : forall v, In v [a0; a1; a2; a3; a4; a5; a6; a7] -> v <> 0).
  { intros v Hin ->.
    assert (Hdup : NoDup ([a0; a1; a2; a3; a4; a5; a6; a7] ++ [0])) by exact Hnd.
    apply NoDup_remove_2 in Hdup. apply Hdup. now rewrite app_nil_r. }
  unfold GOAL_STATE.
  repeat match goal with
         | H : ?a = 0 \/ ?a = _ |- _ =>
             destruct H as [H|H];
             [exfalso; apply (Hnz a); [cbn; tauto|exact H]|subst a]
         end.
  reflexivity.
Qed.

Lemma cell_cost_zero (i : nat) (v : Z) :
  (i < 9)%nat -> 0 <= v <= 8 -> cell_cost i v = 0 ->
  v = 0 \/ v = Z.of_nat i + 1.
Proof.
  intros Hi Hv.
  assert (Hc : v = 0 \/ v = 1 \/ v = 2 \/ v = 3 \/ v = 4 \/
               v = 5 \/ v = 6 \/ v = 7 \/ v = 8) by lia.
  do 9 (destruct i as [|i];
        [repeat (destruct Hc as [Hc|Hc];
                 [subst v; vm_compute; intros H; first [discriminate H|lia]|]);
         subst v; vm_compute; intros H; first [discriminate H|lia]|]).
  lia.
Qed.

Lemma cell_cost_nonneg (i : nat) (v : Z) : 0 <= cell_cost i v.
Proof. unfold cell_cost. destruct (v =? 0); lia. Qed.

(** X5. On a valid board the Manhattan distance is 0 exactly at the
    goal. *)
Theorem manhattanDistance_zero_iff_goal (b : Board) :
  valid_board b -> (manhattanDistance b = 0 <-> b = GOAL_STATE).
Proof.
  intros Hv. split; [|intros ->; reflexivity].
  pose proof (valid_board_cells b Hv) as Hc.
  destruct (nine_cells b (valid_board_length b Hv))
    as (a0 & a1 & a2 & a3 & a4 & a5 & a6 & a7 & a8 & ->).
  rewrite manhattanDistance_cells. intros Hsum.
  pose proof (cell_cost_nonneg 0 a0). pose proof (cell_cost_nonneg 1 a1).
  pose proof (cell_cost_nonneg 2 a2). pose proof (cell_cost_nonneg 3 a3).
  pose proof (cell_cost_nonneg 4 a4). pose proof (cell_cost_nonneg 5 a5).
  pose proof (cell_cost_nonneg 6 a6). pose proof (cell_cost_nonneg 7 a7).
  pose proof (cell_cost_nonneg 8 a8).
  repeat match goal with
         | H : Forall _ (_ :: _) |- _ =>
             let Hx := fresh "Hx" in
             apply Forall_cons_iff in H; destruct H as [Hx H]
         end.
  apply (cells_of_goal _ _ _ _ _ _ _ _ _ Hv);
    match goal with
    | |- ?a = 0 \/ ?a = ?g =>
        match goal with
        | _ : 0 <= cell_cost ?i a |- _ =>
            destruct (cell_cost_zero i a ltac:(lia) ltac:(assumption) ltac:(lia))
              as [Hz|Hz]; [now left|right; rewrite Hz; reflexivity]
        end
    end.
Qed.

(** Witness of X5. *)
Lemma manhattanDistance_zero_iff_goal_witness :
  manhattanDistance GOAL_STATE = 0 <-> GOAL_STATE = GOAL_STATE.
Proof.
  apply (manhattanDistance_zero_iff_goal GOAL_STATE).
  unfold valid_board. apply Permutation_refl.
Defined.

(** X6. The Manhattan distance is admissible: from a valid board, no chain
    of legal moves reaches the goal in fewer moves than the distance. *)
Theorem manhattanDistance_admissible (b : Board) (w : list Board) :
  valid_board b -> is_walk b GOAL_STATE w ->
  manhattanDistance b <= walk_moves w.
Proof.
  intros Hv (Hhd & Hlast & Hch).
  destruct w as [|x post]; [discriminate Hhd|]. injection Hhd as ->.
  pose proof (chain_manhattan b post Hv Hch) as Hle.
  rewrite Hlast, manhattanDistance_goal in Hle.
  unfold walk_moves. cbn [length]. lia.
Qed.

(** Witness of X6: the board one move from the goal. *)
Lemma manhattanDistance_admissible_witness :
  manhattanDistance [1; 2; 3; 4; 5; 6; 7; 0; 8]
  <= walk_moves [[1; 2; 3; 4; 5; 6; 7; 0; 8]; GOAL_STATE].
Proof.
  apply (manhattanDistance_admissible [1; 2; 3; 4; 5; 6; 7; 0; 8]).
  - unfold valid_board, GOAL_STATE. do 7 apply perm_skip. apply perm_swap.
  - repeat split. cbn. right. right. left. reflexivity.
Defined.

Lemma cell_cost_adjacent_exact (e s : nat) (name : string) (v : Z) :
  In (s, name) (moves_table e) -> 1 <= v <= 8 ->
  Z.abs (cell_cost s v - cell_cost e v) = 1.
Proof.
  intros Hin Hv.
  assert (Hc : v = 1 \/ v = 2 \/ v = 3 \/ v = 4 \/
               v = 5 \/ v = 6 \/ v = 7 \/ v = 8) by lia.
  do 9 (destruct e as [|e];
        [ simpl in Hin;
          repeat (destruct Hin as [Hin|Hin];
                  [ injection Hin as <- _;
                    repeat (destruct Hc as [Hc|Hc]; [subst v; reflexivity|]);
                    subst v; reflexivity | ]);
          destruct Hin | ]).
  destruct Hin.
Qed.

(** X7. Every legal move from a valid board changes the Manhattan distance
    by exactly one: the tile that moves gets one step nearer to its goal
    cell or one step farther from it. *)
Theorem manhattanDistance_one_step (b t : Board) :
  valid_board b -> legal_move b t ->
  Z.abs (manhattanDistance t - manhattanDistance b) = 1.
Proof.
  intros Hv Hl. unfold legal_move in Hl.
  rewrite (successors_fast b Hv) in Hl. unfold succ_fast in Hl.
  apply in_map_iff in Hl. destruct Hl as ([s name] & <- & Hin). cbn [fst].
  destruct (blank_pos_spec b Hv) as (_ & He & Hblank).
  pose proof (valid_board_cells b Hv) as Hc.
  pose proof (valid_board_NoDup b Hv) as Hnd.
  pose proof (fun v => cell_cost_adjacent_exact (blank_pos b) s name v Hin) as Hadj.
  assert (Hmoved : 1 <= get b s <= 8).
  { assert (Hs : (s < 9)%nat /\ s <> blank_pos b).
    { clear - Hin He. revert Hin He. generalize (blank_pos b). intros e Hin He.
      do 9 (destruct e as [|e];
            [cbn in Hin;
             repeat (destruct Hin as [Hin|Hin];
                     [injection Hin as <- _; split; [lia|discriminate]|]);
             destruct Hin|]).
      lia. }
    destruct Hs as [Hs Hne].
    rewrite Forall_forall in Hc.
    assert (Hr : 0 <= get b s <= 8)
      by (apply Hc, nth_In; rewrite (valid_board_length b Hv); exact Hs).
    assert (get b s <> 0).
    { intros H0. apply Hne.
      rewrite <- (blank_pos_at b s Hnd) by
        (try rewrite (valid_board_length b Hv); assumption).
      reflexivity. }
    lia. }
  specialize (Hadj _ Hmoved). revert Hadj Hin Hblank. clear Hc Hnd Hmoved.
  destruct (nine_cells b (valid_board_length b Hv))
    as (a0 & a1 & a2 & a3 & a4 & a5 & a6 & a7 & a8 & ->).
  generalize (blank_pos [a0; a1; a2; a3; a4; a5; a6; a7; a8]) He. clear He.
  intros e He.
  do 9 (destruct e as [|e];
        [ cbn [moves_table]; intros Hadj Hin Hblank;
          repeat (destruct Hin as [Hin|Hin];
                  [ injection Hin as <- _;
                    unfold get in Hblank, Hadj; cbn [nth] in Hblank, Hadj;
                    subst;
                    unfold swap_cells, get; cbn [nth set_at];
                    rewrite !manhattanDistance_cells, !cell_cost_blank;
                    lia | ]);
          destruct Hin | ]).
  lia.
Qed.

(** Witness of X7. *)
Lemma manhattanDistance_one_step_witness :
  Z.abs (manhattanDistance [1; 2; 3; 4; 5; 6; 7; 0; 8]
         - manhattanDistance GOAL_STATE) = 1.
Proof.
  apply (manhattanDistance_one_step GOAL_STATE [1; 2; 3; 4; 5; 6; 7; 0; 8]).
  - unfold valid_board. apply Permutation_refl.
  - cbn. right. left. reflexivity.
Defined.

Lemma tilesOutOfPlace_cells (a0 a1 a2 a3 a4 a5 a6 a7 a8 : Z) :
  let wrong (v g : Z) := if negb (v =? 0) && negb (v =? g) then 1 else 0 in
  tilesOutOfPlace [a0; a1; a2; a3; a4; a5; a6; a7; a8] =
  wrong a0 1 + wrong a1 2 + wrong a2 3 + wrong a3 4 + wrong a4 5
  + wrong a5 6 + wrong a6 7 + wrong a7 8 + wrong a8 0.
Proof.
  intros wrong. unfold tilesOutOfPlace, get, wrong. cbn [seq fold_left nth GOAL_STATE].
  repeat match goal with
         | |- context [negb (?v =? 0) && negb (?v =? ?g)] =>
             destruct (negb (v =? 0) && negb (v =? g))
         end; lia.
Qed.

Lemma cell_wrong_cost (i : nat) (v g : Z) :
  (i < 9)%nat -> 0 <= v <= 8 -> g = get GOAL_STATE i ->
  let w := if negb (v =? 0) && negb (v =? g) then 1 else 0 in
  0 <= w <= cell_cost i v /\ (w = 0 -> v = 0 \/ v = Z.of_nat i + 1).
Proof.
  intros Hi Hv ->.
  assert (Hc : v = 0 \/ v = 1 \/ v = 2 \/ v = 3 \/ v = 4 \/
               v = 5 \/ v = 6 \/ v = 7 \/ v = 8) by lia.
  do 9 (destruct i as [|i];
        [repeat (destruct Hc as [Hc|Hc];
                 [subst v; vm_compute; repeat split; try discriminate;
                  intros H; first [discriminate H|lia]|]);
         subst v; vm_compute; repeat split; try discriminate;
         intros H; first [discriminate H|lia]|]).
  lia.
Qed.

(** X8. On a valid board the number of tiles out of place is between 0 and
    8, never exceeds the Manhattan distance, and is 0 exactly at the
    goal. *)
Theorem tilesOutOfPlace_bounds (b : Board) :
  valid_board b ->
  0 <= tilesOutOfPlace b <= 8 /\
  tilesOutOfPlace b <= manhattanDistance b /\
  (tilesOutOfPlace b = 0 <-> b = GOAL_STATE).
Proof.
  intros Hv.
  pose proof (valid_board_cells b Hv) as Hc.
  pose proof (valid_board_has_blank b Hv) as Hblank.
  destruct (nine_cells b (valid_board_length b Hv))
    as (a0 & a1 & a2 & a3 & a4 & a5 & a6 & a7 & a8 & ->).
  repeat match goal with
         | H : Forall _ (_ :: _) |- _ =>
             let Hx := fresh "Hx" in
             apply Forall_cons_iff in H; destruct H as [Hx H]
         end.
  rewrite tilesOutOfPlace_cells, manhattanDistance_cells. cbv zeta.
  destruct (cell_wrong_cost 0 a0 1 ltac:(lia) ltac:(assumption) eq_refl) as [B0 Z0].
  destruct (cell_wrong_cost 1 a1 2 ltac:(lia) ltac:(assumption) eq_refl) as [B1 Z1].
  destruct (cell_wrong_cost 2 a2 3 ltac:(lia) ltac:(assumption) eq_refl) as [B2 Z2].
  destruct (cell_wrong_cost 3 a3 4 ltac:(lia) ltac:(assumption) eq_refl) as [B3 Z3].
  destruct (cell_wrong_cost 4 a4 5 ltac:(lia) ltac:(assumption) eq_refl) as [B4 Z4].
  destruct (cell_wrong_cost 5 a5 6 ltac:(lia) ltac:(assumption) eq_refl) as [B5 Z5].
  destruct (cell_wrong_cost 6 a6 7 ltac:(lia) ltac:(assumption) eq_refl) as [B6 Z6].
  destruct (cell_wrong_cost 7 a7 8 ltac:(lia) ltac:(assumption) eq_refl) as [B7 Z7].
  destruct (cell_wrong_cost 8 a8 0 ltac:(lia) ltac:(assumption) eq_refl) as [B8 Z8].
  cbv zeta in *.
  set (w0 := if negb (a0 =? 0) && negb (a0 =? 1) then 1 else 0) in *.
  set (w1 := if negb (a1 =? 0) && negb (a1 =? 2) then 1 else 0) in *.
  set (w2 := if negb (a2 =? 0) && negb (a2 =? 3) then 1 else 0) in *.
  set (w3 := if negb (a3 =? 0) && negb (a3 =? 4) then 1 else 0) in *.
  set (w4 := if negb (a4 =? 0) && negb (a4 =? 5) then 1 else 0) in *.
  set (w5 := if negb (a5 =? 0) && negb (a5 =? 6) then 1 else 0) in *.
  set (w6 := if negb (a6 =? 0) && negb (a6 =? 7) then 1 else 0) in *.
  set (w7 := if negb (a7 =? 0) && negb (a7 =? 8) then 1 else 0) in *.
  set (w8 := if negb (a8 =? 0) && negb (a8 =? 0) then 1 else 0) in *.
  assert (Hw : w0 <= 1 /\ w1 <= 1 /\ w2 <= 1 /\ w3 <= 1 /\ w4 <= 1 /\
               w5 <= 1 /\ w6 <= 1 /\ w7 <= 1 /\ w8 <= 1).
  { unfold w0, w1, w2, w3, w4, w5, w6, w7, w8.
    repeat match goal with
           | |- context [if ?c then 1 else 0] => destruct c
           end; lia. }
  assert (Hone : w0 = 0 \/ w1 = 0 \/ w2 = 0 \/ w3 = 0 \/ w4 = 0 \/
                 w5 = 0 \/ w6 = 0 \/ w7 = 0 \/ w8 = 0).
  { unfold w0, w1, w2, w3, w4, w5, w6, w7, w8. cbn in Hblank.
    repeat (destruct Hblank as [Hblank|Hblank];
            [subst; cbn; tauto|]).
    destruct Hblank. }
  assert (Hback : [a0; a1; a2; a3; a4; a5; a6; a7; a8] = GOAL_STATE ->
                  w0 + w1 + w2 + w3 + w4 + w5 + w6 + w7 + w8 = 0).
  { unfold w0, w1, w2, w3, w4, w5, w6, w7, w8. intros Heq.
    injection Heq as -> -> -> -> -> -> -> -> ->. reflexivity. }
  clearbody w0 w1 w2 w3 w4 w5 w6 w7 w8.
  split; [clear - Hw Hone B0 B1 B2 B3 B4 B5 B6 B7 B8; lia|].
  split; [clear - B0 B1 B2 B3 B4 B5 B6 B7 B8; lia|]. split.
  - intros Hsum.
    assert (Hall : w0 = 0 /\ w1 = 0 /\ w2 = 0 /\ w3 = 0 /\ w4 = 0 /\
                   w5 = 0 /\ w6 = 0 /\ w7 = 0 /\ w8 = 0)
      by (clear - Hsum B0 B1 B2 B3 B4 B5 B6 B7 B8; lia).
    destruct Hall as (E0 & E1 & E2 & E3 & E4 & E5 & E6 & E7 & E8).
    apply (cells_of_goal _ _ _ _ _ _ _ _ _ Hv);
      [exact (Z0 E0)|exact (Z1 E1)|exact (Z2 E2)|exact (Z3 E3)|exact (Z4 E4)
      |exact (Z5 E5)|exact (Z6 E6)|exact (Z7 E7)|].
    destruct (Z8 E8) as [H|H]; [now left|right; exact H].
  - exact Hback.
Qed.

(** Witness of X8. *)
Lemma tilesOutOfPlace_bounds_witness :
  0 <= tilesOutOfPlace [1; 2; 3; 4; 5; 6; 7; 0; 8] <= 8 /\
  tilesOutOfPlace [1; 2; 3; 4; 5; 6; 7; 0; 8]
  <= manhattanDistance [1; 2; 3; 4; 5; 6; 7; 0; 8] /\
  (tilesOutOfPlace [1; 2; 3; 4; 5; 6; 7; 0; 8] = 0 <->
   [1; 2; 3; 4; 5; 6; 7; 0; 8] = GOAL_STATE).
Proof.
  apply (tilesOutOfPlace_bounds [1; 2; 3; 4; 5; 6; 7; 0; 8]).
  unfold valid_board, GOAL_STATE. do 7 apply perm_skip. apply perm_swap.
Defined.

(* ------------------------------------------------------------------ *)
(** ** Moves can be undone *)
(* ------------------------------------------------------------------ *)

Lemma getValidMoves_undo (b : Board) (m : Move.t) :
  valid_board b -> In m (getValidMoves b) ->
  In (Move.mk b (opposite (Move.move m))) (getValidMoves (Move.board m)).
Proof.
  intros Hv Hin.
  assert (Hvt : valid_board (Move.board m)).
  { apply (legal_move_valid b); [exact Hv|].
    unfold legal_move, successors. now apply in_map. }
  pose proof (valid_board_NoDup _ Hvt) as Hnd.
  destruct (blank_pos_spec b Hv) as (Heb & He & H0).
  destruct (blank_pos_spec _ Hvt) as (Het & _ & _).
  rewrite (getValidMoves_table _ Hvt), <- Het.
  rewrite (getValidMoves_table b Hv), <- Heb in Hin.
  apply in_map_iff in Hin. destruct Hin as ([s name] & <- & Hin).
  cbn [fst snd Move.board Move.move] in *.
  revert Hnd H0 Hin. clear Hvt Het Heb.
  destruct (nine_cells b (valid_board_length b Hv))
    as (a0 & a1 & a2 & a3 & a4 & a5 & a6 & a7 & a8 & ->).
  generalize (blank_pos [a0; a1; a2; a3; a4; a5; a6; a7; a8]) He. clear He.
  intros e He.
  do 9 (destruct e as [|e];
        [ cbn [moves_table]; intros Hnd H0 Hin;
          unfold get in H0; cbn [nth] in H0;
          repeat (destruct Hin as [Hin|Hin];
                  [ injection Hin as <- <-;
                    revert Hnd; unfold swap_cells, get; cbn [nth set_at];
                    intros Hnd;
                    blank_cell_of H0 Hnd;
                    cbn [moves_table map fst snd];
                    unfold swap_cells, get; cbn [nth set_at];
                    cbn [In]; subst; tauto | ]);
          destruct Hin | ]).
  lia.
Qed.

(** X9. Every move [getValidMoves] offers from a valid board can be undone:
    from the board the move leads to, the opposite direction is offered and
    leads back to the board it came from. *)
Theorem getValidMoves_reversible (b : Board) (m : Move.t) :
  valid_board b -> In m (getValidMoves b) ->
  In (Move.mk b (opposite (Move.move m))) (getValidMoves (Move.board m)).
Proof. exact (getValidMoves_undo b m). Qed.

(** Witness of X9: the move DOWN from the board with the blank in the
    centre, undone by UP. *)
Lemma getValidMoves_reversible_witness :
  In (Move.mk [1; 2; 3; 4; 0; 5; 6; 7; 8] "UP"%string)
     (getValidMoves [1; 2; 3; 4; 7; 5; 6; 0; 8]).
Proof.
  apply (getValidMoves_reversible [1; 2; 3; 4; 0; 5; 6; 7; 8]
           (Move.mk [1; 2; 3; 4; 7; 5; 6; 0; 8] "DOWN"%string)).
  - unfold valid_board, GOAL_STATE.
    do 4 apply perm_skip.
    apply (Permutation_cons_app [5; 6; 7; 8] [] 0). reflexivity.
  - cbn. right. left. reflexivity.
Defined.

(* ------------------------------------------------------------------ *)
(** ** Solvability is kept by every move *)
(* ------------------------------------------------------------------ *)

Lemma isSolvable_parity (b : Board) :
  isSolvable b = (inversion_count (nonzero_cells b) mod 2 =? 0)%nat.
Proof. unfold isSolvable, nonzero_cells. now rewrite inversions_loops_spec. Qed.

Lemma inversion_count_app (l1 l2 : list Z) :
  inversion_count (l1 ++ l2) =
  (inversion_count l1
   + list_sum (map (fun a => length (filter (fun y => a >? y) l2)) l1)
   + inversion_count l2)%nat.
Proof.
  induction l1 as [|a l1 IH]; [reflexivity|].
  cbn [app inversion_count map]. rewrite list_sum_cons, IH, filter_app, length_app.
  lia.
Qed.

Lemma parity_shift (a b : nat) :
  (exists k, a = (b + k * 2)%nat \/ b = (a + k * 2)%nat) ->
  (a mod 2 =? 0)%nat = (b mod 2 =? 0)%nat.
Proof.
  intros (k & [->| ->]); now rewrite Nat.Div0.mod_add.
Qed.

(** Taking a tile over the two tiles next to it keeps the parity of the
    number of inversions. *)
Lemma inversion_parity_rotate (l1 l2 : list Z) (x y z : Z) :
  NoDup (l1 ++ x :: y :: z :: l2) ->
  (inversion_count (l1 ++ x :: y :: z :: l2) mod 2 =? 0)%nat =
  (inversion_count (l1 ++ y :: z :: x :: l2) mod 2 =? 0)%nat.
Proof.
  intros Hnd. apply NoDup_app_remove_l in Hnd.
  assert (Hxy : x <> y /\ x <> z).
  { inversion Hnd as [|? ? Hnin _]; subst. cbn [In] in Hnin. split; intros ->; tauto. }
  destruct Hxy as [Hxy Hxz].
  rewrite !inversion_count_app.
  rewrite (map_ext (fun a => length (filter (fun v => a >? v) (x :: y :: z :: l2)))
                   (fun a => length (filter (fun v => a >? v) (y :: z :: x :: l2)))).
  2:{ intros a. cbn [filter].
      destruct (a >? x), (a >? y), (a >? z); reflexivity. }
  set (c := (inversion_count l1 + _)%nat).
  cbn [inversion_count filter].
  destruct (Z.gtb_spec x y), (Z.gtb_spec x z), (Z.gtb_spec y x),
    (Z.gtb_spec z x), (Z.gtb_spec y z), (Z.gtb_spec z y);
    try lia; cbn [length];
    set (fx := length (filter (fun v => x >? v) l2));
    set (fy := length (filter (fun v => y >? v) l2));
    set (fz := length (filter (fun v => z >? v) l2));
    set (r := inversion_count l2);
    clearbody c fx fy fz r;
    apply parity_shift; first [exists 0%nat; lia|exists 1%nat; lia].
Qed.

Lemma blank_unique (b : Board) (e : nat) :
  NoDup b -> (e < length b)%nat -> nth e b 0 = 0 ->
  forall i, (i < length b)%nat -> i <> e -> (nth i b 0 =? 0) = false.
Proof.
  intros Hnd He H0 i Hi Hne. apply Z.eqb_neq. intros Hz. apply Hne.
  apply (proj1 (NoDup_nth b 0) Hnd i e Hi He). congruence.
Qed.

Ltac other_cells Hnz :=
  let go i :=
    try (let H := fresh "Hz" in
         pose proof (Hnz i ltac:(cbn; lia) ltac:(discriminate)) as H;
         cbn [nth] in H) in
  go 0%nat; go 1%nat; go 2%nat; go 3%nat; go 4%nat;
  go 5%nat; go 6%nat; go 7%nat; go 8%nat.

Ltac rewrite_cells :=
  repeat match goal with
         | H : (?a =? 0) = false |- _ => rewrite ?H in *; clear H
         end.

Ltac parity_case Hnb Hnt :=
  first
    [ reflexivity
    | apply (inversion_parity_rotate []); exact Hnt
    | apply (inversion_parity_rotate [_]); exact Hnt
    | apply (inversion_parity_rotate [_; _]); exact Hnt
    | apply (inversion_parity_rotate [_; _; _]); exact Hnt
    | apply (inversion_parity_rotate [_; _; _; _]); exact Hnt
    | apply (inversion_parity_rotate [_; _; _; _; _]); exact Hnt
    | symmetry; apply (inversion_parity_rotate []); exact Hnb
    | symmetry; apply (inversion_parity_rotate [_]); exact Hnb
    | symmetry; apply (inversion_parity_rotate [_; _]); exact Hnb
    | symmetry; apply (inversion_parity_rotate [_; _; _]); exact Hnb
    | symmetry; apply (inversion_parity_rotate [_; _; _; _]); exact Hnb
    | symmetry; apply (inversion_parity_rotate [_; _; _; _; _]); exact Hnb ].

Lemma legal_move_solvable (b t : Board) :
  valid_board b -> legal_move b t -> isSolvable t = isSolvable b.
Proof.
  intros Hv Hl.
  pose proof (legal_move_valid b t Hv Hl) as Hvt.
  rewrite !isSolvable_parity.
  pose proof (NoDup_filter (fun x => negb (x =? 0)) (valid_board_NoDup b Hv)) as Hnb.
  pose proof (NoDup_filter (fun x => negb (x =? 0)) (valid_board_NoDup t Hvt)) as Hnt.
  pose proof (valid_board_NoDup b Hv) as Hnd.
  unfold legal_move in Hl. rewrite (successors_fast b Hv) in Hl.
  unfold succ_fast in Hl. apply in_map_iff in Hl.
  destruct Hl as ([s name] & <- & Hin). cbn [fst] in *.
  destruct (blank_pos_spec b Hv) as (_ & He & H0).
  pose proof (fun e' (Heq : blank_pos b = e') =>
                blank_unique b e' Hnd ltac:(rewrite <- Heq, (valid_board_length b Hv); exact He)
                  ltac:(rewrite <- Heq; exact H0)) as Hnz.
  clear Hvt. revert Hnb Hnt Hnz H0 Hin. unfold nonzero_cells.
  destruct (nine_cells b (valid_board_length b Hv))
    as (a0 & a1 & a2 & a3 & a4 & a5 & a6 & a7 & a8 & ->).
  generalize (blank_pos [a0; a1; a2; a3; a4; a5; a6; a7; a8]) He. clear He Hnd Hv.
  intros e He.
  do 9 (destruct e as [|e];
        [ cbn [moves_table]; intros Hnb Hnt Hnz H0 Hin;
          specialize (Hnz _ eq_refl);
          unfold get in H0; cbn [nth] in H0;
          other_cells Hnz; clear Hnz;
          repeat (destruct Hin as [Hin|Hin];
                  [ injection Hin as <- _;
                    revert Hnt; unfold swap_cells, get; cbn [nth set_at];
                    intros Hnt;
                    subst;
                    cbn [filter] in Hnb, Hnt |- *;
                    rewrite_cells;
                    cbn [negb Z.eqb filter] in Hnb, Hnt |- *;
                    parity_case Hnb Hnt | ]);
          destruct Hin | ]).
  lia.
Qed.

(** X10. A legal move never changes the answer of [isSolvable]: a move
    along a row leaves the order of the tiles as it is, and a move along a
    column takes one tile over two others. *)
Theorem isSolvable_legal_move (b t : Board) :
  valid_board b -> legal_move b t -> isSolvable t = isSolvable b.
Proof. exact (legal_move_solvable b t). Qed.

(** Witness of X10. *)
Lemma isSolvable_legal_move_witness :
  isSolvable [1; 2; 3; 4; 7; 5; 6; 0; 8] = isSolvable [1; 2; 3; 4; 0; 5; 6; 7; 8].
Proof.
  apply (isSolvable_legal_move [1; 2; 3; 4; 0; 5; 6; 7; 8]
           [1; 2; 3; 4; 7; 5; 6; 0; 8]).
  - unfold valid_board, GOAL_STATE.
    do 4 apply perm_skip.
    apply (Permutation_cons_app [5; 6; 7; 8] [] 0). reflexivity.
  - cbn. right. left. reflexivity.
Defined.

Lemma chain_solvable (x : Board) (post : list Board) :
  valid_board x -> move_chain (x :: post) ->
  isSolvable (last (x :: post) x) = isSolvable x.
Proof.
  revert x; induction post as [|y post IH]; intros x Hv Hch; [reflexivity|].
  destruct Hch as [Hl Hch].
  change (last (x :: y :: post) x) with (last (y :: post) x).
  rewrite (last_nonempty_default (y :: post) x y) by discriminate.
  rewrite (IH y (legal_move_valid x y Hv Hl) Hch).
  now apply legal_move_solvable.
Qed.

Lemma walk_solvable (a u : Board) (w : list Board) :
  valid_board a -> is_walk a u w -> isSolvable u = isSolvable a.
Proof.
  intros Hv (Hhd & Hlast & Hch).
  destruct w as [|x post]; [discriminate Hhd|]. injection Hhd as ->.
  rewrite <- Hlast. now apply chain_solvable.
Qed.

(** X11. [isSolvable] decides reachability of the goal: from a valid board
    there is a chain of legal moves to [GOAL_STATE] exactly when
    [isSolvable] answers true. *)
Theorem isSolvable_iff_goal_reachable (b : Board) :
  valid_board b ->
  (isSolvable b = true <-> exists w, is_walk b GOAL_STATE w).
Proof.
  intros Hv. split.
  - now apply solvable_goal_walk.
  - intros (w & Hw). now rewrite <- (walk_solvable b GOAL_STATE w Hv Hw).
Qed.

(** Witness of X11. *)
Lemma isSolvable_iff_goal_reachable_witness :
  isSolvable [1; 2; 3; 4; 5; 6; 7; 0; 8] = true <->
  exists w, is_walk [1; 2; 3; 4; 5; 6; 7; 0; 8] GOAL_STATE w.
Proof.
  apply (isSolvable_iff_goal_reachable [1; 2; 3; 4; 5; 6; 7; 0; 8]).
  unfold valid_board, GOAL_STATE. do 7 apply perm_skip. apply perm_swap.
Defined.

(** X12. [solveAStar] returns the empty sequence exactly for the valid
    boards that are not solvable: it never makes up a path for an
    unsolvable board, and never gives up on a solvable one. *)
Theorem solveAStar_empty_iff_unsolvable (initialBoard : Board) :
  valid_board initialBoard ->
  (solveAStar initialBoard = Returned [] <-> isSolvable initialBoard = false).
Proof.
  intros Hv. split.
  - intros Hret. destruct (isSolvable initialBoard) eqn:Hs; [|reflexivity].
    destruct (astar_loop_complete initialBoard Hv
                (closed_bound_solvable initialBoard Hv Hs)
                (solvable_goal_walk initialBoard Hv Hs)
                astar_fuel [start_node initialBoard] []
                (astar_inv_init initialBoard Hv)
                (astar_fuel_enough initialBoard))
      as (p & Hp & (Hhd & _) & _).
    unfold solveAStar, solveAStar_fuel in Hret. rewrite Hret in Hp.
    injection Hp as <-. discriminate Hhd.
  - intros Hs.
    destruct (astar_loop_returns astar_fuel [start_node initialBoard] [])
      as (p & Hp);
      [cbn [length]; apply closed_cap_nonneg|apply astar_fuel_enough|].
    unfold solveAStar, solveAStar_fuel. rewrite Hp.
    destruct (astar_loop_sound initialBoard Hv astar_fuel _ _ p
                (astar_inv_init initialBoard Hv) Hp) as [->|[Hw _]];
      [reflexivity|].
    rewrite <- (walk_solvable initialBoard GOAL_STATE p Hv Hw) in Hs.
    discriminate Hs.
Qed.

(** Witness of X12: the goal with tiles 7 and 8 exchanged. *)
Lemma solveAStar_empty_iff_unsolvable_witness :
  solveAStar [1; 2; 3; 4; 5; 6; 8; 7; 0] = Returned [] <->
  isSolvable [1; 2; 3; 4; 5; 6; 8; 7; 0] = false.
Proof.
  apply (solveAStar_empty_iff_unsolvable [1; 2; 3; 4; 5; 6; 8; 7; 0]).
  unfold valid_board, GOAL_STATE. do 6 apply perm_skip. apply perm_swap.
Defined.

(* ------------------------------------------------------------------ *)
(** ** Shuffling gives a solvable board *)
(* ------------------------------------------------------------------ *)

Lemma getValidMoves_nonempty (b : Board) :
  valid_board b -> (0 < length (getValidMoves b))%nat.
Proof.
  intros Hv. rewrite (getValidMoves_table b Hv), length_map.
  destruct (getEmptyIndex_spec b Hv) as [Hr _].
  assert (He : (Z.to_nat (getEmptyIndex b) < 9)%nat) by lia.
  revert He. generalize (Z.to_nat (getEmptyIndex b)). intros e He.
  do 9 (destruct e as [|e]; [cbn; lia|]). lia.
Qed.

Lemma shuffle_loop_walk (rnd : nat -> Q) :
  rnd_ok rnd ->
  forall k b n w,
    valid_board b -> is_walk GOAL_STATE b w ->
    exists b' w',
      shuffle_loop k b rnd n = Ok b' (n + k)%nat /\
      valid_board b' /\ is_walk GOAL_STATE b' w' /\
      walk_moves w' = walk_moves w + Z.of_nat k.
Proof.
  intros Hrnd. induction k as [|k IH]; intros b n w Hv Hw.
  - exists b, w. cbn [shuffle_loop]. unfold ret. rewrite Nat.add_0_r.
    split; [reflexivity|]. split; [exact Hv|]. split; [exact Hw|]. cbn. lia.
  - cbn [shuffle_loop].
    pose proof (getValidMoves_nonempty b Hv) as Hlen.
    destruct (Nat.ltb_spec 0 (length (getValidMoves b))) as [_|]; [|lia].
    destruct (random_index_spec rnd (length (getValidMoves b)) n Hrnd)
      as (i & Hi & H0 & Hlt & _).
    unfold bind at 1. rewrite Hi.
    destruct (read_at_in_range (getValidMoves b) i ltac:(split; [lia|auto]))
      as (m & Hread & Hin).
    rewrite Hread.
    assert (Hl : legal_move b (Move.board m))
      by (unfold legal_move, successors; now apply in_map).
    pose proof (legal_move_valid b _ Hv Hl) as Hvm.
    assert (Hsplice : splice_0_9 b (Move.board m) = Move.board m).
    { unfold splice_0_9. rewrite skipn_all2 by (rewrite (valid_board_length b Hv); lia).
      apply app_nil_r. }
    rewrite Hsplice.
    destruct (is_walk_snoc GOAL_STATE b _ w Hw Hl) as [Hw' Hm'].
    destruct (IH (Move.board m) (S n) _ Hvm Hw') as (b' & w' & Hrun & Hvb & Hwb & Hmb).
    exists b', w'. rewrite Hrun.
    split; [f_equal; lia|]. split; [exact Hvb|]. split; [exact Hwb|]. lia.
Qed.

(** X13. For draws in [0, 1), [shuffleBoard] neither throws nor leaves the
    boards the solvers accept: after its 100 draws it sets a valid board
    that is 100 legal moves from the goal, and [isSolvable] answers true
    for it. *)
Theorem shuffleBoard_solvable (rnd : nat -> Q) (n : nat) :
  rnd_ok rnd ->
  exists b w,
    shuffleBoard rnd n = Ok b (n + 100)%nat /\
    valid_board b /\ isSolvable b = true /\
    is_walk GOAL_STATE b w /\ walk_moves w = 100.
Proof.
  intros Hrnd.
  destruct (shuffle_loop_walk rnd Hrnd 100 GOAL_STATE n [GOAL_STATE]
              (Permutation_refl _) (is_walk_single GOAL_STATE))
    as (b & w & Hrun & Hv & Hw & Hm).
  exists b, w.
  split; [exact Hrun|]. split; [exact Hv|]. split; [|split; [exact Hw|exact Hm]].
  rewrite (walk_solvable GOAL_STATE b w (Permutation_refl _) Hw). reflexivity.
Qed.

(** Witness of X13: the oracle that always draws 0. *)
Lemma shuffleBoard_solvable_witness :
  exists b w,
    shuffleBoard rnd_zero 0%nat = Ok b 100%nat /\
    valid_board b /\ isSolvable b = true /\
    is_walk GOAL_STATE b w /\ walk_moves w = 100.
Proof. exact (shuffleBoard_solvable rnd_zero 0%nat rnd_zero_ok). Defined.

(* ------------------------------------------------------------------ *)
(** ** Chromosomes: random genes and mutation *)
(* ------------------------------------------------------------------ *)

Lemma gene_at_moveTypes (i : Z) : 0 <= i < 4 -> In (gene_at i) moveTypes.
Proof.
  intros Hi.
  assert (Hc : i = 0 \/ i = 1 \/ i = 2 \/ i = 3) by lia.
  destruct Hc as [H|[H|[H|H]]]; subst i; cbn; tauto.
Qed.

Lemma random_gene (rnd : nat -> Q) (n : nat) :
  rnd_ok rnd ->
  exists i, random_index (length moveTypes) rnd n = Ok i (S n) /\
            In (gene_at i) moveTypes.
Proof.
  intros Hok.
  destruct (random_index_spec rnd (length moveTypes) n Hok)
    as (i & Hi & H0 & Hlt & _).
  exists i. split; [exact Hi|]. apply gene_at_moveTypes.
  split; [exact H0|]. apply Hlt. cbn. lia.
Qed.

Lemma generateRandomMoves_loop_genes (rnd : nat -> Q) :
  rnd_ok rnd ->
  forall k moves n,
    exists new,
      generateRandomMoves_loop k moves rnd n = Ok (moves ++ new) (n + k)%nat /\
      length new = k /\ Forall (fun g => In g moveTypes) new.
Proof.
  intros Hok. induction k as [|k IH]; intros moves n; cbn [generateRandomMoves_loop].
  - exists []. rewrite app_nil_r, Nat.add_0_r. repeat split. constructor.
  - destruct (random_gene rnd n Hok) as (i & Hi & Hg).
    unfold bind at 1. rewrite Hi.
    destruct (IH (moves ++ [gene_at i]) (S n)) as (new & Hrun & Hlen & Hall).
    exists (gene_at i :: new). rewrite Hrun, <- app_assoc. cbn [app length].
    split; [f_equal; lia|]. split; [lia|]. now constructor.
Qed.

(** X14. For draws in [0, 1), [generateRandomMoves] makes exactly 50 draws
    and returns a chromosome of exactly 50 genes, each one of the four
    direction names. *)
Theorem generateRandomMoves_genes (rnd : nat -> Q) (n : nat) :
  rnd_ok rnd ->
  exists moves,
    generateRandomMoves rnd n = Ok moves (n + 50)%nat /\
    length moves = 50%nat /\ Forall (fun g => In g moveTypes) moves.
Proof.
  intros Hok.
  destruct (generateRandomMoves_loop_genes rnd Hok maxMoves [] n)
    as (new & Hrun & Hlen & Hall).
  exists new. split; [exact Hrun|]. split; [exact Hlen|exact Hall].
Qed.

(** Witness of X14. *)
Lemma generateRandomMoves_genes_witness :
  exists moves,
    generateRandomMoves rnd_zero 0%nat = Ok moves 50%nat /\
    length moves = 50%nat /\ Forall (fun g => In g moveTypes) moves.
Proof. exact (generateRandomMoves_genes rnd_zero 0%nat rnd_zero_ok). Defined.

Lemma nth_error_set_at {A} (l : list A) :
  forall i v j,
    nth_error (set_at i v l) j =
    if (j =? i)%nat && (i <? length l)%nat then Some v else nth_error l j.
Proof.
  induction l as [|x l IH]; intros i v j.
  - cbn [set_at length]. destruct i; cbn; now rewrite andb_false_r.
  - destruct i as [|i], j as [|j]; cbn [set_at nth_error length]; try reflexivity.
    rewrite IH. reflexivity.
Qed.

Lemma length_set_at_gen {A} (l : list A) :
  forall i v, length (set_at i v l) = length l.
Proof.
  induction l as [|x l IH]; intros [|i] v; cbn [set_at length]; auto.
Qed.

Lemma mutate_loop_frame (rnd : nat -> Q) (rate : Q) :
  forall k i moves n moves' n',
    mutate_loop k i moves rate rnd n = Ok moves' n' ->
    length moves' = length moves /\
    (n + k <= n' <= n + 2 * k)%nat /\
    (rnd_ok rnd ->
     forall j g, nth_error moves' j = Some g ->
                 nth_error moves j = Some g \/ In g moveTypes).
Proof.
  induction k as [|k IH]; intros i moves n moves' n' Hrun;
    cbn [mutate_loop] in Hrun.
  - injection Hrun as <- <-. repeat split; try lia. intros _ j g Hg. now left.
  - unfold bind at 1 in Hrun. unfold random in Hrun.
    destruct (Qlt_bool (rnd n) rate).
    + unfold bind at 1 in Hrun. unfold random_index, bind, random, ret in Hrun.
      destruct (IH _ _ _ _ _ Hrun) as (Hlen & Hn & Hgenes).
      rewrite length_set_at_gen in Hlen.
      split; [exact Hlen|]. split; [lia|].
      intros Hok j g Hg. destruct (Hgenes Hok j g Hg) as [Hold|Hin]; [|now right].
      rewrite nth_error_set_at in Hold.
      destruct ((j =? i)%nat && (i <? length moves)%nat); [|now left].
      injection Hold as <-. right.
      destruct (random_gene rnd (S n) Hok) as (i0 & Hi0 & Hin).
      unfold random_index, bind, random, ret in Hi0. injection Hi0 as <-.
      exact Hin.
    + destruct (IH _ _ _ _ _ Hrun) as (Hlen & Hn & Hgenes).
      split; [exact Hlen|]. split; [lia|exact Hgenes].
Qed.

(** X15. [mutate] writes to the chromosome only: the fitness, the path, the
    goal flag and the final distance of the individual are what they were
    (stale until the next [calculateFitness]); the chromosome keeps its
    length, makes between one and two draws per gene, and for draws in
    [0, 1) every gene is the gene that was there or a direction name. *)
Theorem mutate_frame (rnd : nat -> Q) (this ind : Individual.t) (rate : Q)
    (n n' : nat) :
  mutate this rate rnd n = Ok ind n' ->
  Individual.fitness ind = Individual.fitness this /\
  Individual.path ind = Individual.path this /\
  Individual.reachedGoal ind = Individual.reachedGoal this /\
  Individual.finalDistance ind = Individual.finalDistance this /\
  length (Individual.moves ind) = length (Individual.moves this) /\
  (n + length (Individual.moves this) <= n'
   <= n + 2 * length (Individual.moves this))%nat /\
  (rnd_ok rnd ->
   forall j g, nth_error (Individual.moves ind) j = Some g ->
               nth_error (Individual.moves this) j = Some g \/ In g moveTypes).
Proof.
  unfold mutate, bind. intros Hrun.
  destruct (mutate_loop (length (Individual.moves this)) 0 (Individual.moves this)
                        rate rnd n) as [moves' n1| |] eqn:Hloop;
    [|discriminate Hrun|discriminate Hrun].
  unfold ret in Hrun. injection Hrun as <- <-.
  destruct (mutate_loop_frame rnd rate _ _ _ _ _ _ Hloop) as (Hlen & Hn & Hg).
  cbn [with_moves Individual.fitness Individual.path Individual.reachedGoal
       Individual.finalDistance Individual.moves].
  repeat split; auto; lia.
Qed.

(** Witness of X15: a chromosome of one gene, mutated at rate 1/2 under the
    oracle that always draws 0. *)
Lemma mutate_frame_witness :
  Individual.fitness (Individual.mk ["UP"%string] 7 [] false None)
  = Individual.fitness (Individual.mk ["LEFT"%string] 7 [] false None).
Proof.
  exact (proj1 (mutate_frame rnd_zero
                  (Individual.mk ["LEFT"%string] 7 [] false None)
                  (Individual.mk ["UP"%string] 7 [] false None)
                  (1 # 2) 0%nat 2%nat eq_refl)).
Defined.

Lemma Qlt_bool_false (r rate : Q) :
  (0 <= r)%Q -> (rate <= 0)%Q -> Qlt_bool r rate = false.
Proof.
  intros Hr Hrate. unfold Qlt_bool.
  assert (H : Qle_bool rate r = true)
    by (apply Qle_bool_iff; now apply (Qle_trans _ 0)).
  now rewrite H.
Qed.

Lemma mutate_loop_rate_zero (rnd : nat -> Q) (rate : Q) :
  rnd_ok rnd -> (rate <= 0)%Q ->
  forall k i moves n,
    mutate_loop k i moves rate rnd n = Ok moves (n + k)%nat.
Proof.
  intros Hok Hrate. induction k as [|k IH]; intros i moves n;
    cbn [mutate_loop].
  - unfold ret. now rewrite Nat.add_0_r.
  - unfold bind at 1. unfold random.
    rewrite (Qlt_bool_false _ _ (proj1 (Hok n)) Hrate), IH. f_equal. lia.
Qed.

(** X16. With a mutation rate of 0 (or less) and draws in [0, 1), [mutate]
    leaves the individual exactly as it is, after one draw per gene. *)
Theorem mutate_rate_zero (rnd : nat -> Q) (this : Individual.t) (rate : Q)
    (n : nat) :
  rnd_ok rnd -> (rate <= 0)%Q ->
  mutate this rate rnd n = Ok this (n + length (Individual.moves this))%nat.
Proof.
  intros Hok Hrate. unfold mutate, bind.
  rewrite (mutate_loop_rate_zero rnd rate Hok Hrate). unfold ret.
  destruct this. reflexivity.
Qed.

(** Witness of X16. *)
Lemma mutate_rate_zero_witness :
  mutate (Individual_new ["UP"; "LEFT"]%string) 0 rnd_zero 0%nat
  = Ok (Individual_new ["UP"; "LEFT"]%string) 2%nat.
Proof.
  apply (mutate_rate_zero rnd_zero (Individual_new ["UP"; "LEFT"]%string) 0 0%nat).
  - exact rnd_zero_ok.
  - apply Qle_refl.
Defined.

(* ------------------------------------------------------------------ *)
(** ** Evaluation: what [calculateFitness] reads and what it keeps *)
(* ------------------------------------------------------------------ *)

Lemma replay_flag_sticky (genes : list string) :
  forall st, Replay.reachedGoal st = true ->
             Replay.reachedGoal (replay genes st) = true.
Proof.
  induction genes as [|g rest IH]; intros st Hf; cbn [replay]; [exact Hf|].
  destruct (isGoalState (Replay.currentBoard st)); [reflexivity|].
  destruct (matchingMove (Replay.currentBoard st) g) as [m|]; [|now apply IH].
  destruct (isGoalState (Replay.currentBoard (apply_move st m)));
    [reflexivity|].
  apply IH. now rewrite apply_move_flag.
Qed.

(** X17. [calculateFitness] never clears [reachedGoal]: an individual that
    carries the flag from an earlier evaluation keeps it, and gets the
    fitness of a solution, [10000 - moveCount], wherever its replay
    ends. *)
Theorem calculateFitness_stale_flag (this : Individual.t) (initialBoard : Board) :
  valid_board initialBoard -> Individual.reachedGoal this = true ->
  let r := calculateFitness this initialBoard in
  Individual.reachedGoal r = true /\
  Individual.fitness r = 10000 - (Z.of_nat (length (Individual.path r)) - 1).
Proof.
  intros Hv Hflag r.
  pose proof (replay_inv_preserved initialBoard (Individual.moves this) _
                (replay_start_inv this initialBoard Hv)) as Hinv.
  assert (Hst : Replay.reachedGoal
                  (replay (Individual.moves this) (replay_start this initialBoard))
                = true) by (apply replay_flag_sticky; exact Hflag).
  destruct Hinv as (visited & Hp & _ & _ & _ & Hcount & _).
  unfold r, calculateFitness. cbv zeta.
  cbn [Individual.reachedGoal Individual.fitness Individual.path].
  rewrite Hst. split; [reflexivity|].
  rewrite Hcount, Hp. cbn [length]. lia.
Qed.

(** Witness of X17: an individual flagged by an earlier evaluation whose
    only gene is blocked on the board it is evaluated on now. *)
Lemma calculateFitness_stale_flag_witness :
  Individual.reachedGoal
    (calculateFitness (Individual.mk ["UP"%string] 9999 [] true (Some 0))
                      [0; 1; 2; 3; 4; 5; 6; 7; 8]) = true /\
  Individual.fitness
    (calculateFitness (Individual.mk ["UP"%string] 9999 [] true (Some 0))
                      [0; 1; 2; 3; 4; 5; 6; 7; 8]) =
  10000 - (Z.of_nat (length (Individual.path
    (calculateFitness (Individual.mk ["UP"%string] 9999 [] true (Some 0))
                      [0; 1; 2; 3; 4; 5; 6; 7; 8]))) - 1).
Proof.
  apply (calculateFitness_stale_flag
           (Individual.mk ["UP"%string] 9999 [] true (Some 0))
           [0; 1; 2; 3; 4; 5; 6; 7; 8]).
  - unfold valid_board, GOAL_STATE.
    apply (Permutation_cons_app [1; 2; 3; 4; 5; 6; 7; 8] [] 0). reflexivity.
  - reflexivity.
Defined.

Lemma calculateFitness_ext (x y : Individual.t) (b : Board) :
  Individual.moves x = Individual.moves y ->
  Individual.reachedGoal x = Individual.reachedGoal y ->
  calculateFitness x b = calculateFitness y b.
Proof.
  intros Hm Hf. unfold calculateFitness, replay_start. now rewrite Hm, Hf.
Qed.

(** X18. Evaluating the clone of an evaluated individual on the same board
    gives the evaluated individual again, provided the individual was not
    flagged before its evaluation: this is the step
    [bestOverall = currentBest.clone (); bestOverall.calculateFitness
    (initialBoard)], which so reproduces [currentBest]. *)
Theorem calculateFitness_clone (this : Individual.t) (initialBoard : Board) :
  Individual.reachedGoal this = false ->
  calculateFitness (clone (calculateFitness this initialBoard)) initialBoard
  = calculateFitness this initialBoard.
Proof.
  intros Hf. apply calculateFitness_ext; [reflexivity|].
  cbn [clone Individual_new Individual.reachedGoal]. now rewrite Hf.
Qed.

(** Witness of X18. *)
Lemma calculateFitness_clone_witness :
  calculateFitness (clone (calculateFitness (Individual_new ["UP"%string])
                                            GOAL_STATE)) GOAL_STATE
  = calculateFitness (Individual_new ["UP"%string]) GOAL_STATE.
Proof.
  apply (calculateFitness_clone (Individual_new ["UP"%string]) GOAL_STATE).
  reflexivity.
Defined.

(* ------------------------------------------------------------------ *)
(** ** Tournament selection *)
(* ------------------------------------------------------------------ *)

(** With the exact product, [selectParent_by] is [selectParent]. *)
Lemma tournament_loop_by_exact (population : list Individual.t) (rnd : nat -> Q) :
  forall k best n,
    tournament_loop_by index_exact k population best rnd n =
    tournament_loop k population best rnd n.
Proof.
  induction k as [|k IH]; intros best n; [reflexivity|].
  cbn [tournament_loop_by tournament_loop].
  change (random_index_by index_exact (length population))
    with (random_index (length population)).
  unfold bind.
  destruct (random_index (length population) rnd n) as [i n'| |];
    [|reflexivity|reflexivity].
  destruct (read_at population i) as [c|]; [|reflexivity].
  destruct best as [b|]; [|reflexivity].
  destruct (Individual.fitness c >? Individual.fitness b); apply IH.
Qed.

Lemma selectParent_by_exact (population : list Individual.t) (k : nat)
    (rnd : nat -> Q) (n : nat) :
  selectParent_by index_exact population k rnd n = selectParent population k rnd n.
Proof.
  unfold selectParent_by, selectParent.
  change (random_index_by index_exact (length population))
    with (random_index (length population)).
  unfold bind.
  destruct (random_index (length population) rnd n) as [i n'| |];
    [|reflexivity|reflexivity].
  apply tournament_loop_by_exact.
Qed.

Lemma tournament_loop_by_fittest (index : Q -> nat -> Z) (rnd : nat -> Q)
    (population : list Individual.t) :
  forall k best n,
    (forall j, (j < k)%nat ->
       0 <= index (rnd (n + j)%nat) (length population)
         < Z.of_nat (length population)) ->
    In best population ->
    exists winner,
      tournament_loop_by index k population (Some best) rnd n
      = Ok (Some winner) (n + k)%nat /\
      In winner population /\
      Individual.fitness best <= Individual.fitness winner /\
      forall j c, (j < k)%nat ->
        read_at population (index (rnd (n + j)%nat) (length population)) = Some c ->
        Individual.fitness c <= Individual.fitness winner.
Proof.
  induction k as [|k IH]; intros best n Hidx Hin; cbn [tournament_loop_by].
  - exists best. unfold ret. rewrite Nat.add_0_r.
    split; [reflexivity|]. split; [exact Hin|]. split; [lia|]. intros j c Hj. lia.
  - unfold bind at 1, random_index_by, bind, random, ret.
    pose proof (Hidx 0%nat ltac:(lia)) as H0. rewrite Nat.add_0_r in H0.
    destruct (read_at_in_range population _ H0) as (c & Hrd & Hc).
    rewrite Hrd.
    assert (Hidx' : forall j, (j < k)%nat ->
              0 <= index (rnd (S n + j)%nat) (length population)
                < Z.of_nat (length population)).
    { intros j Hj. replace (S n + j)%nat with (n + S j)%nat by lia.
      apply Hidx. lia. }
    destruct (Z.gtb_spec (Individual.fitness c) (Individual.fitness best)) as [Hgt|Hle].
    + destruct (IH c (S n) Hidx' Hc) as (winner & Hrun & Hw & Hbw & Hall).
      exists winner. rewrite Hrun.
      split; [f_equal; lia|]. split; [exact Hw|]. split; [lia|].
      intros j c' Hj Hread. destruct j as [|j].
      * rewrite Nat.add_0_r, Hrd in Hread. injection Hread as <-. exact Hbw.
      * apply (Hall j c' ltac:(lia)).
        replace (S n + j)%nat with (n + S j)%nat by lia. exact Hread.
    + destruct (IH best (S n) Hidx' Hin) as (winner & Hrun & Hw & Hbw & Hall).
      exists winner. rewrite Hrun.
      split; [f_equal; lia|]. split; [exact Hw|]. split; [lia|].
      intros j c' Hj Hread. destruct j as [|j].
      * rewrite Nat.add_0_r, Hrd in Hread. injection Hread as <-. lia.
      * apply (Hall j c' ltac:(lia)).
        replace (S n + j)%nat with (n + S j)%nat by lia. exact Hread.
Qed.

(** X19. Whatever integer [Math.floor (Math.random () * population.length)]
    is for a draw (the floor of the exact product or of the product rounded
    to binary64), as long as each index drawn is inside the population,
    [selectParent] makes [tournamentSize] draws (one when [tournamentSize]
    is 0) and returns a member of the population that is at least as fit
    as every individual it drew. *)
Theorem selectParent_fittest (index : Q -> nat -> Z) (rnd : nat -> Q)
    (population : list Individual.t) (k n : nat) :
  (forall j, (j < Nat.max 1 k)%nat ->
     0 <= index (rnd (n + j)%nat) (length population)
       < Z.of_nat (length population)) ->
  exists parent,
    selectParent_by index population k rnd n
    = Ok (Some parent) (n + Nat.max 1 k)%nat /\
    In parent population /\
    forall j c, (j < Nat.max 1 k)%nat ->
      read_at population (index (rnd (n + j)%nat) (length population)) = Some c ->
      Individual.fitness c <= Individual.fitness parent.
Proof.
  intros Hidx. unfold selectParent_by, bind at 1, random_index_by, bind, random, ret.
  pose proof (Hidx 0%nat ltac:(lia)) as H0. rewrite Nat.add_0_r in H0.
  destruct (read_at_in_range population _ H0) as (c & Hrd & Hc).
  rewrite Hrd.
  assert (Hidx' : forall j, (j < k - 1)%nat ->
            0 <= index (rnd (S n + j)%nat) (length population)
              < Z.of_nat (length population)).
  { intros j Hj. replace (S n + j)%nat with (n + S j)%nat by lia.
    apply Hidx. lia. }
  destruct (tournament_loop_by_fittest index rnd population (k - 1) c (S n) Hidx' Hc)
    as (winner & Hrun & Hw & Hbw & Hall).
  exists winner. rewrite Hrun.
  split; [f_equal; lia|]. split; [exact Hw|].
  intros j c' Hj Hread. destruct j as [|j].
  - rewrite Nat.add_0_r, Hrd in Hread. injection Hread as <-. exact Hbw.
  - apply (Hall j c' ltac:(lia)).
    replace (S n + j)%nat with (n + S j)%nat by lia. exact Hread.
Qed.

(** Witness of X19: a tournament of three over [tournament_sample] with the
    binary64 index.  The draws pick the individuals number 23, 100 and 0,
    and number 23 is returned; the exact product would have picked number
    22 first, which is fitter. *)
Lemma selectParent_fittest_witness :
  index_binary64 (tournament_draws 0%nat) 200 = 23 /\
  index_exact (tournament_draws 0%nat) 200 = 22 /\
  exists parent,
    selectParent_by index_binary64 tournament_sample 3 tournament_draws 0%nat
    = Ok (Some parent) 3%nat /\
    In parent tournament_sample /\
    forall j c, (j < 3)%nat ->
      read_at tournament_sample
        (index_binary64 (tournament_draws (0 + j)%nat) (length tournament_sample))
      = Some c ->
      Individual.fitness c <= Individual.fitness parent.
Proof.
  split; [vm_compute; reflexivity|]. split; [vm_compute; reflexivity|].
  apply (selectParent_fittest index_binary64 tournament_draws tournament_sample
           3 0%nat).
  intros j Hj.
  destruct j as [|[|[|j]]];
    [ | | | exfalso; cbn in Hj; lia ];
    (split; [apply Z.leb_le|apply Z.ltb_lt]; vm_compute; reflexivity).
Defined.

Lemma read_at_nil {A} (i : Z) : read_at (@nil A) i = None.
Proof.
  unfold read_at. destruct (i <? 0); [reflexivity|]. now destruct (Z.to_nat i).
Qed.

Lemma selectParent_empty_throws (rnd : nat -> Q) (k n : nat) :
  (2 <= k)%nat -> selectParent [] k rnd n = TypeError.
Proof.
  intros Hk. destruct k as [|[|k]]; [lia|lia|].
  unfold selectParent, random_index, bind, random, ret. cbv beta iota.
  rewrite read_at_nil. cbn [Nat.sub tournament_loop].
  unfold random_index, bind, random, ret. cbv beta iota.
  now rewrite read_at_nil.
Qed.

(** X20. On an empty population [selectParent] reads [undefined] for
    [best]; with a tournament of two or more it then reads [undefined]
    for the competitor and throws on [competitor.fitness], whatever the
    draws are, and with a tournament of one or none it returns
    [undefined]. *)
Theorem selectParent_empty_population (rnd : nat -> Q) (k n : nat) :
  ((2 <= k)%nat -> selectParent [] k rnd n = TypeError) /\
  ((k <= 1)%nat -> selectParent [] k rnd n = Ok None (S n)).
Proof.
  split; [apply selectParent_empty_throws|]. intros Hk.
  destruct k as [|[|k]]; [| |lia];
    unfold selectParent, random_index, bind, random, ret; cbv beta iota;
    rewrite read_at_nil; reflexivity.
Qed.

(* ------------------------------------------------------------------ *)
(** ** Sorting by a key *)
(* ------------------------------------------------------------------ *)

Lemma sort_insert_sorted {A} (key : A -> Z) (cmp : A -> A -> Z) (x : A) :
  (forall a b, cmp a b = key a - key b) ->
  forall l,
    StronglySorted (fun a b => key a <= key b) l ->
    StronglySorted (fun a b => key a <= key b) (sort_insert cmp x l).
Proof.
  intros Hcmp. induction l as [|y l IH]; intros Hs; cbn [sort_insert].
  - repeat constructor.
  - inversion Hs as [|? ? Hsl Hall]; subst. rewrite Hcmp.
    destruct (Z.leb_spec (key x - key y) 0) as [Hle|Hgt].
    + constructor; [exact Hs|]. constructor; [lia|].
      rewrite Forall_forall in Hall |- *. intros z Hz. specialize (Hall z Hz). lia.
    + constructor; [now apply IH|].
      rewrite Forall_forall in Hall |- *. intros z Hz.
      apply (Permutation_in z (sort_insert_perm cmp x l)) in Hz.
      destruct Hz as [<-|Hz]; [lia|now apply Hall].
Qed.

Lemma js_sort_sorted {A} (key : A -> Z) (cmp : A -> A -> Z) (l : list A) :
  (forall a b, cmp a b = key a - key b) ->
  StronglySorted (fun a b => key a <= key b) (js_sort cmp l).
Proof.
  intros Hcmp. induction l as [|x l IH]; cbn [js_sort fold_right].
  - constructor.
  - now apply sort_insert_sorted.
Qed.

Lemma js_sort_fitness_head (l : list Individual.t) (best : Individual.t)
    (rest : list Individual.t) :
  js_sort by_fitness_desc l = best :: rest ->
  In best l /\ forall y, In y l -> Individual.fitness y <= Individual.fitness best.
Proof.
  intros Hs. pose proof (js_sort_perm by_fitness_desc l) as Hp.
  pose proof (js_sort_sorted (fun a => - Individual.fitness a) by_fitness_desc l
                ltac:(intros a b; unfold by_fitness_desc; lia)) as Hsorted.
  rewrite Hs in Hp, Hsorted. split.
  - apply (Permutation_in best Hp). now left.
  - intros y Hy. apply (Permutation_in y (Permutation_sym Hp)) in Hy.
    inversion Hsorted as [|? ? _ Hall]; subst.
    destruct Hy as [<-|Hy]; [lia|].
    rewrite Forall_forall in Hall. specialize (Hall y Hy). cbv beta in Hall. lia.
Qed.

(* ------------------------------------------------------------------ *)
(** ** One generation *)
(* ------------------------------------------------------------------ *)

Lemma generation_body_finished_spec (rnd : nat -> Q) (config : GeneticConfig)
    (initialBoard : Board) (population : list Individual.t)
    (bestOverall : option Individual.t) (n n' : nat)
    (currentBest : Individual.t) :
  generation_body config initialBoard population bestOverall rnd n
    = Ok (Finished currentBest) n' ->
  n' = n /\
  Individual.reachedGoal currentBest = true /\
  (exists ind, In ind population /\
               currentBest = calculateFitness ind initialBoard) /\
  forall ind, In ind population ->
    Individual.fitness (calculateFitness ind initialBoard)
    <= Individual.fitness currentBest.
Proof.
  unfold generation_body. intros H.
  destruct (js_sort by_fitness_desc
              (map (fun ind => calculateFitness ind initialBoard) population))
    as [|cb rest] eqn:Hsorted; [discriminate H|].
  destruct (js_sort_fitness_head _ _ _ Hsorted) as [Hin Hmax].
  destruct (Individual.reachedGoal cb) eqn:Hflag.
  - unfold ret in H. injection H as <- <-.
    split; [reflexivity|]. split; [exact Hflag|]. split.
    + apply in_map_iff in Hin. destruct Hin as (ind & Heq & Hind).
      exists ind. split; [exact Hind|now symmetry].
    + intros ind Hind. apply Hmax.
      apply (in_map (fun ind => calculateFitness ind initialBoard)). exact Hind.
  - unfold bind in H.
    destruct (reproduce config (cb :: rest) rnd n); discriminate H.
Qed.

(** X21. When a generation ends the run ([return currentBest]), the
    individual returned is an evaluated member of the population, flagged
    as having reached the goal, of the highest fitness of the generation;
    no draw has been made in that generation. *)
Theorem generation_body_finished (rnd : nat -> Q) (config : GeneticConfig)
    (initialBoard : Board) (population : list Individual.t)
    (bestOverall : option Individual.t) (n n' : nat)
    (currentBest : Individual.t) :
  generation_body config initialBoard population bestOverall rnd n
    = Ok (Finished currentBest) n' ->
  n' = n /\
  Individual.reachedGoal currentBest = true /\
  (exists ind, In ind population /\
               currentBest = calculateFitness ind initialBoard) /\
  forall ind, In ind population ->
    Individual.fitness (calculateFitness ind initialBoard)
    <= Individual.fitness currentBest.
Proof. apply generation_body_finished_spec. Qed.

(** Witness of X21: a population of one individual, evaluated on the
    goal. *)
Lemma generation_body_finished_witness :
  Individual.reachedGoal
    (calculateFitness (Individual_new ["UP"%string]) GOAL_STATE) = true.
Proof.
  exact (proj1 (proj2
    (generation_body_finished rnd_zero config_no_generation GOAL_STATE
       [Individual_new ["UP"%string]] None 0%nat 0%nat
       (calculateFitness (Individual_new ["UP"%string]) GOAL_STATE) eq_refl))).
Defined.

(* ------------------------------------------------------------------ *)
(** ** The populations of a run *)
(* ------------------------------------------------------------------ *)

Lemma chromosome_ok_clone (ind : Individual.t) :
  chromosome_ok (Individual.moves ind) -> fresh_individual (clone ind).
Proof. intros H. split; [exact H|reflexivity]. Qed.

Lemma calculateFitness_moves (ind : Individual.t) (b : Board) :
  Individual.moves (calculateFitness ind b) = Individual.moves ind.
Proof. reflexivity. Qed.

Lemma Individual_random_fresh (rnd : nat -> Q) (n : nat) :
  rnd_ok rnd ->
  exists ind, Individual_random rnd n = Ok ind (n + maxMoves)%nat /\
              fresh_individual ind.
Proof.
  intros Hok.
  destruct (generateRandomMoves_loop_genes rnd Hok maxMoves [] n)
    as (new & Hrun & Hlen & Hall).
  exists (Individual_new new). unfold Individual_random, bind, generateRandomMoves.
  rewrite Hrun. split; [reflexivity|]. repeat split; assumption.
Qed.

Lemma initial_population_fresh (rnd : nat -> Q) :
  rnd_ok rnd ->
  forall k n population n',
    initial_population k rnd n = Ok population n' ->
    Forall fresh_individual population.
Proof.
  intros Hok. induction k as [|k IH]; intros n population n' H;
    cbn [initial_population] in H.
  - injection H as <- _. constructor.
  - unfold bind at 1 in H.
    destruct (Individual_random_fresh rnd n Hok) as (ind & Hind & Hfresh).
    rewrite Hind in H. unfold bind at 1 in H.
    destruct (initial_population k rnd (n + maxMoves)%nat) as [rest n1| |] eqn:Hrest;
      try discriminate H.
    injection H as <- _. constructor; [exact Hfresh|].
    exact (IH _ _ _ Hrest).
Qed.

Lemma Forall_firstn_gen {A} (P : A -> Prop) (l : list A) :
  forall n, Forall P l -> Forall P (firstn n l).
Proof.
  induction l as [|x l IH]; intros [|n] H; cbn [firstn]; try constructor.
  - now inversion H.
  - apply IH. now inversion H.
Qed.

Lemma Forall_skipn_gen {A} (P : A -> Prop) (l : list A) :
  forall n, Forall P l -> Forall P (skipn n l).
Proof.
  induction l as [|x l IH]; intros [|n] H; cbn [skipn]; auto.
  apply IH. now inversion H.
Qed.

Lemma crossover_fresh (rnd : nat -> Q) (p1 p2 child : Individual.t) (n n' : nat) :
  rnd_ok rnd ->
  chromosome_ok (Individual.moves p1) -> chromosome_ok (Individual.moves p2) ->
  crossover p1 p2 rnd n = Ok child n' -> fresh_individual child.
Proof.
  intros Hok [Hl1 Hg1] [Hl2 Hg2] H. unfold crossover, bind in H.
  destruct (random_index_spec rnd
              (Nat.min (length (Individual.moves p1)) (length (Individual.moves p2)))
              n Hok) as (i & Hi & H0 & Hlt & _).
  rewrite Hi in H. unfold ret in H. injection H as <- _.
  split; [|reflexivity]. cbn [Individual_new Individual.moves].
  rewrite (crossover_moves_spec p1 p2 i H0).
  rewrite Hl1, Hl2 in Hlt. specialize (Hlt ltac:(unfold maxMoves; lia)).
  split.
  - rewrite length_app, length_firstn, length_skipn, Hl1, Hl2. lia.
  - apply Forall_app. split; [now apply Forall_firstn_gen|now apply Forall_skipn_gen].
Qed.

Lemma mutate_fresh (rnd : nat -> Q) (this ind : Individual.t) (rate : Q)
    (n n' : nat) :
  rnd_ok rnd -> fresh_individual this ->
  mutate this rate rnd n = Ok ind n' -> fresh_individual ind.
Proof.
  intros Hok [[Hlen Hgenes] Hflag] H. unfold mutate, bind in H.
  destruct (mutate_loop (length (Individual.moves this)) 0 (Individual.moves this)
                        rate rnd n) as [moves' n1| |] eqn:Hloop;
    [|discriminate H|discriminate H].
  unfold ret in H. injection H as <- _.
  destruct (mutate_loop_frame rnd rate _ _ _ _ _ _ Hloop) as (Hl & _ & Hg).
  split; [|exact Hflag]. cbn [with_moves Individual.moves]. split; [congruence|].
  apply Forall_forall. intros g Hin. apply In_nth_error in Hin.
  destruct Hin as (j & Hj). destruct (Hg Hok j g Hj) as [Hold|Hnew]; [|exact Hnew].
  rewrite Forall_forall in Hgenes. apply Hgenes.
  eapply nth_error_In. exact Hold.
Qed.

Lemma make_offspring_fresh (rnd : nat -> Q) (config : GeneticConfig)
    (population : list Individual.t) (n n' : nat) (offspring : Individual.t) :
  rnd_ok rnd -> population <> [] ->
  Forall (fun ind => chromosome_ok (Individual.moves ind)) population ->
  make_offspring config population rnd n = Ok offspring n' ->
  fresh_individual offspring.
Proof.
  intros Hok Hne Hall H. rewrite Forall_forall in Hall.
  unfold make_offspring in H. unfold bind at 1 in H.
  destruct (selectParent_ok rnd population tournamentSize n Hok Hne)
    as (p1 & n1 & H1 & Hin1).
  rewrite H1 in H. unfold bind at 1 in H.
  destruct (selectParent_ok rnd population tournamentSize n1 Hok Hne)
    as (p2 & n2 & H2 & Hin2).
  rewrite H2 in H. unfold bind at 1 in H. unfold random at 1 in H.
  unfold bind at 1 in H.
  destruct (Qlt_bool (rnd n2) (crossoverRate config)).
  - destruct (crossover p1 p2 rnd (S n2)) as [child n3| |] eqn:Hc;
      try discriminate H.
    refine (mutate_fresh rnd child offspring _ _ _ Hok _ H).
    apply (crossover_fresh rnd p1 p2 child _ _ Hok (Hall p1 Hin1) (Hall p2 Hin2) Hc).
  - unfold ret at 1 in H.
    refine (mutate_fresh rnd (clone p1) offspring _ _ _ Hok _ H).
    apply chromosome_ok_clone. exact (Hall p1 Hin1).
Qed.

Lemma offspring_loop_fresh (rnd : nat -> Q) (config : GeneticConfig)
    (population : list Individual.t) :
  rnd_ok rnd -> population <> [] ->
  Forall (fun ind => chromosome_ok (Individual.moves ind)) population ->
  forall fuel newPopulation n result n',
    Forall fresh_individual newPopulation ->
    offspring_loop fuel config population newPopulation rnd n = Ok result n' ->
    Forall fresh_individual result.
Proof.
  intros Hok Hne Hall.
  induction fuel as [|fuel IH]; intros newPopulation n result n' Hnew H;
    cbn [offspring_loop] in H;
    destruct (length newPopulation <? populationSize config)%nat.
  - discriminate H.
  - injection H as <- _. exact Hnew.
  - unfold bind in H.
    destruct (make_offspring config population rnd n) as [o n1| |] eqn:Ho;
      try discriminate H.
    apply (IH _ _ _ _ (proj2 (Forall_app _ _ _)
                          (conj Hnew (Forall_cons _ (make_offspring_fresh
                             rnd config population n n1 o Hok Hne Hall Ho)
                             (Forall_nil _)))) H).
  - injection H as <- _. exact Hnew.
Qed.

Lemma reproduce_fresh (rnd : nat -> Q) (config : GeneticConfig)
    (population newPopulation : list Individual.t) (n n' : nat) :
  rnd_ok rnd ->
  Forall (fun ind => chromosome_ok (Individual.moves ind)) population ->
  reproduce config population rnd n = Ok newPopulation n' ->
  Forall fresh_individual newPopulation.
Proof.
  intros Hok Hall H. unfold reproduce in H. rewrite elites_spec in H.
  assert (Helites : Forall fresh_individual
                      (map clone (firstn (elitismCount config) population))).
  { apply Forall_map. apply Forall_firstn_gen.
    rewrite Forall_forall in Hall |- *. intros x Hx.
    apply chromosome_ok_clone. now apply Hall. }
  destruct population as [|p0 population'].
  - (* no parents: the loop either has nothing to add or cannot run *)
    cbn [firstn map] in H, Helites.
    rewrite firstn_nil in H. cbn [map length] in H.
    destruct (populationSize config - 0)%nat as [|fuel] eqn:Hfuel;
      cbn [offspring_loop length] in H.
    + destruct (0 <? populationSize config)%nat; [discriminate H|].
      injection H as <- _. constructor.
    + destruct (0 <? populationSize config)%nat eqn:Hlt.
      * unfold bind, make_offspring in H. unfold bind at 1 in H.
        rewrite (selectParent_empty_throws rnd tournamentSize n
                   ltac:(unfold tournamentSize; lia)) in H.
        discriminate H.
      * injection H as <- _. constructor.
  - apply (offspring_loop_fresh rnd config (p0 :: population') Hok
             ltac:(discriminate) Hall _ _ _ _ _ Helites H).
Qed.


Lemma generation_body_step (rnd : nat -> Q) (config : GeneticConfig)
    (initialBoard : Board) (population : list Individual.t)
    (bestOverall : option Individual.t) (n : nat)
    (newPopulation : list Individual.t) (bestOverall' : option Individual.t)
    (n' : nat) :
  rnd_ok rnd -> Forall fresh_individual population ->
  (forall x, bestOverall = Some x -> evaluated_on initialBoard x) ->
  generation_body config initialBoard population bestOverall rnd n
    = Ok (NextGen newPopulation bestOverall') n' ->
  Forall fresh_individual newPopulation /\
  exists y, bestOverall' = Some y /\ evaluated_on initialBoard y.
Proof.
  intros Hok Hfresh Hbest H. unfold generation_body in H.
  destruct (js_sort by_fitness_desc
              (map (fun ind => calculateFitness ind initialBoard) population))
    as [|cb rest] eqn:Hsorted; [discriminate H|].
  assert (Hchrom : Forall (fun ind => chromosome_ok (Individual.moves ind))
                          (cb :: rest)).
  { rewrite <- Hsorted. apply Forall_forall. intros x Hx.
    apply (Permutation_in x (js_sort_perm by_fitness_desc _)) in Hx.
    apply in_map_iff in Hx. destruct Hx as (ind & <- & Hind).
    rewrite Forall_forall in Hfresh. apply (Hfresh ind Hind). }
  destruct (Individual.reachedGoal cb); [discriminate H|].
  unfold bind in H.
  destruct (reproduce config (cb :: rest) rnd n) as [p n1| |] eqn:Hr;
    try discriminate H.
  unfold ret in H. injection H as <- <- _.
  split; [exact (reproduce_fresh rnd config _ _ _ _ Hok Hchrom Hr)|].
  assert (Hcb : evaluated_on initialBoard
                  (calculateFitness (clone cb) initialBoard)).
  { exists (clone cb). split; [|reflexivity].
    apply chromosome_ok_clone. now inversion Hchrom. }
  destruct bestOverall as [old|].
  - destruct (Individual.fitness cb >? Individual.fitness old);
      eexists; split; try reflexivity; [exact Hcb|now apply Hbest].
  - eexists; split; [reflexivity|exact Hcb].
Qed.

(** X22. For draws in [0, 1), every population the generation loop works
    on consists of individuals with a chromosome of exactly 50 direction
    names and with [reachedGoal] not set: no individual is ever
    evaluated with a flag left from an earlier evaluation. *)
Theorem run_population_fresh (rnd : nat -> Q) (config : GeneticConfig)
    (initialBoard : Board) (population : list Individual.t) :
  rnd_ok rnd -> run_population rnd config initialBoard population ->
  Forall (fun ind =>
            length (Individual.moves ind) = 50%nat /\
            Forall (fun g => In g moveTypes) (Individual.moves ind) /\
            Individual.reachedGoal ind = false) population.
Proof.
  intros Hok Hrun.
  assert (H : Forall fresh_individual population).
  { induction Hrun as [population n n' Hinit
                      |population bestOverall newPopulation bestOverall' n n' Hrun IH Hbody].
    - exact (initial_population_fresh rnd Hok _ _ _ _ Hinit).
    - unfold generation_body in Hbody.
      destruct (js_sort by_fitness_desc
                  (map (fun ind => calculateFitness ind initialBoard) population))
        as [|cb rest] eqn:Hsorted; [discriminate Hbody|].
      assert (Hchrom : Forall (fun ind => chromosome_ok (Individual.moves ind))
                              (cb :: rest)).
      { rewrite <- Hsorted. apply Forall_forall. intros x Hx.
        apply (Permutation_in x (js_sort_perm by_fitness_desc _)) in Hx.
        apply in_map_iff in Hx. destruct Hx as (ind & <- & Hind).
        rewrite Forall_forall in IH. apply (IH ind Hind). }
      destruct (Individual.reachedGoal cb); [discriminate Hbody|].
      unfold bind in Hbody.
      destruct (reproduce config (cb :: rest) rnd n) as [p n1| |] eqn:Hr;
        try discriminate Hbody.
      unfold ret in Hbody. injection Hbody as <- _ _.
      exact (reproduce_fresh rnd config _ _ _ _ Hok Hchrom Hr). }
  apply (Forall_impl _ (P := fresh_individual)); [|exact H].
  intros ind [[Hl Hg] Hf]. repeat split; assumption.
Qed.

(** Witness of X22: the initial population of one individual under the
    oracle that always draws 0. *)
Lemma run_population_fresh_witness :
  exists population,
    initial_population 1 rnd_zero 0%nat = Ok population 50%nat /\
    Forall (fun ind =>
              length (Individual.moves ind) = 50%nat /\
              Forall (fun g => In g moveTypes) (Individual.moves ind) /\
              Individual.reachedGoal ind = false) population.
Proof.
  eexists. split; [reflexivity|].
  apply (run_population_fresh rnd_zero config_no_generation GOAL_STATE).
  - exact rnd_zero_ok.
  - apply (run_initial rnd_zero config_no_generation GOAL_STATE _ 0%nat 50%nat).
    reflexivity.
Defined.

(* ------------------------------------------------------------------ *)
(** ** What the genetic solver returns *)
(* ------------------------------------------------------------------ *)

Lemma evaluated_on_facts (initialBoard : Board) (ind : Individual.t) :
  valid_board initialBoard -> evaluated_on initialBoard ind ->
  length (Individual.moves ind) = 50%nat /\
  hd_error (Individual.path ind) = Some initialBoard /\
  move_chain (Individual.path ind) /\
  (Individual.reachedGoal ind = true <->
   last (Individual.path ind) initialBoard = GOAL_STATE) /\
  Individual.finalDistance ind =
    Some (manhattanDistance (last (Individual.path ind) initialBoard)).
Proof.
  intros Hv (x & [[Hlen Hgenes] Hflag] & ->).
  pose proof (replay_inv_preserved initialBoard (Individual.moves x) _
                (replay_start_inv x initialBoard Hv)) as Hinv.
  assert (Hne : Individual.moves x <> [])
    by (intros Hnil; rewrite Hnil in Hlen; discriminate Hlen).
  pose proof (replay_flag (Individual.moves x) (replay_start x initialBoard)
                (or_introl Hne)) as Hrf.
  cbn [replay_start Replay.reachedGoal] in Hrf. rewrite Hflag in Hrf.
  cbn [orb] in Hrf.
  unfold calculateFitness. cbv zeta.
  cbn [Individual.moves Individual.path Individual.reachedGoal
       Individual.finalDistance].
  set (st := replay (Individual.moves x) (replay_start x initialBoard)) in *.
  destruct Hinv as (visited & Hp & Hlast & Hval & Hch & _).
  split; [exact Hlen|]. split; [now rewrite Hp|]. split; [exact Hch|].
  rewrite Hlast. split; [|reflexivity].
  rewrite Hrf. split.
  - apply isGoalState_valid.
    rewrite <- Hlast. rewrite Forall_forall in Hval. apply Hval.
    rewrite Hp.
    destruct (@exists_last _ (initialBoard :: visited)) as (l' & a & Heq);
      [discriminate|].
    rewrite Heq, last_last. apply in_or_app. right. now left.
  - intros ->. reflexivity.
Qed.

Lemma generations_loop_evaluated (rnd : nat -> Q) (config : GeneticConfig)
    (initialBoard : Board) :
  rnd_ok rnd ->
  forall fuel generation population bestOverall n ind n',
    Forall fresh_individual population ->
    (forall x, bestOverall = Some x -> evaluated_on initialBoard x) ->
    generations_loop fuel config initialBoard generation population bestOverall
                     rnd n = Ok (Some ind) n' ->
    evaluated_on initialBoard ind.
Proof.
  intros Hok.
  induction fuel as [|fuel IH];
    intros generation population bestOverall n ind n' Hfresh Hbest H;
    cbn [generations_loop] in H;
    destruct (generation <? maxGenerations config)%nat.
  - discriminate H.
  - unfold ret in H. injection H as Hb _. now apply Hbest.
  - unfold bind in H.
    destruct (generation_body config initialBoard population bestOverall rnd n)
      as [[cb|newPopulation bestOverall'] n1| |] eqn:Hbody; try discriminate H.
    + unfold ret in H. injection H as <- _.
      destruct (generation_body_finished_spec _ _ _ _ _ _ _ _ Hbody)
        as (_ & _ & (x & Hx & ->) & _).
      exists x. split; [|reflexivity].
      rewrite Forall_forall in Hfresh. now apply Hfresh.
    + destruct (generation_body_step _ _ _ _ _ _ _ _ _ Hok Hfresh Hbest Hbody)
        as (Hnew & y & -> & Hy).
      apply (IH _ _ _ _ _ _ Hnew) in H; [exact H|].
      intros z Hz. injection Hz as <-. exact Hy.
  - unfold ret in H. injection H as Hb _. now apply Hbest.
Qed.

(** X23. For draws in [0, 1) and a valid initial board, whatever
    individual [solvePuzzleGenetic] returns has been evaluated on the
    initial board: it has 50 genes, its path starts at the initial board
    and is a chain of legal moves, its final distance is the Manhattan
    distance of the last board of the path, and it is flagged
    [reachedGoal] exactly when its path ends at the goal. *)
Theorem solvePuzzleGenetic_result (rnd : nat -> Q) (initialBoard : Board)
    (config : GeneticConfig) (n n' : nat) (ind : Individual.t) :
  rnd_ok rnd -> valid_board initialBoard ->
  solvePuzzleGenetic initialBoard config rnd n = Ok (Some ind) n' ->
  length (Individual.moves ind) = 50%nat /\
  hd_error (Individual.path ind) = Some initialBoard /\
  move_chain (Individual.path ind) /\
  (Individual.reachedGoal ind = true <->
   last (Individual.path ind) initialBoard = GOAL_STATE) /\
  Individual.finalDistance ind =
    Some (manhattanDistance (last (Individual.path ind) initialBoard)).
Proof.
  intros Hok Hv H. apply (evaluated_on_facts initialBoard ind Hv).
  unfold solvePuzzleGenetic, bind in H.
  destruct (initial_population (populationSize config) rnd n)
    as [population n1| |] eqn:Hinit; try discriminate H.
  apply (generations_loop_evaluated rnd config initialBoard Hok _ _ _ _ _ _ _
           (initial_population_fresh rnd Hok _ _ _ _ Hinit)) in H; [exact H|].
  intros x Hx. discriminate Hx.
Qed.

(** Witness of X23: a population of one individual and one generation, on
    the goal board, under the oracle that always draws 0. *)
Lemma solvePuzzleGenetic_result_witness :
  match solvePuzzleGenetic GOAL_STATE (mkConfig 1 1 (1 # 10) (8 # 10) 0)
                           rnd_zero 0%nat with
  | Ok (Some ind) _ => hd_error (Individual.path ind) = Some GOAL_STATE
  | _ => False
  end.
Proof.
  destruct (solvePuzzleGenetic GOAL_STATE (mkConfig 1 1 (1 # 10) (8 # 10) 0)
                               rnd_zero 0%nat) as [[ind|] n'| |] eqn:H.
  - exact (proj1 (proj2 (solvePuzzleGenetic_result rnd_zero GOAL_STATE
                           (mkConfig 1 1 (1 # 10) (8 # 10) 0) 0%nat n' ind
                           rnd_zero_ok (Permutation_refl _) H))).
  - vm_compute in H. discriminate H.
  - vm_compute in H. discriminate H.
  - vm_compute in H. discriminate H.
Defined.

(* ------------------------------------------------------------------ *)
(** ** The longest shortest solution *)
(* ------------------------------------------------------------------ *)

Lemma legal_move_sym (b t : Board) :
  valid_board b -> legal_move b t -> legal_move t b.
Proof.
  intros Hv Hl. unfold legal_move, successors in Hl.
  apply in_map_iff in Hl. destruct Hl as (m & <- & Hm).
  pose proof (getValidMoves_undo b m Hv Hm) as Hback.
  unfold legal_move, successors.
  apply (in_map Move.board) in Hback. exact Hback.
Qed.

Lemma walk_reverse (a : Board) :
  valid_board a ->
  forall w u, is_walk a u w ->
    is_walk u a (rev w) /\ walk_moves (rev w) = walk_moves w.
Proof.
  intros Hv. induction w as [|x w IH] using rev_ind; intros u Hw.
  - destruct Hw as (Hhd & _). discriminate Hhd.
  - destruct (is_walk_last a u _ Hw) as (w' & Heq).
    apply app_inj_tail in Heq. destruct Heq as [<- ->].
    rewrite rev_app_distr. cbn [rev app].
    destruct w as [|y w0].
    + destruct Hw as (Hhd & _). injection Hhd as ->.
      split; [apply is_walk_single|reflexivity].
    + set (w := y :: w0) in *.
      assert (Hne : w <> []) by discriminate.
      destruct (is_walk_unsnoc a u w Hne Hw) as [Hw' Hl].
      destruct (IH _ Hw') as [Hrev Hmoves].
      pose proof (is_walk_end_valid a _ w Hv Hw') as Hv1.
      destruct (is_walk_cons u (last w a) a (rev w)
                  (legal_move_sym _ _ Hv1 Hl) Hrev) as [Hwalk Hm].
      split; [exact Hwalk|]. rewrite Hm, Hmoves.
      unfold walk_moves. rewrite length_app. cbn [length]. lia.
Qed.

(** The depth of a board in the goal's table is the number of moves of its
    shortest solutions. *)
Lemma goal_depth_least (b : Board) (d : nat) (w : list Board) :
  valid_board b -> depth 8 b = Some d -> is_walk b GOAL_STATE w ->
  Z.of_nat d <= walk_moves w.
Proof.
  intros Hv Hd Hw.
  destruct (walk_reverse b Hv w GOAL_STATE Hw) as [Hrev Hm].
  destruct (cert_scan _ _ table_cert_corner) as (Hroot & _).
  destruct (cert_walk _ _ table_cert_corner GOAL_STATE O (Permutation_refl _)
              Hroot _ _ Hrev) as (d' & Hd' & Hle).
  unfold depth in Hd. rewrite Hd in Hd'. injection Hd' as <-. lia.
Qed.

Lemma hardest_board_depth : depth 8 [8; 6; 7; 2; 5; 4; 3; 0; 1] = Some 31%nat.
Proof. vm_cast_no_check (@eq_refl (option nat) (Some 31%nat)). Qed.

Lemma solveAStar_moves (b : Board) :
  valid_board b -> isSolvable b = true ->
  exists p d,
    solveAStar b = Returned p /\ depth 8 b = Some d /\
    walk_moves p = Z.of_nat d /\ (d < max_depth)%nat.
Proof.
  intros Hv Hs.
  destruct (solvable_in_table b Hv Hs) as (d & Hd).
  destruct (table_bound b d Hv Hd) as [Hlt _].
  destruct (goal_walk (table_of 8) estimate_table goal_cert_holds d b Hv Hd)
    as (wg & Hwg & Hmoves).
  destruct (astar_loop_complete b Hv (closed_bound_solvable b Hv Hs)
              (solvable_goal_walk b Hv Hs) astar_fuel [start_node b] []
              (astar_inv_init b Hv) (astar_fuel_enough b))
    as (p & Hret & Hp & Hopt).
  exists p, d. split; [exact Hret|]. split; [exact Hd|]. split; [|exact Hlt].
  pose proof (Hopt wg Hwg). pose proof (goal_depth_least b d p Hv Hd Hp). lia.
Qed.

(** X24. [solveAStar] never needs more than 31 moves: from every solvable
    valid board the path it returns has at most 32 boards, and there is a
    board from which it has exactly 32. *)
Theorem solveAStar_at_most_31_moves :
  (forall b, valid_board b -> isSolvable b = true ->
     exists p, solveAStar b = Returned p /\ (length p <= 32)%nat) /\
  (exists b p, valid_board b /\ solveAStar b = Returned p /\ length p = 32%nat).
Proof.
  split.
  - intros b Hv Hs. destruct (solveAStar_moves b Hv Hs) as (p & d & Hret & _ & Hm & Hlt).
    exists p. split; [exact Hret|]. unfold walk_moves in Hm. unfold max_depth in Hlt. lia.
  - assert (Hv : valid_board [8; 6; 7; 2; 5; 4; 3; 0; 1]).
    { unfold valid_board, GOAL_STATE. symmetry.
      apply (Permutation_cons_app [8; 6; 7; 2; 5; 4; 3; 0] [] 1). cbn [app].
      apply (Permutation_cons_app [8; 6; 7] [5; 4; 3; 0] 2). cbn [app].
      apply (Permutation_cons_app [8; 6; 7; 5; 4] [0] 3). cbn [app].
      apply (Permutation_cons_app [8; 6; 7; 5] [0] 4). cbn [app].
      apply (Permutation_cons_app [8; 6; 7] [0] 5). cbn [app].
      apply (Permutation_cons_app [8] [7; 0] 6). cbn [app].
      apply (Permutation_cons_app [8] [0] 7). cbn [app].
      reflexivity. }
    destruct (solveAStar_moves _ Hv eq_refl) as (p & d & Hret & Hd & Hm & _).
    exists [8; 6; 7; 2; 5; 4; 3; 0; 1], p.
    split; [exact Hv|]. split; [exact Hret|].
    rewrite hardest_board_depth in Hd. injection Hd as <-.
    unfold walk_moves in Hm. lia.
Qed.

(* ------------------------------------------------------------------ *)
(** ** Keys of the closed set *)
(* ------------------------------------------------------------------ *)

(** X25. The string [board.toString ()] that [solveAStar] keeps in its
    closed set identifies the board: two boards of digits 0..8 (valid
    boards in particular) with the same string are the same board, so a
    board is never taken for closed because of another one. *)
Theorem toString_identifies_board (b b' : Board) :
  Forall (fun v => 0 <= v <= 8) b -> Forall (fun v => 0 <= v <= 8) b' ->
  (toString b = toString b' <-> b = b').
Proof.
  intros Hb Hb'. split; [now apply toString_inj|]. now intros ->.
Qed.

(** Witness of X25. *)
Lemma toString_identifies_board_witness :
  toString GOAL_STATE = toString GOAL_STATE <-> GOAL_STATE = GOAL_STATE.
Proof.
  apply (toString_identifies_board GOAL_STATE GOAL_STATE);
    unfold GOAL_STATE; repeat constructor; lia.
Defined.
